(** * The selection wheel of the launcher (emulator.py)

    A shallow embedding of the wheel state machine of [emulator.py]:
    [WheelUI.update], [WheelUI.get_bottom_item], the selection dispatch of
    [WheelItem.draw], the key handling of [PygameEmulator.run], the
    selection arithmetic of [PygameEmulator.draw_menu] and the debounce of
    [PowerButtonMonitor._handle_button_press].

    Numbers.  Python [int] is [Z].  Python [float] has two models.

    - The exact model ([Py], [update], [get_bottom_item], ...): rational
      arithmetic ([Q], compared with [==]); every operation returns the
      mathematically exact result and rounding to binary64 is not
      modelled.  [math.pi] is the rational value of the double that Python
      uses.

    - The binary64 model (module [F64]): the primitive floats, every
      operation correctly rounded as in Python, [%] as CPython computes
      it.  What depends on rounding is stated over this model: the range
      of the current angle after [update], and which item
      [get_bottom_item] returns. *)

From Stdlib Require Import ZArith QArith Qabs Qround Qminmax Lia Lqa List Bool String.
From Stdlib Require Import DecimalString.
From Stdlib Require Floats.
Import ListNotations.

Local Open Scope Z_scope.
Local Open Scope Q_scope.

(** ** Python arithmetic *)

Module Py.

(** [x % w] on floats: the result has the sign of [w],
    [x % w = x - floor(x / w) * w].  The code only divides by the non-zero
    constants 360 and [2 * math.pi]. *)
Definition fmod (x w : Q) : Q := x - w * inject_Z (Qfloor (x / w)).

(** [abs(x)] *)
Definition abs (x : Q) : Q := Qabs x.

(** [a > b], [a < b] and [a >= b] on floats, as booleans *)
Definition gt (a b : Q) : bool := if Qlt_le_dec b a then true else false.
Definition lt (a b : Q) : bool := if Qlt_le_dec a b then true else false.
Definition ge (a b : Q) : bool := if Qlt_le_dec a b then false else true.

(** [math.pi]: the double 0x400921FB54442D18, as a rational *)
Definition pi : Q := 884279719003555 # 281474976710656.

(** [math.radians(x)] *)
Definition radians (x : Q) : Q := x * (pi / 180).

(** exceptions raised by the modelled code *)
Inductive exn : Set := ZeroDivisionError | IndexError.

(** outcome of a statement sequence: normal completion, an exception, or
    [sys.exit()] *)
Inductive result (A : Type) : Type :=
| Ok (a : A)
| Raise (e : exn)
| Exit.
Arguments Ok {A} a.
Arguments Raise {A} e.
Arguments Exit {A}.

Definition bind {A B} (m : result A) (k : A -> result B) : result B :=
  match m with
  | Ok a => k a
  | Raise e => Raise e
  | Exit => Exit
  end.

(** [a % b] on ints *)
Definition imod (a b : Z) : result Z :=
  if (b =? 0)%Z then Raise ZeroDivisionError else Ok (a mod b)%Z.

(** [round(x)] on a float: the nearest int, ties to the even one *)
Definition round (x : Q) : Z :=
  let f := Qfloor x in
  let r := x - inject_Z f in
  if lt r (1 # 2) then f
  else if gt r (1 # 2) then (f + 1)%Z
  else if Z.even f then f else (f + 1)%Z.

(** [xs[i]] on a list (negative indices count from the end) *)
Definition getitem {A} (xs : list A) (i : Z) : result A :=
  let n := Z.of_nat (List.length xs) in
  let j := if (i <? 0)%Z then (i + n)%Z else i in
  if ((j <? 0) || (n <=? j))%Z then Raise IndexError
  else match nth_error xs (Z.to_nat j) with
       | Some x => Ok x
       | None => Raise IndexError
       end.

End Py.

Notation "x <- m ;; k" := (Py.bind m (fun x => k))
  (at level 61, m at next level, right associativity).

(** ** WheelItem and WheelUI *)

(** [WheelItem]: the fields the angle, index and zoom logic reads or
    writes.  An image is represented by its size [(width, height)]. *)
Record WheelItem : Type := mkWheelItem {
  index : Z;
  original_image : Z * Z;
  image : Z * Z;
  base_angle : Q;
  angle : Q;
  grow : Q
}.

(** [WheelItem.__init__(index, image, x, y, angle, label)] *)
Definition WheelItem_init (index : Z) (image : Z * Z) (angle : Q) : WheelItem :=
  {| index := index; original_image := image; image := image;
     base_angle := angle; angle := angle; grow := 0 |}.

(** [WheelUI]: the fields the angle and index logic reads or writes. *)
Record WheelUI : Type := mkWheelUI {
  master_index : Z;
  target_index : Z;
  master_angle : Q;
  target_angle : Q;
  bottom_angle : Q;
  items : list string;
  num_items : Z;
  angle_increment : Q
}.

Definition set_master_index (w : WheelUI) (v : Z) : WheelUI :=
  mkWheelUI v (target_index w) (master_angle w) (target_angle w)
            (bottom_angle w) (items w) (num_items w) (angle_increment w).
Definition set_target_index (w : WheelUI) (v : Z) : WheelUI :=
  mkWheelUI (master_index w) v (master_angle w) (target_angle w)
            (bottom_angle w) (items w) (num_items w) (angle_increment w).
Definition set_master_angle (w : WheelUI) (v : Q) : WheelUI :=
  mkWheelUI (master_index w) (target_index w) v (target_angle w)
            (bottom_angle w) (items w) (num_items w) (angle_increment w).
Definition set_target_angle (w : WheelUI) (v : Q) : WheelUI :=
  mkWheelUI (master_index w) (target_index w) (master_angle w) v
            (bottom_angle w) (items w) (num_items w) (angle_increment w).

(** The loop [for index, item in enumerate(self.items)] of
    [WheelUI.__init__]: one [WheelItem] per entry, each added to
    [wheel_item_group] in order.  [imgs] are the sizes of the thumbnails. *)
Fixpoint make_wheel_items (angle_increment : Q) (index : Z) (imgs : list (Z * Z))
  : list WheelItem :=
  match imgs with
  | [] => []
  | img :: imgs' =>
      let item_angle := Py.radians (angle_increment * inject_Z index + 90) in
      WheelItem_init index img item_angle
        :: make_wheel_items angle_increment (index + 1) imgs'
  end.

(** [WheelUI.__init__].  [entries] is the directory listing filtered by
    [main.py], each name with the size of its (scaled) thumbnail.  Returns
    the wheel and the contents of the global [wheel_item_group]. *)
Definition WheelUI_init (entries : list (string * (Z * Z)))
  : WheelUI * list WheelItem :=
  let items := map fst entries in
  let num_items := Z.of_nat (List.length items) in
  let angle_increment :=
    if (num_items >? 0)%Z then 360 / inject_Z num_items else 0 in
  ({| master_index := 0; target_index := 0;
      master_angle := 0; target_angle := 0;
      bottom_angle := Py.radians 90;
      items := items; num_items := num_items;
      angle_increment := angle_increment |},
   make_wheel_items angle_increment 0 (map snd entries)).

(** [WheelUI.update] *)
Definition update (self : WheelUI) : WheelUI :=
  let self := set_master_index self (target_index self) in
  (* self.target_angle %= 360 *)
  let self := set_target_angle self (Py.fmod (target_angle self) 360) in
  let angle_diff := Py.fmod (target_angle self - master_angle self) 360 in
  let angle_diff := if Py.gt angle_diff 180 then angle_diff - 360 else angle_diff in
  let self :=
    if Py.gt (Py.abs angle_diff) 1
    then set_master_angle self (master_angle self + angle_diff * (15 # 100))
    else set_master_angle self (target_angle self) in
  (* self.master_angle %= 360 *)
  set_master_angle self (Py.fmod (master_angle self) 360).

(** The body of the loop of [WheelUI.get_bottom_item] up to the shortest
    path: the distance [diff] of one item from the bottom position. *)
Definition bottom_diff (self : WheelUI) (item : WheelItem) : Q :=
  let item_angle :=
    Py.fmod (angle item + Py.radians (master_angle self)) (2 * Py.pi) in
  let diff := Py.abs (item_angle - bottom_angle self) in
  if Py.gt diff Py.pi then 2 * Py.pi - diff else diff.

(** [diff < min_diff], where [min_diff] starts as [float('inf')] ([None]) *)
Definition lt_min (diff : Q) (min_diff : option Q) : bool :=
  match min_diff with
  | None => true
  | Some m => Py.lt diff m
  end.

(** One iteration of the loop of [WheelUI.get_bottom_item] on the pair
    [(closest_item, min_diff)]. *)
Definition bottom_step (self : WheelUI) (acc : option WheelItem * option Q)
  (item : WheelItem) : option WheelItem * option Q :=
  let diff := bottom_diff self item in
  if lt_min diff (snd acc) then (Some item, Some diff) else acc.

(** [WheelUI.get_bottom_item], on the contents of [wheel_item_group] *)
Definition get_bottom_item (self : WheelUI) (wheel_item_group : list WheelItem)
  : option WheelItem :=
  fst (fold_left (bottom_step self) wheel_item_group (None, None)).

(** ** Zoom and draw of a wheel item *)

Definition set_image_grow (it : WheelItem) (img : Z * Z) (g : Q) : WheelItem :=
  {| index := index it; original_image := original_image it; image := img;
     base_angle := base_angle it; angle := angle it; grow := g |}.

(** [WheelItem.zoom_in(zoom_factor)], for an int [zoom_factor] *)
Definition zoom_in (self : WheelItem) (zoom_factor : Z) : WheelItem :=
  let diff := Z.abs (fst (image self) - fst (original_image self) * zoom_factor) in
  if (diff =? 0)%Z then self
  else
    let '(orig_x, orig_y) := original_image self in
    if (diff >? 1)%Z then
      let g := grow self + inject_Z diff * (2 # 10) in
      set_image_grow self ((orig_x + Py.round g)%Z, (orig_y + Py.round g)%Z) g
    else
      set_image_grow self ((orig_x * zoom_factor)%Z, (orig_y * zoom_factor)%Z)
                     (grow self).

(** [WheelItem.zoom_out()] *)
Definition zoom_out (self : WheelItem) : WheelItem :=
  let diff := Z.abs (fst (image self) - fst (original_image self)) in
  if (diff =? 0)%Z then self
  else
    let '(orig_x, orig_y) := original_image self in
    if (diff >? 1)%Z then
      let g := grow self - inject_Z diff * (2 # 10) in
      set_image_grow self ((orig_x + Py.round g)%Z, (orig_y + Py.round g)%Z) g
    else
      set_image_grow self (orig_x, orig_y) (grow self).

(** [WheelItem.draw(display, wheel_ui)]: the selection part (the blits and
    the label text do not change the item). *)
Definition draw (self : WheelItem) (wheel_ui : WheelUI)
  (wheel_item_group : list WheelItem) : WheelItem :=
  match get_bottom_item wheel_ui wheel_item_group with
  | Some bottom_item =>
      if (index self =? index bottom_item)%Z then
        if Py.lt (Py.abs (master_angle wheel_ui - target_angle wheel_ui)) 6
        then zoom_in self 2
        else self
      else zoom_out self
  | None => zoom_out self
  end.

(** ** PygameEmulator *)

Inductive key : Set :=
  K_UP | K_DOWN | K_LEFT | K_RIGHT | K_RETURN | K_ESCAPE | K_OTHER.

Definition key_eqb (a b : key) : bool :=
  match a, b with
  | K_UP, K_UP | K_DOWN, K_DOWN | K_LEFT, K_LEFT | K_RIGHT, K_RIGHT
  | K_RETURN, K_RETURN | K_ESCAPE, K_ESCAPE | K_OTHER, K_OTHER => true
  | _, _ => false
  end.

Inductive event : Set :=
| QUIT
| KEYDOWN (k : key)
| KEYUP (k : key).

(** [PygameEmulator]: the fields the menu and the key handling use. *)
Record PygameEmulator : Type := mkEmulator {
  games : list string;
  selected_index : Z;
  background : bool;
  wheel : WheelUI;
  startup : bool;
  logo_timer : Z;
  start_timer : Z
}.

Definition set_wheel (e : PygameEmulator) (w : WheelUI) : PygameEmulator :=
  mkEmulator (games e) (selected_index e) (background e) w (startup e)
             (logo_timer e) (start_timer e).
Definition set_selected_index (e : PygameEmulator) (i : Z) : PygameEmulator :=
  mkEmulator (games e) i (background e) (wheel e) (startup e)
             (logo_timer e) (start_timer e).
Definition set_background (e : PygameEmulator) (b : bool) : PygameEmulator :=
  mkEmulator (games e) (selected_index e) b (wheel e) (startup e)
             (logo_timer e) (start_timer e).
Definition set_timers (e : PygameEmulator) (l s : Z) : PygameEmulator :=
  mkEmulator (games e) (selected_index e) (background e) (wheel e) (startup e)
             l s.

(** [PygameEmulator.__init__]: [scan_games] and the [WheelUI] read the same
    directory, so both are built from the one listing [entries]. *)
Definition PygameEmulator_init (entries : list (string * (Z * Z)))
  : PygameEmulator * list WheelItem :=
  let '(w, group) := WheelUI_init entries in
  ({| games := map fst entries; selected_index := 0; background := false;
      wheel := w; startup := true; logo_timer := 180; start_timer := 240 |},
   group).

(** [PygameEmulator.draw_menu]: the wheel update, the selection index, and
    the draw of every item by [render_wheel] (each item once; the order of
    the draws does not matter, a draw changes only its own item's image).
    [WheelItem.update] writes only the screen position and the depth of an
    item, which are not among the fields kept here.  The calls that leave
    the program are not modelled: the drawing calls of pygame, the clock,
    and [check_internet_status()], whose host lookup can raise. *)
Definition draw_menu (self : PygameEmulator) (wheel_item_group : list WheelItem)
  : Py.result (PygameEmulator * list WheelItem) :=
  let self := set_wheel self (update (wheel self)) in
  let len_games := Z.of_nat (List.length (games self)) in
  let self :=
    set_selected_index self
      (Z.abs (len_games - 1 - master_index (wheel self)) + 1)%Z in
  i <- Py.imod (selected_index self) len_games ;;
  let self := set_selected_index self i in
  game_folder <- Py.getitem (games self) (selected_index self) ;;
  Py.Ok (self,
         map (fun sprite => draw sprite (wheel self) wheel_item_group)
             wheel_item_group).

(** The [KEYDOWN] branch of the event loop of [PygameEmulator.run].
    [run_game] blocks until the child exits and changes nothing but
    [background]. *)
Definition on_keydown (self : PygameEmulator) (k : key)
  : Py.result PygameEmulator :=
  self <-
    (if negb (startup self) then
       self <-
         (if key_eqb k K_LEFT then
            let w := wheel self in
            i <- Py.imod (target_index w - 1)%Z (num_items w) ;;
            let w := set_target_index w i in
            let w := set_target_angle w (angle_increment w * inject_Z (target_index w)) in
            Py.Ok (set_wheel self w)
          else Py.Ok self) ;;
       if key_eqb k K_RIGHT then
         let w := wheel self in
         i <- Py.imod (target_index w + 1)%Z (num_items w) ;;
         let w := set_target_index w i in
         let w := set_target_angle w (angle_increment w * inject_Z (target_index w)) in
         Py.Ok (set_wheel self w)
       else if key_eqb k K_RETURN then
         game_folder <- Py.getitem (games self) (selected_index self) ;;
         Py.Ok (set_background self true)
       else Py.Ok self
     else Py.Ok (set_timers self 60 0)) ;;
  if key_eqb k K_ESCAPE then Py.Exit else Py.Ok self.

(** A run of key-down events, stopping at the first exception or exit. *)
Fixpoint on_keydowns (self : PygameEmulator) (ks : list key)
  : Py.result PygameEmulator :=
  match ks with
  | [] => Py.Ok self
  | k :: ks' => self' <- on_keydown self k ;; on_keydowns self' ks'
  end.

(** ** PowerButtonMonitor *)

Record PowerButtonMonitor : Type := mkMonitor {
  debounce_time : Q;
  last_time : Q
}.

(** [PowerButtonMonitor.__init__(pin, event_queue, debounce_time=0.2)] *)
Definition PowerButtonMonitor_init (debounce_time : option Q) : PowerButtonMonitor :=
  {| debounce_time := match debounce_time with Some d => d | None => 2 # 10 end;
     last_time := 0 |}.

(** [PowerButtonMonitor._handle_button_press]: [current_time] is the value
    read from [time.time()], [event_queue] the shared queue. *)
Definition _handle_button_press (self : PowerButtonMonitor)
  (event_queue : list event) (current_time : Q)
  : PowerButtonMonitor * list event :=
  if Py.ge (current_time - last_time self) (debounce_time self)
  then ({| debounce_time := debounce_time self; last_time := current_time |},
        (event_queue ++ [QUIT])%list)
  else (self, event_queue).

(** The callback run on each press of a sequence, in order. *)
Definition button_presses (self : PowerButtonMonitor) (event_queue : list event)
  (times : list Q) : PowerButtonMonitor * list event :=
  fold_left (fun st t => _handle_button_press (fst st) (snd st) t)
            times (self, event_queue).

(** ** Notions used to state the properties *)

(** The signed shortest rotation from [current] to [target]:
    [(target - current) mod 360], remapped into (-180, 180]. *)
Definition shortest_delta (target current : Q) : Q :=
  let d := Py.fmod (target - current) 360 in
  if Py.gt d 180 then d - 360 else d.

(** [n] calls of [WheelUI.update] in a row (one per frame). *)
Fixpoint updates (n : nat) (w : WheelUI) : WheelUI :=
  match n with
  | O => w
  | S n' => updates n' (update w)
  end.

(** The index-based selection of the spec:
    [(itemCount - 1 - targetIndex + 1) mod itemCount]. *)
Definition reflection_index (item_count target_index : Z) : Z :=
  ((item_count - 1 - target_index + 1) mod item_count)%Z.

(** The angular separation of two angles in degrees: the shorter way round
    the circle. *)
Definition angular_separation (a b : Q) : Q :=
  let d := Py.fmod (a - b) 360 in
  if Py.gt d 180 then 360 - d else d.

(** The presses of a sequence that are at least [window] after the
    previously accepted press ([prev], 0 before the first one). *)
Fixpoint accepted_presses (window prev : Q) (times : list Q) : list Q :=
  match times with
  | [] => []
  | t :: times' =>
      if Qlt_le_dec (t - prev) window
      then accepted_presses window prev times'
      else t :: accepted_presses window t times'
  end.

(** The rotation still to go: the signed shortest rotation from the current
    angle to the (normalised) target angle. *)
Definition remaining (w : WheelUI) : Q :=
  shortest_delta (Py.fmod (target_angle w) 360) (master_angle w).

(** [(17/20)^k]: what is left of a rotation after [k] steps of 15 percent *)
Fixpoint shrink (k : nat) : Q :=
  match k with
  | O => 1
  | S k' => (17 # 20) * shrink k'
  end.

(** Right presses minus left presses of a run of key-down events. *)
Fixpoint net_steps (ks : list key) : Z :=
  match ks with
  | [] => 0
  | K_LEFT :: ks' => (net_steps ks' - 1)%Z
  | K_RIGHT :: ks' => (net_steps ks' + 1)%Z
  | _ :: ks' => net_steps ks'
  end.

(** A catalog of four games and the launcher built from it, in the menu
    (the splash is over). *)
Definition four_games : list (string * (Z * Z)) :=
  [("alpha"%string, (100, 100)%Z); ("bravo"%string, (100, 100)%Z);
   ("charlie"%string, (100, 100)%Z); ("delta"%string, (100, 100)%Z)].

Definition in_menu (e : PygameEmulator) : PygameEmulator :=
  mkEmulator (games e) (selected_index e) (background e) (wheel e) false
             (logo_timer e) (start_timer e).

Definition four_games_menu : PygameEmulator :=
  in_menu (fst (PygameEmulator_init four_games)).

(** The launcher built from an empty games directory, in the menu. *)
Definition no_games_menu : PygameEmulator :=
  in_menu (fst (PygameEmulator_init [])).

(** The four-game wheel after a right press from rest: the target is index
    1 (90 degrees), the current angle is still 0. *)
Definition right_pressed_wheel : WheelUI :=
  set_target_angle (set_target_index (wheel four_games_menu) 1) 90.

(** One frame later the current angle has moved from 0 to 13.5 degrees. *)
Definition turning_wheel : WheelUI := update right_pressed_wheel.

(** The four-game wheel on its way from index 3 (270 degrees) to index 0,
    one degree short of the target across the wrap. *)
Definition wrapping_wheel : WheelUI :=
  set_master_angle (wheel four_games_menu) 359.

(** The items of the four-game wheel, item 0 enlarged by one [zoom_in]. *)
Definition grown_group : list WheelItem :=
  match snd (PygameEmulator_init four_games) with
  | [] => []
  | item :: rest => zoom_in item 2 :: rest
  end.

(** The angle of an item as the wheel shows it, in [0, 2 pi). *)
Definition effective_angle (self : WheelUI) (item : WheelItem) : Q :=
  Py.fmod (angle item + Py.radians (master_angle self)) (2 * Py.pi).

(** ** The splash and the main loop *)

Definition set_startup (e : PygameEmulator) (b : bool) : PygameEmulator :=
  mkEmulator (games e) (selected_index e) (background e) (wheel e) b
             (logo_timer e) (start_timer e).

(** [PygameEmulator.draw_start]: the timers and the fade of the logo.
    [logo_alpha] is the field [self.logo_alpha], which only the splash
    uses; it is passed beside the record. *)
Definition draw_start (self : PygameEmulator) (logo_alpha : Z)
  : PygameEmulator * Z :=
  if negb (start_timer self =? 0)%Z then
    let self := set_timers self (logo_timer self) (start_timer self - 1)%Z in
    if (start_timer self <=? 180)%Z then
      if (logo_alpha <? 255)%Z then (self, (logo_alpha + 5)%Z) else (self, 255%Z)
    else (self, logo_alpha)
  else
    if negb (logo_timer self =? 0)%Z then
      let self := set_timers self (logo_timer self - 1)%Z (start_timer self) in
      if (logo_timer self <=? 90)%Z then
        if (logo_alpha >? 0)%Z then (self, (logo_alpha - 5)%Z) else (self, 0%Z)
      else (self, logo_alpha)
    else
      let self := set_timers self 0%Z (start_timer self) in
      if (logo_alpha =? 0)%Z then (set_startup self false, logo_alpha)
      else (self, logo_alpha).

(** The loop [for event in pygame.event.get()] of [PygameEmulator.run]:
    a quit event ends the launcher, a key-down goes to the key handling,
    a key-up is ignored. *)
Fixpoint process_events (self : PygameEmulator) (events : list event)
  : Py.result PygameEmulator :=
  match events with
  | [] => Py.Ok self
  | QUIT :: _ => Py.Exit
  | KEYDOWN k :: events' =>
      self' <- on_keydown self k ;; process_events self' events'
  | KEYUP _ :: events' => process_events self events'
  end.

(** What the main loop holds: the emulator, [logo_alpha], and the contents
    of [wheel_item_group]. *)
Record Launcher : Type := mkLauncher {
  emulator : PygameEmulator;
  logo_alpha : Z;
  sprites : list WheelItem
}.

(** The launcher when [PygameEmulator.__init__] returns. *)
Definition Launcher_init (entries : list (string * (Z * Z))) : Launcher :=
  {| emulator := fst (PygameEmulator_init entries);
     logo_alpha := 0;
     sprites := snd (PygameEmulator_init entries) |}.

(** One turn of the loop of [PygameEmulator.run]: the splash or the menu
    is drawn, then the events of the frame ([events] is what
    [pygame.event.get()] returns after the GPIO queue was posted) are
    handled. *)
Definition run_frame (st : Launcher) (events : list event)
  : Py.result Launcher :=
  st <-
    (if startup (emulator st) then
       let '(e, a) := draw_start (emulator st) (logo_alpha st) in
       Py.Ok (mkLauncher e a (sprites st))
     else
       r <- draw_menu (emulator st) (sprites st) ;;
       let '(e, group) := r in
       let e := if background e then set_background e false else e in
       Py.Ok (mkLauncher e (logo_alpha st) group)) ;;
  e <- process_events (emulator st) events ;;
  Py.Ok (mkLauncher e (logo_alpha st) (sprites st)).

(** The loop itself, for the frames whose events are given; it stops at
    the first exception or exit. *)
Fixpoint run_frames (st : Launcher) (frames : list (list event))
  : Py.result Launcher :=
  match frames with
  | [] => Py.Ok st
  | events :: frames' => st' <- run_frame st events ;; run_frames st' frames'
  end.

(** What the loop keeps true when there is a game: the wheel counts the
    games, and the selected index is an index of [games]. *)
Definition has_games (e : PygameEmulator) : Prop :=
  (0 < Z.of_nat (List.length (games e)))%Z /\
  num_items (wheel e) = Z.of_nat (List.length (games e)) /\
  (0 <= selected_index e < Z.of_nat (List.length (games e)))%Z.

(** The splash state as a tuple: [(startup, start_timer, logo_timer,
    logo_alpha)]. *)
Definition splash_state (e : PygameEmulator) (a : Z) : bool * Z * Z * Z :=
  (startup e, start_timer e, logo_timer e, a).

(** [n] splash frames in a row, no key pressed. *)
Fixpoint draw_starts (n : nat) (e : PygameEmulator) (a : Z) : PygameEmulator * Z :=
  match n with
  | O => (e, a)
  | S n' => let '(e', a') := draw_start e a in draw_starts n' e' a'
  end.

(** An emulator with a given splash state (no games); the splash depends
    on nothing else. *)
Definition splash_emulator (s : bool) (start logo : Z) : PygameEmulator :=
  mkEmulator [] 0 false (fst (WheelUI_init [])) s logo start.

(** The values [logo_alpha] takes: the multiples of 5 from 0 to 255. *)
Definition alpha_ok (a : Z) : Prop :=
  (0 <= a <= 255)%Z /\ (a mod 5 = 0)%Z.

(** The splash is on during the first [n] of [m + 1] frames and off after
    them, as a check that computes. *)
Definition splash_lasts (n m : nat) (e : PygameEmulator) (a : Z) : bool :=
  forallb (fun j => Bool.eqb (startup (fst (draw_starts j e a))) (j <? n)%nat)
          (seq 0 (S m)).

(** ** GPIOInputBridge *)

(** A Python dict with int keys, in insertion order. *)
Fixpoint dict_get {V : Type} (d : list (Z * V)) (k : Z) : option V :=
  match d with
  | [] => None
  | (k', v) :: d' => if (k' =? k)%Z then Some v else dict_get d' k
  end.

(** [d[k] = v]: an existing key keeps its place, a new key goes last. *)
Fixpoint dict_set {V : Type} (d : list (Z * V)) (k : Z) (v : V) : list (Z * V) :=
  match d with
  | [] => [(k, v)]
  | (k', v') :: d' =>
      if (k' =? k)%Z then (k, v) :: d' else (k', v') :: dict_set d' k v
  end.

Record GPIOInputBridge : Type := mkBridge {
  gpio_key_map : list (Z * key);    (* {gpio_pin: pygame_key} *)
  pin_states : list (Z * bool);
  running : bool
}.

(** [GPIOInputBridge.__init__]: every pin starts high (not pressed). *)
Definition GPIOInputBridge_init (gpio_key_map : list (Z * key)) : GPIOInputBridge :=
  {| gpio_key_map := gpio_key_map;
     pin_states := map (fun pk => (fst pk, true)) gpio_key_map;
     running := true |}.

(** The loop [for pin, key in self.gpio_key_map.items()] of
    [GPIOInputBridge.run].  [input] is [GPIO.input]; [None] is the
    [KeyError] of [self.pin_states[pin]]. *)
Fixpoint poll_pins (input : Z -> bool) (pins : list (Z * key))
  (pin_states : list (Z * bool)) (event_queue : list event)
  : option (list (Z * bool) * list event) :=
  match pins with
  | [] => Some (pin_states, event_queue)
  | (pin, key) :: pins' =>
      let current_state := input pin in
      match dict_get pin_states pin with
      | None => None
      | Some old =>
          if negb (Bool.eqb current_state old) then
            let ev := if Bool.eqb current_state false
                      then KEYDOWN key else KEYUP key in
            poll_pins input pins' (dict_set pin_states pin current_state)
                      (event_queue ++ [ev])%list
          else poll_pins input pins' pin_states event_queue
      end
  end.

(** One turn of the loop of [GPIOInputBridge.run]; [gpio] is the module
    [GPIO], [None] when [RPi.GPIO] could not be imported. *)
Definition poll_once (gpio : option (Z -> bool)) (self : GPIOInputBridge)
  (event_queue : list event) : option (GPIOInputBridge * list event) :=
  match gpio with
  | None => Some (self, event_queue)
  | Some input =>
      match poll_pins input (gpio_key_map self) (pin_states self) event_queue with
      | None => None
      | Some (states, queue) =>
          Some (mkBridge (gpio_key_map self) states (running self), queue)
      end
  end.

(** The events of the pins whose level differs from the stored one, in the
    order of the key map: key-down for a low level, key-up for a high one. *)
Definition edge_events (input : Z -> bool) (states : list (Z * bool))
  (pins : list (Z * key)) : list event :=
  flat_map (fun pk =>
              match dict_get states (fst pk) with
              | Some old =>
                  if Bool.eqb (input (fst pk)) old then []
                  else [if input (fst pk) then KEYUP (snd pk)
                        else KEYDOWN (snd pk)]
              | None => []
              end) pins.

(** The key map is a dict (no pin twice), and the pins a bridge stores a level for are the pins
    of its key map. *)
Definition bridge_ok (b : GPIOInputBridge) : Prop :=
  NoDup (map fst (gpio_key_map b)) /\
  map fst (pin_states b) = map fst (gpio_key_map b).

(** The key map of the launcher. *)
Definition launcher_key_map : list (Z * key) :=
  [(17, K_UP); (18, K_DOWN); (27, K_LEFT); (22, K_RIGHT);
   (23, K_RETURN); (24, K_ESCAPE)]%Z.

(** ** The zoom animation *)

(** [n] calls of [zoom_in(2)] in a row, as [draw] makes them frame after
    frame for the selected item at rest. *)
Fixpoint zoom_ins (n : nat) (it : WheelItem) : WheelItem :=
  match n with
  | O => it
  | S n' => zoom_ins n' (zoom_in it 2)
  end.

(** An item on its way to double size after at least [k] growing steps:
    it is at double size, or its image is the original one enlarged by
    the rounded [grow] on both sides, short of double. *)
Definition growing (ow oh : Z) (k : Z) (it : WheelItem) : Prop :=
  original_image it = (ow, oh) /\
  ((image it = ((ow * 2)%Z, (oh * 2)%Z) /\ Py.round (grow it) = (ow - 1)%Z) \/
   exists r : Z,
     image it = ((ow + r)%Z, (oh + r)%Z) /\ r = Py.round (grow it) /\
     (0 <= r <= ow - 1)%Z /\ inject_Z k * (2 # 5) <= grow it).

(** [n] calls of [zoom_out()] in a row, as [draw] makes them for an item
    that is no longer selected. *)
Fixpoint zoom_outs (n : nat) (it : WheelItem) : WheelItem :=
  match n with
  | O => it
  | S n' => zoom_outs n' (zoom_out it)
  end.

(** An item on its way back to its original size after at least [k]
    shrinking steps. *)
Definition shrinking (ow oh : Z) (k : Z) (it : WheelItem) : Prop :=
  original_image it = (ow, oh) /\
  (image it = (ow, oh) \/
   exists r : Z,
     image it = ((ow + r)%Z, (oh + r)%Z) /\ r = Py.round (grow it) /\
     (1 <= r <= ow - 1)%Z /\
     grow it <= inject_Z ow - (1 # 2) - inject_Z k * (2 # 5)).

(** ** emulator_utils: the font cache *)

(** A [pygame.font.Font(font, size)] object, by the arguments it was made
    from; [font] is a file name or [None]. *)
Record Font : Type := mkFont {
  font_file : option string;
  font_size : Z
}.

(** [str(font)] and [str(size)] *)
Definition str_font (font : option string) : string :=
  match font with
  | Some s => s
  | None => "None"%string
  end.

Definition str_int (z : Z) : string := NilZero.string_of_int (Z.to_int z).

(** A Python dict with string keys, in insertion order. *)
Fixpoint sdict_get {V : Type} (d : list (string * V)) (k : string) : option V :=
  match d with
  | [] => None
  | (k', v) :: d' => if String.eqb k' k then Some v else sdict_get d' k
  end.

(** [get_font(font, size)] on the module's [font_cache]; returns the font
    and the cache after the call. *)
Definition get_font (font_cache : list (string * Font)) (font : option string)
  (size : Z) : Font * list (string * Font) :=
  let actual_font := (str_font font ++ str_int size)%string in
  match sdict_get font_cache actual_font with
  | Some f => (f, font_cache)
  | None => (mkFont font size,
             (font_cache ++ [(actual_font, mkFont font size)])%list)
  end.

(** Calls of [get_font] in a row; the cache after them. *)
Fixpoint get_fonts (font_cache : list (string * Font))
  (requests : list (option string * Z)) : list (string * Font) :=
  match requests with
  | [] => font_cache
  | (font, size) :: requests' =>
      get_fonts (snd (get_font font_cache font size)) requests'
  end.

(** ** BGLogo *)

Module BGLogo.

(** [BGLogo]: the fields of the fade and of the drift. *)
Record t : Type := mk {
  start_timer : Z;
  alpha : Z;
  max_alpha : Z;
  timer : Z;
  wait_timer : Z;
  toggled : bool;
  floating_x : Q;
  floating_y : Q;
  dx : Q;
  dy : Q
}.

(** What one call of [reset] draws from [random] and gets from pygame: the
    size of the rotated image, the centre it is put at, and the two speed
    draws of [randint(1, 3)]. *)
Record draws : Type := mkDraws {
  rotated_size : Z * Z;
  center : Z * Z;
  speed : Z * Z
}.

Definition midscreen_x : Z := 480 / 2.
Definition midscreen_y : Z := 270 / 2.

(** [BGLogo.reset]: [rect.center = (cx, cy)] puts the top left corner at
    [(cx - w // 2, cy - h // 2)]; the logo then drifts towards the middle
    of the screen. *)
Definition reset (self : t) (d : draws) : t :=
  let '(w, h) := rotated_size d in
  let '(cx, cy) := center d in
  {| start_timer := start_timer self;
     floating_x := inject_Z (cx - w / 2);
     floating_y := inject_Z (cy - h / 2);
     dx := if (cx >=? midscreen_x)%Z then - inject_Z (fst (speed d)) / 10
           else inject_Z (fst (speed d)) / 10;
     dy := if (cy >=? midscreen_y)%Z then - inject_Z (snd (speed d)) / 10
           else inject_Z (snd (speed d)) / 10;
     alpha := 0; max_alpha := 30; timer := 240; wait_timer := 180;
     toggled := false |}.

(** [BGLogo.__init__] *)
Definition init (d : draws) : t :=
  let self := reset (mk 0 0 0 0 0 false 0 0 0 0) d in
  mk 120 (alpha self) (max_alpha self) (timer self) (wait_timer self)
     (toggled self) (floating_x self) (floating_y self) (dx self) (dy self).

Definition set_fade (self : t) (st a tm wt : Z) (tg : bool) : t :=
  mk st a (max_alpha self) tm wt tg
     (floating_x self) (floating_y self) (dx self) (dy self).

(** [BGLogo.update]; [d] is what [reset] draws if this call resets. *)
Definition update (self : t) (d : draws) : t :=
  let self :=
    if negb (start_timer self =? 0)%Z then
      set_fade self (start_timer self - 1)%Z (alpha self) (timer self)
               (wait_timer self) (toggled self)
    else if ((alpha self <? max_alpha self)%Z && negb (toggled self))%bool then
      set_fade self (start_timer self) (alpha self + 1)%Z (timer self)
               (wait_timer self) (toggled self)
    else
      set_fade self (start_timer self) (alpha self) (timer self)
               (wait_timer self) true in
  let self :=
    if toggled self then
      if negb (timer self =? 0)%Z then
        set_fade self (start_timer self) (alpha self) (timer self - 1)%Z
                 (wait_timer self) (toggled self)
      else if (alpha self >? 0)%Z then
        set_fade self (start_timer self) (alpha self - 1)%Z (timer self)
                 (wait_timer self) (toggled self)
      else
        let self := set_fade self (start_timer self) 0%Z (timer self)
                             (wait_timer self) (toggled self) in
        if negb (wait_timer self =? 0)%Z then
          set_fade self (start_timer self) (alpha self) (timer self)
                   (wait_timer self - 1)%Z (toggled self)
        else reset self d
    else self in
  mk (start_timer self) (alpha self) (max_alpha self) (timer self)
     (wait_timer self) (toggled self)
     (floating_x self + dx self) (floating_y self + dy self)
     (dx self) (dy self).

(** The first [n] frames of a logo; frame [i] has the draws [ds i]. *)
Fixpoint run (n : nat) (ds : nat -> draws) (d0 : draws) : t :=
  match n with
  | O => init d0
  | S n' => update (run n' ds d0) (ds n')
  end.

(** The state of the fade. *)
Definition fade (self : t) : Z * Z * Z * Z * Z * bool :=
  (start_timer self, alpha self, max_alpha self, timer self,
   wait_timer self, toggled self).

End BGLogo.

(** * The wheel in binary64

    The same wheel code over IEEE 754 binary64, the floats that Python
    computes with: every operation is the correctly rounded one of the
    primitive floats, [%] is CPython's [float_rem] over the exact C [fmod].
    Properties that depend on rounding are stated over this module. *)

Module F64.

Import Stdlib.Floats.Floats.
Local Open Scope float_scope.

(** [math.pi]: the double 0x400921FB54442D18 *)
Definition pi : float := 0x1.921fb54442d18p+1.

(** [math.radians(x)]: CPython computes [x * (pi / 180)] *)
Definition radians (x : float) : float := x * (pi / 180).

(** the float of an int (exact below [2 ** 53], which covers the indices
    and counts of the wheel) *)
Definition of_int (z : Z) : float :=
  match z with
  | Z0 => 0
  | Zpos _ => of_uint63 (Uint63.of_Z z)
  | Zneg p => - of_uint63 (Uint63.of_Z (Zpos p))
  end.

(** C's [fmod(x, w)]: the exact remainder of [|x|] by [|w|], with the sign
    of [x]; the result is always representable *)
Definition fmod (x w : float) : float :=
  match Prim2SF x, Prim2SF w with
  | S754_nan, _ | _, S754_nan => nan
  | S754_infinity _, _ => nan
  | _, S754_zero _ => nan
  | _, S754_infinity _ => x
  | S754_zero _, _ => x
  | S754_finite sx mx ex, S754_finite _ mw ew =>
      let e := Z.min ex ew in
      let X := (Zpos mx * 2 ^ (ex - e))%Z in
      let W := (Zpos mw * 2 ^ (ew - e))%Z in
      match (X mod W)%Z with
      | Zpos r => SF2Prim (S754_finite sx r e)
      | _ => SF2Prim (S754_zero sx)
      end
  end.

(** [x % w] on floats, for the non-zero constants [w] of the code
    (CPython's [float_rem]): [fmod], moved by [w] when its sign differs from
    the sign of [w]; the addition rounds *)
Definition rem (x w : float) : float :=
  let m := fmod x w in
  if negb (m =? 0) then
    if Bool.eqb (w <? 0) (m <? 0) then m else m + w
  else if w <? 0 then -0 else 0.

(** Python's [min(a, b)] *)
Definition float_min (a b : float) : float := if b <? a then b else a.

(** [WheelItem]: the fields the angle logic reads *)
Record WheelItem : Type := mkWheelItem {
  index : Z;
  base_angle : float;
  angle : float
}.

(** [WheelItem.__init__(index, image, x, y, angle, label)] *)
Definition WheelItem_init (index : Z) (angle : float) : WheelItem :=
  {| index := index; base_angle := angle; angle := angle |}.

(** [WheelUI]: the fields the angle and index logic reads or writes *)
Record WheelUI : Type := mkWheelUI {
  master_index : Z;
  target_index : Z;
  master_angle : float;
  target_angle : float;
  bottom_angle : float;
  items : list string;
  num_items : Z;
  angle_increment : float
}.

Definition set_master_index (w : WheelUI) (v : Z) : WheelUI :=
  mkWheelUI v (target_index w) (master_angle w) (target_angle w)
            (bottom_angle w) (items w) (num_items w) (angle_increment w).
Definition set_target_index (w : WheelUI) (v : Z) : WheelUI :=
  mkWheelUI (master_index w) v (master_angle w) (target_angle w)
            (bottom_angle w) (items w) (num_items w) (angle_increment w).
Definition set_master_angle (w : WheelUI) (v : float) : WheelUI :=
  mkWheelUI (master_index w) (target_index w) v (target_angle w)
            (bottom_angle w) (items w) (num_items w) (angle_increment w).
Definition set_target_angle (w : WheelUI) (v : float) : WheelUI :=
  mkWheelUI (master_index w) (target_index w) (master_angle w) v
            (bottom_angle w) (items w) (num_items w) (angle_increment w).

(** The loop [for index, item in enumerate(self.items)] of
    [WheelUI.__init__] *)
Fixpoint make_wheel_items (angle_increment : float) (index : Z)
  (items : list string) : list WheelItem :=
  match items with
  | [] => []
  | _ :: items' =>
      let item_angle := radians (angle_increment * of_int index + 90) in
      WheelItem_init index item_angle
        :: make_wheel_items angle_increment (index + 1) items'
  end.

(** [WheelUI.__init__], on the directory listing filtered by [main.py];
    returns the wheel and the contents of [wheel_item_group].  The int
    fields [master_angle = 0] and [target_angle = 0] are the float zero,
    which every operation of the code treats alike. *)
Definition WheelUI_init (items : list string) : WheelUI * list WheelItem :=
  let num_items := Z.of_nat (List.length items) in
  let angle_increment :=
    if (num_items >? 0)%Z then 360 / of_int num_items else 0 in
  ({| master_index := 0; target_index := 0;
      master_angle := 0; target_angle := 0;
      bottom_angle := radians 90;
      items := items; num_items := num_items;
      angle_increment := angle_increment |},
   make_wheel_items angle_increment 0 items).

(** [WheelUI.update]; the constant is the double of [0.15] *)
Definition update (self : WheelUI) : WheelUI :=
  let self := set_master_index self (target_index self) in
  (* self.target_angle %= 360 *)
  let self := set_target_angle self (rem (target_angle self) 360) in
  let angle_diff := rem (target_angle self - master_angle self) 360 in
  let angle_diff := if 180 <? angle_diff then angle_diff - 360 else angle_diff in
  let self :=
    if 1 <? abs angle_diff
    then set_master_angle self
           (master_angle self + angle_diff * 0x1.3333333333333p-3)
    else set_master_angle self (target_angle self) in
  (* self.master_angle %= 360 *)
  set_master_angle self (rem (master_angle self) 360).

(** The body of the loop of [WheelUI.get_bottom_item] up to the shortest
    path: the distance [diff] of one item from the bottom position. *)
Definition bottom_diff (self : WheelUI) (item : WheelItem) : float :=
  let item_angle := rem (angle item + radians (master_angle self)) (2 * pi) in
  let diff := abs (item_angle - bottom_angle self) in
  if pi <? diff then 2 * pi - diff else diff.

(** One iteration of the loop of [WheelUI.get_bottom_item] on the pair
    [(closest_item, min_diff)]. *)
Definition bottom_step (self : WheelUI) (acc : option WheelItem * float)
  (item : WheelItem) : option WheelItem * float :=
  let diff := bottom_diff self item in
  if diff <? snd acc then (Some item, diff) else acc.

(** [WheelUI.get_bottom_item], on the contents of [wheel_item_group];
    [min_diff] starts as [float('inf')] *)
Definition get_bottom_item (self : WheelUI) (wheel_item_group : list WheelItem)
  : option WheelItem :=
  fst (fold_left (bottom_step self) wheel_item_group (None, infinity)).

(** What a [KEYDOWN] in the menu does to the wheel (the [K_LEFT] and
    [K_RIGHT] branches of [PygameEmulator.run]) *)
Definition on_keydown (w : WheelUI) (k : key) : Py.result WheelUI :=
  w <-
    (if key_eqb k K_LEFT then
       i <- Py.imod (target_index w - 1)%Z (num_items w) ;;
       let w := set_target_index w i in
       Py.Ok (set_target_angle w (angle_increment w * of_int (target_index w)))
     else Py.Ok w) ;;
  if key_eqb k K_RIGHT then
    i <- Py.imod (target_index w + 1)%Z (num_items w) ;;
    let w := set_target_index w i in
    Py.Ok (set_target_angle w (angle_increment w * of_int (target_index w)))
  else Py.Ok w.

Fixpoint on_keydowns (w : WheelUI) (ks : list key) : Py.result WheelUI :=
  match ks with
  | [] => Py.Ok w
  | k :: ks' => w <- on_keydown w k ;; on_keydowns w ks'
  end.

(** One frame of the menu, as far as the wheel goes: [draw_menu] calls
    [self.wheel.update()], then the event loop handles the key-downs of the
    frame. *)
Definition menu_frame (w : WheelUI) (ks : list key) : Py.result WheelUI :=
  on_keydowns (update w) ks.

Fixpoint menu_frames (w : WheelUI) (frames : list (list key))
  : Py.result WheelUI :=
  match frames with
  | [] => Py.Ok w
  | ks :: frames' => w <- menu_frame w ks ;; menu_frames w frames'
  end.

(** *** Notions used to state the properties *)

(** The effective angle of an item:
    [(baseAngle + currentAngle) mod 2 pi]. *)
Definition effective_angle (self : WheelUI) (item : WheelItem) : float :=
  rem (angle item + radians (master_angle self)) (2 * pi).

(** The angular distance of an effective angle from the bottom reference
    pi/2, by the shorter of the direct and the wrap-around path:
    [min(diff, 2 pi - diff)] for [diff = |effectiveAngle - pi/2|]. *)
Definition angular_distance (effective_angle : float) : float :=
  let diff := abs (effective_angle - pi / 2) in
  float_min diff (2 * pi - diff).

Definition distance (self : WheelUI) (item : WheelItem) : float :=
  angular_distance (effective_angle self item).

(** The angle that the constructor gives the item [index] when the
    increment is [angle_increment], and when there are [num_items] items:
    [radians(360 / num_items * index + 90)]. *)
Definition item_angle_from (angle_increment : float) (index : Z) : float :=
  radians (angle_increment * of_int index + 90).

Definition item_angle (num_items index : Z) : float :=
  item_angle_from (360 / of_int num_items) index.

(** no item of the group has a NaN for effective angle *)
Definition no_nan_angle (self : WheelUI) (group : list WheelItem) : bool :=
  forallb (fun item => negb (is_nan (effective_angle self item))) group.

(** A catalog of 65 games. *)
Definition games_65 : list string := repeat "game"%string 65.

Definition wheel_65 : WheelUI := fst (WheelUI_init games_65).

(** The frames of a run in the menu: three right presses, twenty frames
    without a key, in which the wheel comes to rest on index 3, then twenty
    left presses that arrive within one frame. *)
Definition turn_back_frames : list (list key) :=
  [[K_RIGHT; K_RIGHT; K_RIGHT]] ++ repeat [] 20 ++ [repeat K_LEFT 20].

(** The wheel of 65 games at rest on index 3, after twenty left presses:
    the target is index 48. *)
Definition wheel_65_turned_back : WheelUI :=
  {| master_index := 3; target_index := 48;
     master_angle := angle_increment wheel_65 * 3;
     target_angle := angle_increment wheel_65 * 48;
     bottom_angle := radians 90;
     items := games_65; num_items := 65;
     angle_increment := angle_increment wheel_65 |}.

(** Four games, the wheel at 135 degrees. *)
Definition four_games_135 : WheelUI :=
  set_master_angle (fst (WheelUI_init ["alpha"; "bravo"; "charlie"; "delta"]%string))
                   135.

Definition four_items : list WheelItem :=
  snd (WheelUI_init ["alpha"; "bravo"; "charlie"; "delta"]%string).

End F64.

(** ** Rounding to binary64: notions used in the proofs *)

Module Round64.

Import Stdlib.Floats.Floats.
Local Open Scope Z_scope.

(** What [k] shifts to the right make of the mantissa [M], and what the
    round and sticky bits say when no bit was lost. *)
Definition shr_inv (M k : Z) (mrs : shr_record) : Prop :=
  shr_m mrs = M / 2 ^ k /\
  (M mod 2 ^ k = 0 -> shr_r mrs = false /\ shr_s mrs = false).

(** The float that [binary_round] builds from the rounded mantissa [m2] at
    the exponent [F]. *)
Definition round_result (s : bool) (m2 F : Z) : spec_float :=
  if m2 =? 2 ^ 53 then
    if F + 1 <=? 971 then S754_finite s (2 ^ 52)%positive (F + 1)
    else S754_infinity s
  else
    match m2 with
    | Z0 => S754_zero s
    | Zpos m => if F <=? 971 then S754_finite s m F else S754_infinity s
    | Zneg _ => S754_nan
    end.

(** [math.pi] and [2 * math.pi] as mantissa and exponent *)
Definition pi_mantissa : positive := 7074237752028440.
Definition SFpi : spec_float := S754_finite false pi_mantissa (-51).
Definition SFtwo_pi : spec_float := S754_finite false pi_mantissa (-50).

End Round64.

(** * Properties *)

(** ** Facts about Python's float modulo *)

Section FmodFacts.

Lemma Qfloor_unique (q : Q) (n : Z) :
  inject_Z n <= q -> q < inject_Z (n + 1) -> Qfloor q = n.
Proof.
  intros Hlo Hhi.
  pose proof (Qfloor_le q) as Hf1.
  pose proof (Qlt_floor q) as Hf2.
  assert (H1 : (Qfloor q < n + 1)%Z).
  { rewrite Zlt_Qlt. eapply Qle_lt_trans; eauto. }
  assert (H2 : (n < Qfloor q + 1)%Z).
  { rewrite Zlt_Qlt. eapply Qle_lt_trans; eauto. }
  lia.
Qed.

#[global] Instance fmod_proper : Proper (Qeq ==> Qeq ==> Qeq) Py.fmod.
Proof.
  intros x y Hxy w v Hwv. unfold Py.fmod.
  assert (Hf : Qfloor (x / w) = Qfloor (y / v)).
  { apply Qfloor_comp. rewrite Hxy, Hwv. reflexivity. }
  rewrite Hf, Hxy, Hwv. reflexivity.
Qed.

Lemma fmod_range (x w : Q) : 0 < w -> 0 <= Py.fmod x w /\ Py.fmod x w < w.
Proof.
  intros Hw. unfold Py.fmod.
  pose proof (Qfloor_le (x / w)) as Hf1.
  pose proof (Qlt_floor (x / w)) as Hf2.
  rewrite inject_Z_plus in Hf2. change (inject_Z 1) with 1 in Hf2.
  set (f := inject_Z (Qfloor (x / w))) in *.
  assert (Hx : x == (x / w) * w) by (field; lra).
  set (q := x / w) in *.
  split.
  - assert (f * w <= q * w) by (apply Qmult_le_compat_r; lra). lra.
  - assert (q * w < (f + 1) * w) by (apply Qmult_lt_compat_r; lra). lra.
Qed.

Lemma fmod_unique (x w r : Q) (k : Z) :
  0 < w -> 0 <= r -> r < w -> x == r + inject_Z k * w -> Py.fmod x w == r.
Proof.
  intros Hw Hr0 Hrw Hx. unfold Py.fmod.
  assert (Hq : x / w == r / w + inject_Z k) by (rewrite Hx; field; lra).
  assert (Hr1 : 0 <= r / w) by (apply Qle_shift_div_l; lra).
  assert (Hr2 : r / w < 1) by (apply Qlt_shift_div_r; lra).
  assert (Hf : Qfloor (x / w) = k).
  { apply Qfloor_unique; rewrite ?inject_Z_plus; rewrite Hq;
    change (inject_Z 1) with 1; lra. }
  rewrite Hf, Hx. ring.
Qed.

Lemma fmod_small (x w : Q) : 0 <= x -> x < w -> Py.fmod x w == x.
Proof.
  intros H0 H1. apply (fmod_unique x w x 0); try lra.
  change (inject_Z 0) with 0. ring.
Qed.

Lemma fmod_decomp (x w : Q) : x == Py.fmod x w + inject_Z (Qfloor (x / w)) * w.
Proof. unfold Py.fmod. ring. Qed.

Lemma fmod_idem (x w : Q) : 0 < w -> Py.fmod (Py.fmod x w) w == Py.fmod x w.
Proof.
  intros Hw. destruct (fmod_range x w Hw). apply fmod_small; assumption.
Qed.

(** two numbers that differ by a multiple of the modulus have the same
    remainder *)
Lemma fmod_congr (x y w : Q) (k : Z) :
  0 < w -> x == y + inject_Z k * w -> Py.fmod x w == Py.fmod y w.
Proof.
  intros Hw Hxy.
  destruct (fmod_range y w Hw) as [H0 H1].
  apply (fmod_unique x w (Py.fmod y w) (k + Qfloor (y / w))); try assumption.
  rewrite inject_Z_plus, Hxy.
  rewrite (fmod_decomp y w) at 1. ring.
Qed.

End FmodFacts.

(** ** Comparisons *)

Section Comparisons.

Lemma gt_true (a b : Q) : Py.gt a b = true <-> b < a.
Proof.
  unfold Py.gt. destruct (Qlt_le_dec b a); split; intros; try easy.
  exfalso. eapply Qlt_not_le; eauto.
Qed.

Lemma gt_false (a b : Q) : Py.gt a b = false <-> a <= b.
Proof.
  unfold Py.gt. destruct (Qlt_le_dec b a); split; intros; try easy.
  exfalso. eapply Qlt_not_le; eauto.
Qed.

Lemma lt_true (a b : Q) : Py.lt a b = true <-> a < b.
Proof.
  unfold Py.lt. destruct (Qlt_le_dec a b); split; intros; try easy.
  exfalso. eapply Qlt_not_le; eauto.
Qed.

Lemma lt_false (a b : Q) : Py.lt a b = false <-> b <= a.
Proof.
  unfold Py.lt. destruct (Qlt_le_dec a b); split; intros; try easy.
  exfalso. eapply Qlt_not_le; eauto.
Qed.

Lemma ge_true (a b : Q) : Py.ge a b = true <-> b <= a.
Proof.
  unfold Py.ge. destruct (Qlt_le_dec a b); split; intros; try easy.
  exfalso. eapply Qlt_not_le; eauto.
Qed.

Lemma ge_false (a b : Q) : Py.ge a b = false <-> a < b.
Proof.
  unfold Py.ge. destruct (Qlt_le_dec a b); split; intros; try easy.
  exfalso. eapply Qlt_not_le; eauto.
Qed.

#[global] Instance gt_proper : Proper (Qeq ==> Qeq ==> eq) Py.gt.
Proof.
  intros a a' Ha b b' Hb.
  destruct (Py.gt a' b') eqn:E.
  - apply gt_true. apply gt_true in E. rewrite Ha, Hb. exact E.
  - apply gt_false. apply gt_false in E. rewrite Ha, Hb. exact E.
Qed.

#[global] Instance lt_proper : Proper (Qeq ==> Qeq ==> eq) Py.lt.
Proof.
  intros a a' Ha b b' Hb.
  destruct (Py.lt a' b') eqn:E.
  - apply lt_true. apply lt_true in E. rewrite Ha, Hb. exact E.
  - apply lt_false. apply lt_false in E. rewrite Ha, Hb. exact E.
Qed.

#[global] Instance abs_proper : Proper (Qeq ==> Qeq) Py.abs.
Proof. intros a b H. unfold Py.abs. rewrite H. reflexivity. Qed.

Lemma abs_cases (x : Q) :
  (0 <= x /\ Py.abs x == x) \/ (x < 0 /\ Py.abs x == - x).
Proof.
  unfold Py.abs. destruct (Qlt_le_dec x 0) as [H | H].
  - right. split; [exact H |]. apply Qabs_neg. lra.
  - left. split; [exact H |]. apply Qabs_pos. exact H.
Qed.

End Comparisons.

(** ** The interpolation step *)

Section Update.

#[global] Instance shortest_delta_proper :
  Proper (Qeq ==> Qeq ==> Qeq) shortest_delta.
Proof.
  intros t t' Ht c c' Hc. unfold shortest_delta.
  assert (E : Py.fmod (t - c) 360 == Py.fmod (t' - c') 360)
    by (rewrite Ht, Hc; reflexivity).
  rewrite (gt_proper _ _ E 180 180 (Qeq_refl _)).
  destruct (Py.gt (Py.fmod (t' - c') 360) 180); rewrite E; reflexivity.
Qed.

Lemma shortest_delta_range (t c : Q) :
  - (180) < shortest_delta t c /\ shortest_delta t c <= 180.
Proof.
  unfold shortest_delta.
  destruct (fmod_range (t - c) 360) as [H0 H1]; [lra |].
  destruct (Py.gt (Py.fmod (t - c) 360) 180) eqn:E.
  - apply gt_true in E. lra.
  - apply gt_false in E. lra.
Qed.

(** normalising the target first does not change the rotation *)
Lemma shortest_delta_fmod_target (t c : Q) :
  shortest_delta (Py.fmod t 360) c == shortest_delta t c.
Proof.
  unfold shortest_delta.
  assert (E : Py.fmod (Py.fmod t 360 - c) 360 == Py.fmod (t - c) 360).
  { apply (fmod_congr _ _ 360 (- Qfloor (t / 360))); [lra |].
    rewrite inject_Z_opp. rewrite (fmod_decomp t 360) at 2. ring. }
  rewrite (gt_proper _ _ E 180 180 (Qeq_refl _)).
  destruct (Py.gt (Py.fmod (t - c) 360) 180); rewrite E; reflexivity.
Qed.

(** [update], field by field *)
Lemma update_target_angle (w : WheelUI) :
  target_angle (update w) = Py.fmod (target_angle w) 360.
Proof.
  unfold update. cbv zeta.
  match goal with |- context [if Py.gt (Py.abs ?d) 1 then _ else _] =>
    destruct (Py.gt (Py.abs d) 1) end; reflexivity.
Qed.

Lemma update_master_angle (w : WheelUI) :
  master_angle (update w) =
  let t := Py.fmod (target_angle w) 360 in
  let d := shortest_delta t (master_angle w) in
  Py.fmod (if Py.gt (Py.abs d) 1 then master_angle w + d * (15 # 100) else t) 360.
Proof.
  unfold update, shortest_delta. cbv zeta.
  cbn [master_angle target_angle set_master_angle set_target_angle
       set_master_index].
  match goal with |- context [if Py.gt (Py.abs ?d) 1 then _ else _] =>
    destruct (Py.gt (Py.abs d) 1) end; reflexivity.
Qed.

Lemma update_other_fields (w : WheelUI) :
  master_index (update w) = target_index w /\
  target_index (update w) = target_index w /\
  bottom_angle (update w) = bottom_angle w /\
  items (update w) = items w /\
  num_items (update w) = num_items w /\
  angle_increment (update w) = angle_increment w.
Proof.
  unfold update. cbv zeta.
  match goal with |- context [if Py.gt (Py.abs ?d) 1 then _ else _] =>
    destruct (Py.gt (Py.abs d) 1) end; repeat split; reflexivity.
Qed.

End Update.

(** ** Convergence of the interpolation *)

Section Convergence.

Lemma shortest_delta_decomp (t c : Q) :
  exists k : Z, t - c == shortest_delta t c + inject_Z k * 360.
Proof.
  unfold shortest_delta.
  pose proof (fmod_decomp (t - c) 360) as D.
  destruct (Py.gt (Py.fmod (t - c) 360) 180).
  - exists (Qfloor ((t - c) / 360) + 1)%Z. rewrite inject_Z_plus.
    change (inject_Z 1) with 1. lra.
  - exists (Qfloor ((t - c) / 360)). lra.
Qed.

Lemma shortest_delta_unique (t c r : Q) (k : Z) :
  - (180) < r -> r <= 180 -> t - c == r + inject_Z k * 360 ->
  shortest_delta t c == r.
Proof.
  intros Hlo Hhi E. unfold shortest_delta.
  destruct (Qlt_le_dec r 0) as [Hneg | Hpos].
  - assert (F : Py.fmod (t - c) 360 == r + 360).
    { apply (fmod_unique _ _ _ (k - 1)); try lra.
      unfold Zminus. rewrite inject_Z_plus, inject_Z_opp.
      change (inject_Z 1) with 1. lra. }
    rewrite (gt_proper _ _ F 180 180 (Qeq_refl _)).
    assert (G : Py.gt (r + 360) 180 = true) by (apply gt_true; lra).
    rewrite G, F. ring.
  - assert (F : Py.fmod (t - c) 360 == r)
      by (apply (fmod_unique _ _ _ k); lra).
    rewrite (gt_proper _ _ F 180 180 (Qeq_refl _)).
    assert (G : Py.gt r 180 = false) by (apply gt_false; lra).
    rewrite G, F. reflexivity.
Qed.

Lemma remaining_range (w : WheelUI) :
  - (180) < remaining w /\ remaining w <= 180.
Proof. apply shortest_delta_range. Qed.

(** a step multiplies the remaining rotation by 17/20, or finishes it *)
Lemma remaining_update (w : WheelUI) :
  remaining (update w) ==
  if Py.gt (Py.abs (remaining w)) 1 then (17 # 20) * remaining w else 0.
Proof.
  unfold remaining at 1.
  rewrite update_target_angle, update_master_angle. cbv zeta.
  fold (remaining w).
  set (T := Py.fmod (target_angle w) 360).
  assert (HT : Py.fmod T 360 == T) by (apply fmod_idem; lra).
  destruct (remaining_range w) as [Hlo Hhi].
  destruct (Py.gt (Py.abs (remaining w)) 1) eqn:G.
  - destruct (shortest_delta_decomp T (master_angle w)) as [k Hk].
    change (shortest_delta T (master_angle w)) with (remaining w) in Hk.
    pose proof (fmod_decomp (master_angle w + remaining w * (15 # 100)) 360) as D.
    set (m := Qfloor ((master_angle w + remaining w * (15 # 100)) / 360)) in *.
    apply (shortest_delta_unique _ _ _ (k + m)); try lra.
    rewrite inject_Z_plus, HT. lra.
  - apply (shortest_delta_unique _ _ _ 0); try lra.
    change (inject_Z 0) with 0. ring.
Qed.

Lemma remaining_update_abs (w : WheelUI) :
  Py.abs (remaining (update w)) <= (17 # 20) * Py.abs (remaining w).
Proof.
  rewrite (abs_proper _ _ (remaining_update w)).
  destruct (Py.gt (Py.abs (remaining w)) 1).
  - unfold Py.abs. rewrite Qabs_Qmult.
    rewrite (Qabs_pos (17 # 20)); [apply Qle_refl | lra].
  - pose proof (Qabs_nonneg (remaining w)). unfold Py.abs at 1.
    change (Qabs 0) with 0. unfold Py.abs. lra.
Qed.

Lemma updates_succ (k : nat) (w : WheelUI) :
  updates (S k) w = update (updates k w).
Proof.
  revert w. induction k as [| k IH]; intros w; [reflexivity |].
  change (updates (S (S k)) w) with (updates (S k) (update w)).
  rewrite IH. reflexivity.
Qed.

Lemma shrink_nonneg (k : nat) : 0 <= shrink k.
Proof. induction k; cbn [shrink]; lra. Qed.

Lemma remaining_updates (k : nat) (w : WheelUI) :
  Py.abs (remaining (updates k w)) <= shrink k * Py.abs (remaining w).
Proof.
  induction k as [| k IH].
  - cbn [updates shrink]. lra.
  - rewrite updates_succ. cbn [shrink].
    pose proof (remaining_update_abs (updates k w)). lra.
Qed.

Lemma shrink_32 : 180 * shrink 32 < 1.
Proof. vm_compute. reflexivity. Qed.

(** a step taken within the threshold lands on the target *)
Lemma update_snap (w : WheelUI) :
  Py.abs (remaining w) <= 1 ->
  master_angle (update w) == Py.fmod (target_angle w) 360.
Proof.
  intros H. rewrite update_master_angle. cbv zeta. fold (remaining w).
  apply gt_false in H. rewrite H. apply fmod_idem. lra.
Qed.

Lemma remaining_at_target (w : WheelUI) :
  master_angle w == Py.fmod (target_angle w) 360 -> remaining w == 0.
Proof.
  intros H. unfold remaining.
  apply (shortest_delta_unique _ _ _ 0); try lra.
  rewrite H. change (inject_Z 0) with 0. ring.
Qed.

Lemma updates_target_angle (k : nat) (w : WheelUI) :
  target_angle (updates (S k) w) == Py.fmod (target_angle w) 360.
Proof.
  induction k as [| k IH].
  - cbn [updates]. rewrite update_target_angle. reflexivity.
  - rewrite updates_succ, update_target_angle, IH. apply fmod_idem. lra.
Qed.

Lemma updates_fmod_target (k : nat) (w : WheelUI) :
  Py.fmod (target_angle (updates k w)) 360 == Py.fmod (target_angle w) 360.
Proof.
  destruct k as [| k]; [reflexivity |].
  rewrite updates_target_angle. apply fmod_idem. lra.
Qed.

Lemma updates_converged (j : nat) (w : WheelUI) :
  master_angle (updates (33 + j) w) == Py.fmod (target_angle w) 360.
Proof.
  induction j as [| j IH].
  - change (33 + 0)%nat with (S 32). rewrite updates_succ.
    rewrite update_snap; [apply updates_fmod_target |].
    pose proof (remaining_updates 32 w) as H.
    pose proof shrink_32 as S32.
    destruct (remaining_range w) as [Hlo Hhi].
    assert (Py.abs (remaining w) <= 180).
    { destruct (abs_cases (remaining w)) as [[? E] | [? E]]; rewrite E; lra. }
    pose proof (shrink_nonneg 32).
    set (s := shrink 32) in *. set (a := Py.abs (remaining w)) in *.
    assert (s * a <= s * 180) by nra. lra.
  - replace (33 + S j)%nat with (S (33 + j)) by lia.
    rewrite updates_succ. rewrite update_snap; [apply updates_fmod_target |].
    assert (E : remaining (updates (33 + j) w) == 0).
    { apply remaining_at_target. rewrite IH. symmetry. apply updates_fmod_target. }
    rewrite (abs_proper _ _ E). unfold Py.abs. change (Qabs 0) with 0. lra.
Qed.

Lemma remaining_small (j : nat) (w : WheelUI) :
  Py.abs (remaining (updates (32 + j) w)) <= 1.
Proof.
  destruct j as [| j].
  - pose proof (remaining_updates 32 w) as H.
    pose proof shrink_32 as S32.
    destruct (remaining_range w) as [Hlo Hhi].
    assert (Py.abs (remaining w) <= 180).
    { destruct (abs_cases (remaining w)) as [[? E] | [? E]]; rewrite E; lra. }
    pose proof (shrink_nonneg 32).
    change (32 + 0)%nat with 32%nat.
    set (s := shrink 32) in *. set (a := Py.abs (remaining w)) in *.
    assert (s * a <= s * 180) by nra. lra.
  - replace (32 + S j)%nat with (33 + j)%nat by lia.
    assert (E : remaining (updates (33 + j) w) == 0).
    { apply remaining_at_target. rewrite updates_converged.
      symmetry. apply updates_fmod_target. }
    rewrite (abs_proper _ _ E). unfold Py.abs. change (Qabs 0) with 0. lra.
Qed.

(** within the threshold the new current angle is the stored target angle
    itself, passed through the final [% 360] *)
Lemma update_snap_assign (w : WheelUI) :
  Py.abs (remaining w) <= 1 ->
  master_angle (update w) = Py.fmod (target_angle (update w)) 360.
Proof.
  intros H. rewrite update_master_angle, update_target_angle. cbv zeta.
  fold (remaining w). apply gt_false in H. rewrite H. reflexivity.
Qed.

(** C2. From every current angle in [0, 360) and for every target angle,
    repeated calls of [WheelUI.update] reach the target angle within 33
    calls and stay on it: from then on the current angle is the target
    angle itself (assigned, not approached).  Until then every call
    multiplies the remaining rotation by 17/20, so it keeps its sign and
    never passes the target. *)
Theorem update_converges (w : WheelUI) :
  0 <= master_angle w -> master_angle w < 360 ->
  (forall j : nat, (33 <= j)%nat ->
     master_angle (updates j w) = Py.fmod (target_angle (updates j w)) 360 /\
     master_angle (updates j w) == target_angle (updates j w) /\
     target_angle (updates j w) == Py.fmod (target_angle w) 360) /\
  (forall k : nat,
     remaining (updates (S k) w) ==
     if Py.gt (Py.abs (remaining (updates k w))) 1
     then (17 # 20) * remaining (updates k w) else 0).
Proof.
  intros _ _. split.
  - intros j Hj.
    replace j with (33 + (j - 33))%nat by lia.
    assert (T : target_angle (updates (33 + (j - 33)) w)
                == Py.fmod (target_angle w) 360)
      by (change (33 + (j - 33))%nat with (S (32 + (j - 33)));
          apply updates_target_angle).
    split; [| split; [| exact T]].
    + change (33 + (j - 33))%nat with (S (32 + (j - 33))).
      rewrite updates_succ. apply update_snap_assign. apply remaining_small.
    + rewrite T. apply updates_converged.
  - intros k. rewrite updates_succ. apply remaining_update.
Qed.

(** the spec's scenario: four items, target index 1, from 0 degrees the
    current angle settles on 90 *)
Lemma update_converges_witness :
  master_angle (updates 33 right_pressed_wheel) == 90 /\
  target_angle (updates 33 right_pressed_wheel) == 90.
Proof.
  assert (H0 : 0 <= master_angle right_pressed_wheel)
    by (vm_compute; discriminate).
  assert (H1 : master_angle right_pressed_wheel < 360) by reflexivity.
  destruct (proj1 (update_converges right_pressed_wheel H0 H1) 33%nat (le_n 33))
    as (_ & A & B).
  assert (T : Py.fmod (target_angle right_pressed_wheel) 360 == 90)
    by reflexivity.
  split.
  - exact (Qeq_trans _ _ _ A (Qeq_trans _ _ _ B T)).
  - exact (Qeq_trans _ _ _ B T).
Defined.

End Convergence.

(** ** Key handling *)

Section Keys.

(** a left or right press in the menu, on a wheel that has items *)
Lemma on_keydown_left_right (e : PygameEmulator) (k : key) :
  startup e = false -> num_items (wheel e) <> 0%Z ->
  k = K_LEFT \/ k = K_RIGHT ->
  let w := wheel e in
  let i := ((target_index w + net_steps [k]) mod num_items w)%Z in
  on_keydown e k =
  Py.Ok (set_wheel e
           (set_target_angle (set_target_index w i)
                             (angle_increment w * inject_Z i))).
Proof.
  intros Hs Hn Hk. cbv zeta. unfold on_keydown, Py.imod. rewrite Hs.
  apply Z.eqb_neq in Hn.
  destruct Hk as [-> | ->]; cbn [negb key_eqb Py.bind net_steps];
    cbn [wheel set_wheel]; rewrite Hn; cbn [Py.bind];
    reflexivity.
Qed.

Lemma on_keydowns_left_right (ks : list key) :
  forall e : PygameEmulator,
  startup e = false -> (0 < num_items (wheel e))%Z ->
  Forall (fun k => k = K_LEFT \/ k = K_RIGHT) ks ->
  exists e',
    on_keydowns e ks = Py.Ok e' /\
    startup e' = false /\
    num_items (wheel e') = num_items (wheel e) /\
    angle_increment (wheel e') = angle_increment (wheel e) /\
    (target_index (wheel e') mod num_items (wheel e) =
     (target_index (wheel e) + net_steps ks) mod num_items (wheel e))%Z /\
    (ks <> [] ->
     (0 <= target_index (wheel e') < num_items (wheel e))%Z /\
     target_angle (wheel e') ==
       angle_increment (wheel e) * inject_Z (target_index (wheel e'))).
Proof.
  induction ks as [| k ks IH]; intros e Hs Hn Hks.
  - exists e. cbn [on_keydowns net_steps]. rewrite Z.add_0_r.
    repeat split; try reflexivity; congruence.
  - inversion Hks as [| ? ? Hk Hks']; subst.
    cbn [on_keydowns].
    rewrite (on_keydown_left_right e k Hs) by (assumption || lia).
    cbv zeta. cbn [Py.bind].
    set (i := ((target_index (wheel e) + net_steps [k]) mod num_items (wheel e))%Z).
    set (e1 := set_wheel e _).
    destruct (IH e1) as (e' & Hrun & Hs' & Hn' & Hinc' & Hidx & Hang);
      [exact Hs | exact Hn | exact Hks' |].
    change (num_items (wheel e1)) with (num_items (wheel e)) in *.
    change (angle_increment (wheel e1)) with (angle_increment (wheel e)) in *.
    change (target_index (wheel e1)) with i in *.
    exists e'. split; [exact Hrun |].
    split; [exact Hs' |]. split; [exact Hn' |]. split; [exact Hinc' |].
    assert (Hnet : (net_steps (k :: ks) = net_steps [k] + net_steps ks)%Z)
      by (destruct Hk as [-> | ->]; cbn [net_steps]; lia).
    split.
    + rewrite Hidx. subst i. rewrite Hnet.
      rewrite Z.add_mod_idemp_l by lia. f_equal. lia.
    + intros _. destruct ks as [| k' ks'].
      * cbn [on_keydowns] in Hrun. inversion Hrun; subst e'.
        cbn. split; [apply Z.mod_pos_bound; lia | reflexivity].
      * apply Hang. discriminate.
Qed.

(** C4. In the menu, with at least one item, every run of left/right
    presses leaves targetIndex in [0, itemCount), equal to the start index
    plus the net number of right presses modulo itemCount, and leaves
    targetAngle = angleIncrement * targetIndex. *)
Theorem keydown_normalises_target (e : PygameEmulator) (ks : list key) :
  let n := num_items (wheel e) in
  startup e = false -> (0 < n)%Z ->
  (0 <= target_index (wheel e) < n)%Z ->
  ks <> [] -> Forall (fun k => k = K_LEFT \/ k = K_RIGHT) ks ->
  exists e',
    on_keydowns e ks = Py.Ok e' /\
    (0 <= target_index (wheel e') < n)%Z /\
    target_index (wheel e') = ((target_index (wheel e) + net_steps ks) mod n)%Z /\
    target_angle (wheel e') ==
      angle_increment (wheel e') * inject_Z (target_index (wheel e')).
Proof.
  cbv zeta. intros Hs Hn Hti Hne Hks.
  destruct (on_keydowns_left_right ks e Hs Hn Hks)
    as (e' & Hrun & _ & _ & Hinc & Hidx & Hang).
  destruct (Hang Hne) as [Hrange Hangle].
  exists e'. split; [exact Hrun |]. split; [exact Hrange |].
  split.
  - rewrite <- Hidx. symmetry. apply Z.mod_small. exact Hrange.
  - rewrite Hinc. exact Hangle.
Qed.

(** the spec's scenario: five steps right on four items end on index 1 *)
Lemma keydown_normalises_target_witness :
  exists e',
    on_keydowns four_games_menu [K_RIGHT; K_RIGHT; K_RIGHT; K_RIGHT; K_RIGHT]
      = Py.Ok e' /\
    (0 <= target_index (wheel e') < 4)%Z /\
    target_index (wheel e') = ((0 + 5) mod 4)%Z /\
    target_angle (wheel e') ==
      angle_increment (wheel e') * inject_Z (target_index (wheel e')).
Proof.
  apply (keydown_normalises_target four_games_menu
           [K_RIGHT; K_RIGHT; K_RIGHT; K_RIGHT; K_RIGHT]).
  - reflexivity.
  - reflexivity.
  - cbn. lia.
  - discriminate.
  - repeat constructor; right; reflexivity.
Defined.

(** C5 (the code at the failing input).  With no games the constructor
    guards its division ([angle_increment] is 0), but the first menu frame
    and the left and right keys divide by zero: [ZeroDivisionError] leaves
    [draw_menu] and the key handling. *)
Theorem zero_items_unguarded_modulo :
  num_items (wheel no_games_menu) = 0%Z /\
  angle_increment (wheel no_games_menu) = 0 /\
  draw_menu no_games_menu [] = Py.Raise Py.ZeroDivisionError /\
  on_keydown no_games_menu K_LEFT = Py.Raise Py.ZeroDivisionError /\
  on_keydown no_games_menu K_RIGHT = Py.Raise Py.ZeroDivisionError.
Proof. repeat split; reflexivity. Qed.

End Keys.

(** ** The power button *)

Section PowerButton.

Lemma button_presses_cons (m : PowerButtonMonitor) (q : list event)
  (t : Q) (ts : list Q) :
  button_presses m q (t :: ts) =
  button_presses (fst (_handle_button_press m q t))
                 (snd (_handle_button_press m q t)) ts.
Proof.
  unfold button_presses. cbn [fold_left fst snd].
  destruct (_handle_button_press m q t). reflexivity.
Qed.

Lemma handle_button_press_cases (m : PowerButtonMonitor) (q : list event) (t : Q) :
  _handle_button_press m q t =
  if Qlt_le_dec (t - last_time m) (debounce_time m)
  then (m, q)
  else (mkMonitor (debounce_time m) t, (q ++ [QUIT])%list).
Proof.
  unfold _handle_button_press, Py.ge.
  destruct (Qlt_le_dec (t - last_time m) (debounce_time m)); reflexivity.
Qed.

Lemma last_cons_default {A} (l : list A) (a d : A) :
  last (a :: l) d = last l a.
Proof.
  revert a d. induction l as [| b l IH]; intros a d; [reflexivity |].
  change (last (a :: b :: l) d) with (last (b :: l) d).
  rewrite (IH b d), (IH b a). reflexivity.
Qed.

Lemma button_presses_accepted (ts : list Q) :
  forall (m : PowerButtonMonitor) (q : list event),
  snd (button_presses m q ts) =
  (q ++ map (fun _ => QUIT)
            (accepted_presses (debounce_time m) (last_time m) ts))%list /\
  last_time (fst (button_presses m q ts)) =
  last (accepted_presses (debounce_time m) (last_time m) ts) (last_time m) /\
  debounce_time (fst (button_presses m q ts)) = debounce_time m.
Proof.
  induction ts as [| t ts IH]; intros m q.
  - cbn. rewrite app_nil_r. repeat split; reflexivity.
  - rewrite button_presses_cons, handle_button_press_cases.
    cbn [accepted_presses].
    destruct (Qlt_le_dec (t - last_time m) (debounce_time m)) as [Hin | Hout];
      cbn [fst snd].
    + apply IH.
    + destruct (IH (mkMonitor (debounce_time m) t) (q ++ [QUIT])%list)
        as (Hq & Hl & Hd).
      cbn [debounce_time last_time] in Hq, Hl, Hd.
      split; [| split].
      * rewrite Hq, <- app_assoc. reflexivity.
      * rewrite Hl, last_cons_default. reflexivity.
      * exact Hd.
Qed.

(** C8. The monitor queues one quit event for exactly the presses that come
    at least the debounce window (0.2 s by default) after the previously
    accepted press and drops the others; two presses within the window
    queue one quit event. *)
Theorem power_button_debounce (m : PowerButtonMonitor) (q : list event)
  (ts : list Q) (t1 t2 : Q) :
  debounce_time (PowerButtonMonitor_init None) == 2 # 10 /\
  snd (button_presses m q ts) =
    (q ++ map (fun _ => QUIT)
              (accepted_presses (debounce_time m) (last_time m) ts))%list /\
  (debounce_time m <= t1 - last_time m ->
   t2 - t1 < debounce_time m ->
   snd (button_presses m q [t1; t2]) = (q ++ [QUIT])%list).
Proof.
  split; [reflexivity |].
  split; [apply button_presses_accepted |].
  intros H1 H2.
  destruct (button_presses_accepted [t1; t2] m q) as [E _]. rewrite E.
  cbn [accepted_presses].
  destruct (Qlt_le_dec (t1 - last_time m) (debounce_time m)) as [A | A].
  - exfalso. eapply Qlt_not_le; eauto.
  - destruct (Qlt_le_dec (t2 - t1) (debounce_time m)) as [B | B].
    + reflexivity.
    + exfalso. eapply Qlt_not_le; eauto.
Qed.

(** two presses 50 ms apart, the first one second after start *)
Lemma power_button_debounce_witness :
  snd (button_presses (PowerButtonMonitor_init None) [] [1; 105 # 100])
  = [QUIT].
Proof.
  refine (proj2 (proj2 (power_button_debounce (PowerButtonMonitor_init None)
                          [] [] 1 (105 # 100))) _ _).
  - cbn. unfold Qle. cbn. lia.
  - cbn. unfold Qlt. cbn. lia.
Defined.

End PowerButton.

(** ** The bottom item *)

Section BottomItem.

Lemma pi_pos : 0 < Py.pi.
Proof. reflexivity. Qed.

Lemma radians_90 : Py.radians 90 == Py.pi / 2.
Proof. unfold Py.radians. field. Qed.

Lemma effective_angle_range (w : WheelUI) (item : WheelItem) :
  0 <= effective_angle w item /\ effective_angle w item < 2 * Py.pi.
Proof. apply fmod_range. pose proof pi_pos. lra. Qed.

Lemma bottom_diff_unfold (w : WheelUI) (item : WheelItem) :
  bottom_diff w item =
  let diff := Py.abs (effective_angle w item - bottom_angle w) in
  if Py.gt diff Py.pi then 2 * Py.pi - diff else diff.
Proof. reflexivity. Qed.

Lemma bottom_diff_range (w : WheelUI) (item : WheelItem) :
  bottom_angle w == Py.radians 90 ->
  0 <= bottom_diff w item /\ bottom_diff w item <= Py.pi.
Proof.
  intros Hb. rewrite bottom_diff_unfold. cbv zeta.
  pose proof pi_pos as Hpi.
  destruct (effective_angle_range w item) as [H0 H1].
  assert (Hb' : 2 * bottom_angle w == Py.pi)
    by (rewrite Hb, radians_90; field).
  set (a := effective_angle w item) in *.
  set (pi := Py.pi) in *.
  destruct (abs_cases (a - bottom_angle w)) as [[Hs E] | [Hs E]];
    destruct (Py.gt (Py.abs (a - bottom_angle w)) pi) eqn:G;
    [apply gt_true in G | apply gt_false in G
    | apply gt_true in G | apply gt_false in G];
    cbv iota; rewrite E in *; lra.
Qed.

Lemma bottom_diff_min (w : WheelUI) (item : WheelItem) :
  let diff := Py.abs (effective_angle w item - bottom_angle w) in
  bottom_diff w item == Qmin diff (2 * Py.pi - diff).
Proof.
  cbv zeta. rewrite bottom_diff_unfold. cbv zeta.
  set (d := Py.abs (effective_angle w item - bottom_angle w)).
  set (pi := Py.pi).
  destruct (Py.gt d pi) eqn:G.
  - apply gt_true in G. rewrite Q.min_r; [reflexivity | lra].
  - apply gt_false in G. rewrite Q.min_l; [reflexivity | lra].
Qed.

(** C7. The distance that [get_bottom_item] computes for an item, from its
    effective angle to the bottom reference pi/2 by the shorter of the
    direct and the wrap-around path, is at most pi. *)
Theorem bottom_distance_at_most_pi (w : WheelUI) (item : WheelItem) :
  bottom_angle w == Py.radians 90 ->
  let diff := Py.abs (effective_angle w item - Py.pi / 2) in
  bottom_diff w item == Qmin diff (2 * Py.pi - diff) /\
  0 <= bottom_diff w item /\ bottom_diff w item <= Py.pi.
Proof.
  intros Hb. cbv zeta. split; [| apply bottom_diff_range; exact Hb].
  rewrite (bottom_diff_min w item). cbv zeta.
  assert (E : Py.abs (effective_angle w item - bottom_angle w)
              == Py.abs (effective_angle w item - Py.pi / 2)).
  { apply abs_proper. rewrite Hb, radians_90. reflexivity. }
  rewrite E. reflexivity.
Qed.

Lemma bottom_distance_at_most_pi_witness :
  let w := update (wheel four_games_menu) in
  let item := WheelItem_init 2 (100, 100)%Z (Py.radians 270) in
  let diff := Py.abs (effective_angle w item - Py.pi / 2) in
  bottom_diff w item == Qmin diff (2 * Py.pi - diff) /\
  0 <= bottom_diff w item /\ bottom_diff w item <= Py.pi.
Proof.
  apply (bottom_distance_at_most_pi (update (wheel four_games_menu))).
  reflexivity.
Defined.

(** the loop keeps the first item of least distance *)
Lemma bottom_fold (w : WheelUI) (rest : list WheelItem) :
  forall (pre : list WheelItem) (x : WheelItem) (post : list WheelItem),
  Forall (fun y => bottom_diff w x < bottom_diff w y) pre ->
  Forall (fun y => bottom_diff w x <= bottom_diff w y) post ->
  exists pre' x' post',
    (pre ++ x :: post ++ rest)%list = (pre' ++ x' :: post')%list /\
    fold_left (bottom_step w) rest (Some x, Some (bottom_diff w x))
      = (Some x', Some (bottom_diff w x')) /\
    Forall (fun y => bottom_diff w x' < bottom_diff w y) pre' /\
    Forall (fun y => bottom_diff w x' <= bottom_diff w y) post'.
Proof.
  induction rest as [| y rest IH]; intros pre x post Hpre Hpost.
  - exists pre, x, post. rewrite app_nil_r. repeat split; assumption.
  - cbn [fold_left]. unfold bottom_step at 2. cbn [snd lt_min].
    destruct (Py.lt (bottom_diff w y) (bottom_diff w x)) eqn:L.
    + apply lt_true in L.
      destruct (IH (pre ++ x :: post)%list y [])
        as (pre' & x' & post' & E & F & P1 & P2).
      * apply Forall_app. split.
        -- eapply Forall_impl; [| exact Hpre]. cbv beta. intros; lra.
        -- constructor; [exact L |].
           eapply Forall_impl; [| exact Hpost]. cbv beta. intros; lra.
      * constructor.
      * exists pre', x', post'. split; [| auto].
        rewrite <- E. rewrite <- app_assoc. cbn [app]. reflexivity.
    + apply lt_false in L.
      destruct (IH pre x (post ++ [y])%list Hpre)
        as (pre' & x' & post' & E & F & P1 & P2).
      * apply Forall_app. split; [exact Hpost |]. constructor; [exact L | constructor].
      * exists pre', x', post'. split; [| auto].
        rewrite <- E. rewrite <- app_assoc. reflexivity.
Qed.

Lemma get_bottom_item_first_min (w : WheelUI) (item : WheelItem)
  (group : list WheelItem) :
  exists pre x post,
    (item :: group) = (pre ++ x :: post)%list /\
    get_bottom_item w (item :: group) = Some x /\
    Forall (fun y => bottom_diff w x < bottom_diff w y) pre /\
    Forall (fun y => bottom_diff w x <= bottom_diff w y) post.
Proof.
  unfold get_bottom_item. cbn [fold_left].
  unfold bottom_step at 2. cbn [snd lt_min].
  destruct (bottom_fold w group [] item [])
    as (pre' & x' & post' & E & F & P1 & P2); try constructor.
  exists pre', x', post'. rewrite F. cbn [fst].
  repeat split; assumption.
Qed.

End BottomItem.

(** ** The bottom item of a wheel at rest *)

Section AtRest.

Lemma make_wheel_items_In (inc : Q) (imgs : list (Z * Z)) :
  forall (start : Z) (x : WheelItem),
  In x (make_wheel_items inc start imgs) ->
  (start <= index x < start + Z.of_nat (List.length imgs))%Z /\
  angle x = Py.radians (inc * inject_Z (index x) + 90).
Proof.
  induction imgs as [| img imgs IH]; intros start x Hin; [destruct Hin |].
  cbn [make_wheel_items] in Hin. destruct Hin as [<- | Hin].
  - cbn [index angle WheelItem_init List.length]. split; [lia | reflexivity].
  - destruct (IH _ _ Hin) as [Hr Ha]. cbn [List.length]. split; [lia | exact Ha].
Qed.

Lemma make_wheel_items_has (inc : Q) (imgs : list (Z * Z)) :
  forall (start j : Z),
  (start <= j < start + Z.of_nat (List.length imgs))%Z ->
  exists x, In x (make_wheel_items inc start imgs) /\ index x = j.
Proof.
  induction imgs as [| img imgs IH]; intros start j Hj;
    [cbn [List.length] in Hj; lia |].
  cbn [make_wheel_items].
  destruct (Z.eq_dec j start) as [-> | Hne].
  - eexists. split; [left; reflexivity | reflexivity].
  - destruct (IH (start + 1)%Z j) as [x [Hin Hx]];
      [cbn [List.length] in Hj; lia |].
    exists x. split; [right; exact Hin | exact Hx].
Qed.

(** the sum of angles that [get_bottom_item] reduces modulo 2 pi, for the
    item [j] of [n] when the wheel rests on index [t] *)
Lemma rest_angle_sum (n j t : Z) (m a : Q) :
  (0 < n)%Z ->
  m == 360 / inject_Z n * inject_Z t ->
  a = Py.radians (360 / inject_Z n * inject_Z j + 90) ->
  a + Py.radians m ==
  Py.pi * (1 # 2) + inject_Z (j + t) / inject_Z n * (2 * Py.pi).
Proof.
  intros Hn Hm ->. unfold Py.radians. rewrite Hm, inject_Z_plus.
  assert (~ inject_Z n == 0).
  { change 0 with (inject_Z 0). rewrite inject_Z_injective. lia. }
  field. assumption.
Qed.

Lemma bottom_diff_zero_iff (w : WheelUI) (x : WheelItem) (n j t : Z) :
  (0 < n)%Z ->
  bottom_angle w == Py.radians 90 ->
  angle x + Py.radians (master_angle w) ==
    Py.pi * (1 # 2) + inject_Z (j + t) / inject_Z n * (2 * Py.pi) ->
  bottom_diff w x == 0 <-> ((j + t) mod n = 0)%Z.
Proof.
  intros Hn Hb Hsum.
  pose proof pi_pos as Hpi.
  assert (HN : 0 < inject_Z n)
    by (change 0 with (inject_Z 0); rewrite <- Zlt_Qlt; exact Hn).
  assert (Hb' : 2 * bottom_angle w == Py.pi)
    by (rewrite Hb, radians_90; field).
  rewrite bottom_diff_unfold. cbv zeta.
  destruct (effective_angle_range w x) as [H0 H1].
  split.
  - intros Hz.
    assert (Ha : effective_angle w x == Py.pi * (1 # 2)).
    { set (a := effective_angle w x) in *. set (pi := Py.pi) in *.
      destruct (abs_cases (a - bottom_angle w)) as [[Hs E] | [Hs E]];
        destruct (Py.gt (Py.abs (a - bottom_angle w)) pi) eqn:G;
        [apply gt_true in G | apply gt_false in G
        | apply gt_true in G | apply gt_false in G];
        cbv iota in Hz; rewrite E in *; lra. }
    pose proof (fmod_decomp (angle x + Py.radians (master_angle w)) (2 * Py.pi)) as D.
    fold (effective_angle w x) in D.
    set (k := Qfloor ((angle x + Py.radians (master_angle w)) / (2 * Py.pi))) in *.
    rewrite Hsum, Ha in D.
    assert (Hq : inject_Z (j + t) / inject_Z n == inject_Z k).
    { apply (Qmult_inj_r _ _ (2 * Py.pi)); [lra |].
      set (q := inject_Z (j + t) / inject_Z n) in *. lra. }
    assert (Hjt : inject_Z (j + t) == inject_Z (k * n)).
    { rewrite inject_Z_mult, <- Hq. field. lra. }
    rewrite (proj1 (inject_Z_injective _ _) Hjt). apply Z.mod_mul. lia.
  - intros Hmod.
    apply Z.mod_divide in Hmod; [| lia]. destruct Hmod as [k Hk].
    assert (Ha : effective_angle w x == Py.pi * (1 # 2)).
    { unfold effective_angle. apply (fmod_unique _ _ _ k); try lra.
      rewrite Hsum, Hk, inject_Z_mult. field. lra. }
    assert (E : Py.abs (effective_angle w x - bottom_angle w) == 0).
    { assert (E0 : effective_angle w x - bottom_angle w == 0) by lra.
      rewrite (abs_proper _ _ E0). reflexivity. }
    rewrite (gt_proper _ _ E Py.pi Py.pi (Qeq_refl _)).
    assert (G : Py.gt 0 Py.pi = false) by (apply gt_false; lra).
    rewrite G. exact E.
Qed.

(** on indices in range the reflection is the one opposite index *)
Lemma reflection_unique (n j t : Z) :
  (0 <= j < n)%Z -> (0 <= t < n)%Z ->
  ((j + t) mod n = 0)%Z <-> j = reflection_index n t.
Proof.
  intros Hj Ht. unfold reflection_index.
  replace (n - 1 - t + 1)%Z with (n - t)%Z by lia.
  destruct (Z.eq_dec t 0) as [-> | Hne].
  - rewrite Z.add_0_r, Z.sub_0_r, Z_mod_same_full.
    rewrite Z.mod_small by lia. reflexivity.
  - rewrite (Z.mod_small (n - t)) by lia.
    split.
    + intros H. apply Z.mod_divide in H; [| lia]. destruct H as [k Hk].
      assert (k = 1)%Z by nia. subst k. lia.
    + intros ->. replace (n - t + t)%Z with n by lia. apply Z_mod_same_full.
Qed.

Lemma reflection_index_range (n t : Z) :
  (0 < n)%Z -> (0 <= reflection_index n t < n)%Z.
Proof. intros. apply Z.mod_pos_bound. assumption. Qed.

(** the index that [draw_menu] computes is the reflection *)
Lemma selected_index_reflection (n t : Z) :
  (0 <= t < n)%Z ->
  ((Z.abs (n - 1 - t) + 1) mod n)%Z = reflection_index n t.
Proof.
  intros Ht. unfold reflection_index. rewrite Z.abs_eq by lia. reflexivity.
Qed.

Lemma bottom_item_at_rest (imgs : list (Z * Z)) (w : WheelUI) (t : Z) :
  let n := Z.of_nat (List.length imgs) in
  (0 <= t < n)%Z ->
  bottom_angle w == Py.radians 90 ->
  master_angle w == 360 / inject_Z n * inject_Z t ->
  exists x,
    get_bottom_item w (make_wheel_items (360 / inject_Z n) 0 imgs) = Some x /\
    index x = reflection_index n t.
Proof.
  cbv zeta. set (n := Z.of_nat (List.length imgs)).
  intros Ht Hb Hm.
  assert (Hn : (0 < n)%Z) by lia.
  set (group := make_wheel_items (360 / inject_Z n) 0 imgs).
  assert (Hzero : forall y, In y group ->
            bottom_diff w y == 0 <-> index y = reflection_index n t).
  { intros y Hy. destruct (make_wheel_items_In _ _ _ _ Hy) as [Hr Ha].
    rewrite (bottom_diff_zero_iff w y n (index y) t Hn Hb).
    - apply reflection_unique; [fold n in Hr; lia | exact Ht].
    - apply rest_angle_sum; assumption. }
  destruct (make_wheel_items_has (360 / inject_Z n) imgs 0 (reflection_index n t))
    as [best [Hbest Hidx]].
  { pose proof (reflection_index_range n t Hn). fold n. lia. }
  fold group in Hbest.
  assert (Hbest0 : bottom_diff w best == 0) by (apply Hzero; assumption).
  destruct group as [| item rest] eqn:Eg; [destruct Hbest |].
  destruct (get_bottom_item_first_min w item rest)
    as (pre & x & post & E & G & P1 & P2).
  exists x. split; [exact G |].
  assert (Hx : In x (item :: rest))
    by (rewrite E; apply in_or_app; right; left; reflexivity).
  apply Hzero; [exact Hx |].
  destruct (bottom_diff_range w x Hb) as [Hx0 _].
  assert (Hle : bottom_diff w x <= bottom_diff w best).
  { rewrite E in Hbest. apply in_app_or in Hbest.
    destruct Hbest as [Hin | [<- | Hin]].
    - rewrite Forall_forall in P1. apply Qlt_le_weak. apply P1. exact Hin.
    - apply Qle_refl.
    - rewrite Forall_forall in P2. apply P2. exact Hin. }
  lra.
Qed.

End AtRest.

(** ** The menu frame of a wheel at rest *)

Section MenuAtRest.

Lemma getitem_ok {A} (xs : list A) (i : Z) :
  (0 <= i < Z.of_nat (List.length xs))%Z -> exists x, Py.getitem xs i = Py.Ok x.
Proof.
  intros Hi. unfold Py.getitem.
  destruct (Z.ltb_spec i 0) as [? | _]; [lia |].
  destruct (Z.ltb_spec i 0) as [? | _]; [lia |].
  destruct (Z.leb_spec (Z.of_nat (List.length xs)) i) as [? | _]; [lia |].
  cbn [orb].
  destruct (nth_error xs (Z.to_nat i)) as [x |] eqn:E; [exists x; reflexivity |].
  apply nth_error_None in E. lia.
Qed.

Lemma draw_menu_ok (e : PygameEmulator) (group : list WheelItem) :
  let len := Z.of_nat (List.length (games e)) in
  let w := update (wheel e) in
  (0 < len)%Z ->
  draw_menu e group =
  Py.Ok (set_selected_index (set_wheel e w)
           ((Z.abs (len - 1 - target_index (wheel e)) + 1) mod len)%Z,
         map (fun sprite => draw sprite w group) group).
Proof.
  cbv zeta. intros Hlen. unfold draw_menu.
  cbn [games set_wheel set_selected_index selected_index wheel].
  destruct (update_other_fields (wheel e)) as [Hmi _]. rewrite Hmi.
  set (len := Z.of_nat (List.length (games e))) in *.
  set (i := (Z.abs (len - 1 - target_index (wheel e)) + 1)%Z).
  unfold Py.imod. destruct (Z.eqb_spec len 0) as [? | _]; [lia |].
  cbn [Py.bind games set_selected_index selected_index wheel].
  destruct (getitem_ok (games e) (i mod len)%Z) as [x Hx].
  { fold len. apply Z.mod_pos_bound. exact Hlen. }
  rewrite Hx. reflexivity.
Qed.

Lemma rest_angle_range (n t : Z) :
  (0 <= t < n)%Z ->
  0 <= 360 / inject_Z n * inject_Z t /\ 360 / inject_Z n * inject_Z t < 360.
Proof.
  intros Ht.
  assert (HN : 0 < inject_Z n)
    by (change 0 with (inject_Z 0); rewrite <- Zlt_Qlt; lia).
  assert (HT0 : 0 <= inject_Z t)
    by (change 0 with (inject_Z 0); rewrite <- Zle_Qle; lia).
  assert (HT1 : inject_Z t < inject_Z n) by (rewrite <- Zlt_Qlt; lia).
  assert (E : 360 / inject_Z n * inject_Z t == 360 * (inject_Z t / inject_Z n))
    by (field; lra).
  assert (Q0 : 0 <= inject_Z t / inject_Z n)
    by (apply Qle_shift_div_l; lra).
  assert (Q1 : inject_Z t / inject_Z n < 1)
    by (apply Qlt_shift_div_r; lra).
  rewrite E. lra.
Qed.

Lemma update_at_rest (w : WheelUI) :
  0 <= target_angle w -> target_angle w < 360 ->
  master_angle w == target_angle w ->
  master_angle (update w) == target_angle w.
Proof.
  intros H0 H1 Hm.
  assert (HT : Py.fmod (target_angle w) 360 == target_angle w)
    by (apply fmod_small; assumption).
  rewrite update_snap; [exact HT |].
  assert (E : remaining w == 0)
    by (apply remaining_at_target; rewrite HT; exact Hm).
  rewrite (abs_proper _ _ E). unfold Py.abs. change (Qabs 0) with 0. lra.
Qed.

(** C3. Once the wheel has come to rest on a target index (currentAngle
    equal to angleIncrement * targetIndex), the item that
    [get_bottom_item] returns has the catalog index that [draw_menu]
    selects, (abs(itemCount - 1 - targetIndex) + 1) mod itemCount, which
    is the reflection (itemCount - 1 - targetIndex + 1) mod itemCount. *)
Theorem bottom_item_is_selected_index (entries : list (string * (Z * Z)))
  (e : PygameEmulator) (t : Z) :
  let n := Z.of_nat (List.length entries) in
  let group := snd (PygameEmulator_init entries) in
  (0 < n)%Z -> (0 <= t < n)%Z ->
  games e = map fst entries ->
  bottom_angle (wheel e) == Py.radians 90 ->
  angle_increment (wheel e) == 360 / inject_Z n ->
  target_index (wheel e) = t ->
  target_angle (wheel e) == angle_increment (wheel e) * inject_Z t ->
  master_angle (wheel e) == target_angle (wheel e) ->
  exists e' group' item,
    draw_menu e group = Py.Ok (e', group') /\
    get_bottom_item (wheel e') group = Some item /\
    index item = selected_index e' /\
    selected_index e' = reflection_index n t.
Proof.
  cbv zeta. intros Hn Ht Hg Hb Hinc Hti Hta Hma.
  assert (Hlen : Z.of_nat (List.length (games e)) = Z.of_nat (List.length entries))
    by (rewrite Hg, length_map; reflexivity).
  assert (Hta' : target_angle (wheel e)
                 == 360 / inject_Z (Z.of_nat (List.length entries)) * inject_Z t)
    by (rewrite Hta, Hinc; reflexivity).
  destruct (rest_angle_range _ _ Ht) as [R0 R1]. rewrite <- Hta' in R0, R1.
  destruct (bottom_item_at_rest (map snd entries) (update (wheel e)) t)
    as [x [Hx Hix]].
  { rewrite length_map. exact Ht. }
  { destruct (update_other_fields (wheel e)) as (_ & _ & Hba & _).
    rewrite Hba. exact Hb. }
  { rewrite length_map, <- Hta'. apply update_at_rest; assumption. }
  rewrite length_map in Hx, Hix.
  assert (Hgroup : snd (PygameEmulator_init entries) =
                   make_wheel_items
                     (360 / inject_Z (Z.of_nat (List.length entries))) 0
                     (map snd entries)).
  { unfold PygameEmulator_init, WheelUI_init. cbn [snd].
    rewrite length_map.
    destruct (Z.gtb_spec (Z.of_nat (List.length entries)) 0) as [_ | ?];
      [reflexivity | lia]. }
  rewrite Hgroup.
  rewrite draw_menu_ok by lia. cbv zeta. rewrite Hlen, Hti.
  eexists. eexists. exists x. split; [reflexivity |].
  cbn [wheel set_wheel set_selected_index selected_index].
  rewrite selected_index_reflection by exact Ht.
  split; [exact Hx |]. split; [exact Hix | reflexivity].
Qed.

Lemma bottom_item_is_selected_index_witness :
  exists e' group' item,
    draw_menu (set_wheel four_games_menu
                 (mkWheelUI 0 1 90 90 (Py.radians 90)
                    (map fst four_games) 4 (360 / 4)))
              (snd (PygameEmulator_init four_games)) = Py.Ok (e', group') /\
    get_bottom_item (wheel e') (snd (PygameEmulator_init four_games))
      = Some item /\
    index item = selected_index e' /\
    selected_index e' = reflection_index 4 1.
Proof.
  apply (bottom_item_is_selected_index four_games
           (set_wheel four_games_menu
              (mkWheelUI 0 1 90 90 (Py.radians 90)
                 (map fst four_games) 4 (360 / 4))) 1);
    try reflexivity.
  cbn. lia.
Defined.

End MenuAtRest.

(** ** The zoom of the selected item *)

Section Zoom.

Lemma angular_separation_le_abs (a b : Q) :
  angular_separation a b <= Py.abs (a - b).
Proof.
  unfold angular_separation.
  pose proof (fmod_decomp (a - b) 360) as D.
  destruct (fmod_range (a - b) 360) as [H0 H1]; [lra |].
  set (d := Py.fmod (a - b) 360) in *.
  set (k := Qfloor ((a - b) / 360)) in *.
  assert (Hk : (k <= -1 \/ k = 0 \/ 1 <= k)%Z) by lia.
  assert (Hs : (if Py.gt d 180 then 360 - d else d) <= d
               /\ (if Py.gt d 180 then 360 - d else d) <= 360 - d).
  { destruct (Py.gt d 180) eqn:G;
      [apply gt_true in G | apply gt_false in G]; lra. }
  destruct Hs as [Hs1 Hs2].
  destruct (abs_cases (a - b)) as [[Hp E] | [Hp E]]; rewrite E;
    destruct Hk as [Hk | [Hk | Hk]].
  - rewrite Zle_Qle in Hk. change (inject_Z (-1)) with (- (1)) in Hk. lra.
  - rewrite Hk in D. change (inject_Z 0) with 0 in D. lra.
  - rewrite Zle_Qle in Hk. change (inject_Z 1) with 1 in Hk. lra.
  - rewrite Zle_Qle in Hk. change (inject_Z (-1)) with (- (1)) in Hk. lra.
  - rewrite Hk in D. change (inject_Z 0) with 0 in D. lra.
  - rewrite Zle_Qle in Hk. change (inject_Z 1) with 1 in Hk. lra.
Qed.

(** C9, as the code has it.  For the bottom item, [zoom_in(2)] runs when
    abs(currentAngle - targetAngle) < 6, and then the angular separation
    is below 6 degrees; when the angular separation is 6 degrees or more
    the bottom item is left as it is, neither grown nor shrunk; an item
    that is not the bottom item is shrunk by [zoom_out]. *)
Theorem draw_zoom_dispatch (self bottom : WheelItem) (w : WheelUI)
  (group : list WheelItem) :
  get_bottom_item w group = Some bottom ->
  (index self = index bottom ->
   Py.abs (master_angle w - target_angle w) < 6 ->
   draw self w group = zoom_in self 2 /\
   angular_separation (master_angle w) (target_angle w) < 6) /\
  (index self = index bottom ->
   6 <= angular_separation (master_angle w) (target_angle w) ->
   draw self w group = self) /\
  (index self <> index bottom -> draw self w group = zoom_out self).
Proof.
  intros Hb. unfold draw. rewrite Hb.
  pose proof (angular_separation_le_abs (master_angle w) (target_angle w)) as Hle.
  split; [| split].
  - intros Hi Hlt. rewrite Hi, Z.eqb_refl.
    apply lt_true in Hlt. rewrite Hlt.
    apply lt_true in Hlt. split; [reflexivity | lra].
  - intros Hi Hge. rewrite Hi, Z.eqb_refl.
    assert (L : Py.lt (Py.abs (master_angle w - target_angle w)) 6 = false)
      by (apply lt_false; lra).
    rewrite L. reflexivity.
  - intros Hi. apply Z.eqb_neq in Hi. rewrite Hi. reflexivity.
Qed.

Lemma draw_zoom_dispatch_witness :
  let item0 := zoom_in (WheelItem_init 0 (100, 100)%Z (Py.radians 90)) 2 in
  let item1 := WheelItem_init 1 (100, 100)%Z (Py.radians 180) in
  (draw item0 (wheel four_games_menu) grown_group = zoom_in item0 2 /\
   angular_separation (master_angle (wheel four_games_menu))
                      (target_angle (wheel four_games_menu)) < 6) /\
  draw item0 turning_wheel grown_group = item0 /\
  draw item1 turning_wheel grown_group = zoom_out item1.
Proof.
  cbv zeta.
  split; [| split].
  - refine (proj1 (draw_zoom_dispatch _ _ (wheel four_games_menu) grown_group _)
              _ _); vm_compute; reflexivity.
  - refine (proj1 (proj2 (draw_zoom_dispatch _ _ turning_wheel grown_group _))
              _ _); vm_compute; (reflexivity || discriminate).
  - refine (proj2 (proj2 (draw_zoom_dispatch _ _ turning_wheel grown_group _)) _).
    + vm_compute. reflexivity.
    + vm_compute. discriminate.
Defined.

(** C9, as the claim has it, fails.  One frame after a right press the
    wheel is 76.5 degrees from its target; item 0 is still the bottom
    item and was enlarged at rest; [draw] leaves it enlarged where the
    claim has it shrink. *)
Lemma draw_zoom_counterexample :
  let self := zoom_in (WheelItem_init 0 (100, 100)%Z (Py.radians 90)) 2 in
  let w := turning_wheel in
  (0 <= master_angle w /\ master_angle w < 360) /\
  (0 <= target_angle w /\ target_angle w < 360) /\
  option_map index (get_bottom_item w grown_group) = Some (index self) /\
  Py.lt (angular_separation (master_angle w) (target_angle w)) 6 = false /\
  draw self w grown_group = self /\
  image (draw self w grown_group) = (120, 120)%Z /\
  image (zoom_out self) = (116, 116)%Z.
Proof. vm_compute. repeat split; congruence. Qed.

(** the plain difference misses the wrap: one degree before the target at
    0 degrees the bottom item is not enlarged *)
Lemma draw_zoom_wrap :
  let self := WheelItem_init 0 (100, 100)%Z (Py.radians 90) in
  let w := wrapping_wheel in
  angular_separation (master_angle w) (target_angle w) == 1 /\
  option_map index (get_bottom_item w (snd (PygameEmulator_init four_games)))
    = Some (index self) /\
  draw self w (snd (PygameEmulator_init four_games)) = self /\
  image (zoom_in self 2) = (120, 120)%Z.
Proof. vm_compute. repeat split; congruence. Qed.

End Zoom.

(** * More of the launcher *)

(** ** The main loop with at least one game *)

Section MainLoop.

Lemma draw_start_frame (e : PygameEmulator) (a : Z) :
  games (fst (draw_start e a)) = games e /\
  selected_index (fst (draw_start e a)) = selected_index e /\
  background (fst (draw_start e a)) = background e /\
  wheel (fst (draw_start e a)) = wheel e.
Proof.
  unfold draw_start.
  repeat match goal with
    | |- context [if ?b then _ else _] => destruct b
    end; cbn; repeat split; reflexivity.
Qed.

Lemma draw_start_has_games (e : PygameEmulator) (a : Z) :
  has_games e -> has_games (fst (draw_start e a)).
Proof.
  unfold has_games.
  destruct (draw_start_frame e a) as (-> & -> & _ & ->). tauto.
Qed.

Lemma on_keydown_has_games (e : PygameEmulator) (k : key) :
  has_games e ->
  match on_keydown e k with
  | Py.Ok e' => has_games e'
  | Py.Exit => True
  | Py.Raise _ => False
  end.
Proof.
  intros (Hlen & Hnum & Hsel).
  assert (Hn : (num_items (wheel e) =? 0)%Z = false)
    by (apply Z.eqb_neq; lia).
  destruct (getitem_ok (games e) (selected_index e) Hsel) as [g Hg].
  unfold on_keydown, Py.imod.
  destruct (startup e); cbn [negb Py.bind];
    destruct k; cbn [key_eqb Py.bind set_wheel wheel];
    rewrite ?Hn, ?Hg; cbn [Py.bind key_eqb];
    try exact I; unfold has_games; cbn; repeat split; lia.
Qed.

Lemma draw_menu_has_games (e : PygameEmulator) (group : list WheelItem) :
  has_games e ->
  exists e' group',
    draw_menu e group = Py.Ok (e', group') /\ has_games e' /\
    startup e' = startup e /\ background e' = background e.
Proof.
  intros (Hlen & Hnum & Hsel).
  rewrite draw_menu_ok by exact Hlen. cbv zeta.
  do 2 eexists. split; [reflexivity |].
  unfold has_games. cbn [games wheel selected_index set_wheel set_selected_index
                         startup background].
  destruct (update_other_fields (wheel e)) as (_ & _ & _ & _ & -> & _).
  repeat split; try assumption; try lia; apply Z.mod_pos_bound; exact Hlen.
Qed.




Lemma Launcher_init_has_games (entries : list (string * (Z * Z))) :
  entries <> [] -> has_games (emulator (Launcher_init entries)).
Proof.
  intros Hne. unfold has_games. cbn. rewrite !length_map.
  destruct entries; [congruence |]. cbn [List.length]. lia.
Qed.



End MainLoop.

(** ** Quit events *)

Section Quit.

Lemma on_keydown_escape (e : PygameEmulator) :
  has_games e -> on_keydown e K_ESCAPE = Py.Exit.
Proof.
  intros He. pose proof (on_keydown_has_games e K_ESCAPE He) as H.
  unfold on_keydown in *.
  destruct (startup e); cbn [negb Py.bind key_eqb] in *; reflexivity.
Qed.

Lemma process_events_exit (events : list event) :
  forall e : PygameEmulator,
  has_games e ->
  In QUIT events \/ In (KEYDOWN K_ESCAPE) events ->
  process_events e events = Py.Exit.
Proof.
  induction events as [| ev events IH]; intros e He Hin.
  - destruct Hin as [[] | []].
  - destruct ev as [| k | k]; cbn [process_events].
    + reflexivity.
    + destruct (key_eqb k K_ESCAPE) eqn:Ek.
      * destruct k; try discriminate. rewrite on_keydown_escape by exact He.
        reflexivity.
      * pose proof (on_keydown_has_games e k He) as Hk.
        destruct (on_keydown e k) as [e' | x |]; cbn [Py.bind];
          [| contradiction | reflexivity].
        apply IH; [exact Hk |].
        destruct Hin as [[H | H] | [H | H]]; try discriminate; auto.
        inversion H; subst. discriminate.
    + apply IH; [exact He |].
      destruct Hin as [[H | H] | [H | H]]; try discriminate; auto.
Qed.

Lemma run_frame_exit (st : Launcher) (events : list event) :
  has_games (emulator st) ->
  In QUIT events \/ In (KEYDOWN K_ESCAPE) events ->
  run_frame st events = Py.Exit.
Proof.
  intros He Hin. unfold run_frame.
  destruct (startup (emulator st)).
  - pose proof (draw_start_has_games (emulator st) (logo_alpha st) He) as H.
    destruct (draw_start (emulator st) (logo_alpha st)) as [e a].
    cbn [fst] in H. cbn [Py.bind emulator].
    rewrite process_events_exit by assumption. reflexivity.
  - destruct (draw_menu_has_games (emulator st) (sprites st) He)
      as (e' & g' & -> & He' & _).
    cbn [Py.bind emulator].
    rewrite process_events_exit; [reflexivity | | exact Hin].
    destruct (background e'); [| exact He'].
    destruct He' as (? & ? & ?). unfold has_games. cbn. tauto.
Qed.

(** X2. With at least one game, a frame whose events hold a quit event or
    an Escape key-down ends the launcher, in the splash as in the menu,
    whatever other events come before or after it. *)
Theorem quit_event_exits (st : Launcher) (events : list event) :
  has_games (emulator st) ->
  In QUIT events \/ In (KEYDOWN K_ESCAPE) events ->
  run_frame st events = Py.Exit.
Proof. apply run_frame_exit. Qed.

Lemma quit_event_exits_witness :
  run_frame (Launcher_init four_games)
    [KEYDOWN K_LEFT; KEYUP K_LEFT; QUIT; KEYDOWN K_RETURN] = Py.Exit.
Proof.
  apply quit_event_exits.
  - apply Launcher_init_has_games. discriminate.
  - left. cbn. tauto.
Defined.

(** X3. A press of the power button that the monitor accepts ends the
    launcher in the frame that drains the queue, with at least one game:
    the quit event it queued is among the events of that frame. *)
Theorem power_button_shuts_down (st : Launcher) (m : PowerButtonMonitor)
  (queue native : list event) (t : Q) :
  has_games (emulator st) ->
  debounce_time m <= t - last_time m ->
  run_frame st (native ++ snd (_handle_button_press m queue t)) = Py.Exit.
Proof.
  intros He Ht. apply run_frame_exit; [exact He |].
  left. apply in_or_app. right.
  unfold _handle_button_press.
  apply ge_true in Ht. rewrite Ht. cbn [snd].
  apply in_or_app. right. left. reflexivity.
Qed.

Lemma power_button_shuts_down_witness :
  run_frame (Launcher_init four_games)
    ([KEYDOWN K_RIGHT] ++
     snd (_handle_button_press (PowerButtonMonitor_init None) [] 1))
  = Py.Exit.
Proof.
  apply power_button_shuts_down.
  - apply Launcher_init_has_games. discriminate.
  - vm_compute. discriminate.
Defined.

End Quit.

(** ** The splash *)

Section Splash.

Lemma draw_start_alpha_ok (e : PygameEmulator) (a : Z) :
  alpha_ok a -> alpha_ok (snd (draw_start e a)).
Proof.
  unfold alpha_ok, draw_start. intros [Hr Hm].
  assert (H5 : forall b, (b mod 5 = 0 -> (b + 5) mod 5 = 0 /\ (b - 5) mod 5 = 0)%Z).
  { intros b Hb. split.
    - replace (b + 5)%Z with (b + 1 * 5)%Z by lia. rewrite Z.mod_add; lia.
    - replace (b - 5)%Z with (b + (-1) * 5)%Z by lia. rewrite Z.mod_add; lia. }
  destruct (H5 a Hm) as [Hp Hq].
  assert (Hlt : (a < 255 -> a + 5 <= 255)%Z).
  { intros. apply Z.mod_divide in Hm; [| lia]. destruct Hm as [c ->]. lia. }
  assert (Hgt : (0 < a -> 0 <= a - 5)%Z).
  { intros. apply Z.mod_divide in Hm; [| lia]. destruct Hm as [c ->]. lia. }
  repeat match goal with
    | |- context [if negb ?b then _ else _] => destruct b; cbn [negb]
    | |- context [(?x <=? ?y)%Z] => destruct (Z.leb_spec x y)
    | |- context [(?x <? ?y)%Z] => destruct (Z.ltb_spec x y)
    | |- context [(?x >? ?y)%Z] => destruct (Z.gtb_spec x y)
    | |- context [(?x =? ?y)%Z] => destruct (Z.eqb_spec x y)
    end; cbn [snd]; split; try assumption; try reflexivity; lia.
Qed.

Lemma run_frame_alpha_ok (st : Launcher) (events : list event) :
  alpha_ok (logo_alpha st) ->
  match run_frame st events with
  | Py.Ok st' => alpha_ok (logo_alpha st')
  | _ => True
  end.
Proof.
  intros Ha. unfold run_frame.
  destruct (startup (emulator st)).
  - pose proof (draw_start_alpha_ok (emulator st) (logo_alpha st) Ha) as H.
    destruct (draw_start (emulator st) (logo_alpha st)) as [e a].
    cbn [snd] in H. cbn [Py.bind emulator logo_alpha].
    destruct (process_events e events); cbn [Py.bind logo_alpha];
      (exact H || exact I).
  - destruct (draw_menu (emulator st) (sprites st)) as [[e g] | x |];
      cbn [Py.bind]; try exact I.
    cbn [emulator logo_alpha].
    destruct (process_events _ events); cbn [Py.bind logo_alpha];
      (exact Ha || exact I).
Qed.

(** X4. The alpha of the logo stays a multiple of 5 between 0 and 255
    through every run of the main loop, whatever keys are pressed. *)
Theorem logo_alpha_in_range (entries : list (string * (Z * Z)))
  (frames : list (list event)) :
  match run_frames (Launcher_init entries) frames with
  | Py.Ok st => (0 <= logo_alpha st <= 255)%Z /\ (logo_alpha st mod 5 = 0)%Z
  | _ => True
  end.
Proof.
  assert (G : forall fr st, alpha_ok (logo_alpha st) ->
            match run_frames st fr with
            | Py.Ok st' => alpha_ok (logo_alpha st')
            | _ => True
            end).
  { induction fr as [| ev fr IH]; intros st Ha; [exact Ha |].
    cbn [run_frames]. pose proof (run_frame_alpha_ok st ev Ha) as H.
    destruct (run_frame st ev); cbn [Py.bind]; try exact I.
    apply IH. exact H. }
  apply G. cbn. unfold alpha_ok. split; [lia | reflexivity].
Qed.

Lemma draw_start_splash_state (e e' : PygameEmulator) (a a' : Z) :
  splash_state e a = splash_state e' a' ->
  splash_state (fst (draw_start e a)) (snd (draw_start e a)) =
  splash_state (fst (draw_start e' a')) (snd (draw_start e' a')).
Proof.
  unfold splash_state. intros H. inversion H as [[Hs Hst Hlt Ha]].
  unfold draw_start. cbn [start_timer logo_timer set_timers].
  rewrite Hst, Hlt.
  repeat match goal with
    | |- context [if ?b then _ else _] => destruct b
    end; cbn; rewrite ?Hs, ?Hst, ?Hlt; reflexivity.
Qed.

Lemma draw_starts_splash_state (n : nat) :
  forall (e e' : PygameEmulator) (a a' : Z),
  splash_state e a = splash_state e' a' ->
  splash_state (fst (draw_starts n e a)) (snd (draw_starts n e a)) =
  splash_state (fst (draw_starts n e' a')) (snd (draw_starts n e' a')).
Proof.
  induction n as [| n IH]; intros e e' a a' H; [exact H |].
  cbn [draw_starts].
  pose proof (draw_start_splash_state e e' a a' H) as H1.
  destruct (draw_start e a) as [e1 a1], (draw_start e' a') as [e1' a1'].
  apply IH. exact H1.
Qed.

Lemma splash_lasts_spec (n m : nat) (e : PygameEmulator) (a : Z) (s : bool)
  (start logo : Z) :
  splash_state e a = (s, start, logo, a) ->
  splash_lasts n m (splash_emulator s start logo) a = true ->
  forall j : nat, (j <= m)%nat ->
  startup (fst (draw_starts j e a)) = (j <? n)%nat.
Proof.
  intros He Hc j Hj. unfold splash_lasts in Hc.
  rewrite forallb_forall in Hc.
  assert (Hin : In j (seq 0 (S m))) by (apply in_seq; lia).
  apply Hc in Hin. apply Bool.eqb_prop in Hin. rewrite <- Hin.
  pose proof (draw_starts_splash_state j e (splash_emulator s start logo) a a He)
    as H.
  unfold splash_state in H. inversion H. reflexivity.
Qed.

(** frames without events during the splash are splash frames *)
Lemma run_frames_splash (k : nat) :
  forall st : Launcher,
  (forall j : nat, (j < k)%nat ->
     startup (fst (draw_starts j (emulator st) (logo_alpha st))) = true) ->
  run_frames st (repeat [] k) =
  Py.Ok (mkLauncher (fst (draw_starts k (emulator st) (logo_alpha st)))
                    (snd (draw_starts k (emulator st) (logo_alpha st)))
                    (sprites st)).
Proof.
  induction k as [| k IH]; intros st H.
  - destruct st. reflexivity.
  - cbn [repeat run_frames draw_starts]. unfold run_frame.
    assert (H0 : startup (emulator st) = true) by (apply (H 0%nat); lia).
    rewrite H0.
    assert (H' : forall j, (j < k)%nat ->
              startup (fst (draw_starts (S j) (emulator st) (logo_alpha st))) = true)
      by (intros j Hj; apply H; lia).
    cbn [draw_starts] in H'.
    destruct (draw_start (emulator st) (logo_alpha st)) as [e a].
    cbn [Py.bind process_events emulator logo_alpha sprites].
    rewrite IH by exact H'. reflexivity.
Qed.

(** X5. When no key is pressed the splash lasts 421 frames: the loop
    draws the splash in each of its first 421 frames and is in the menu
    after them, for every catalog. *)
Theorem splash_lasts_421_frames (entries : list (string * (Z * Z))) (k : nat) :
  (k <= 421)%nat ->
  exists st,
    run_frames (Launcher_init entries) (repeat [] k) = Py.Ok st /\
    startup (emulator st) = (k <? 421)%nat.
Proof.
  intros Hk.
  assert (S : forall j, (j <= 421)%nat ->
            startup (fst (draw_starts j (emulator (Launcher_init entries)) 0))
            = (j <? 421)%nat).
  { apply (splash_lasts_spec 421 421 _ 0 true 240 180); [reflexivity |].
    vm_compute. reflexivity. }
  eexists. split.
  - apply run_frames_splash. intros j Hj.
    change (logo_alpha (Launcher_init entries)) with 0%Z.
    rewrite S by lia. apply Nat.ltb_lt. lia.
  - cbn [emulator]. change (logo_alpha (Launcher_init entries)) with 0%Z.
    apply S. exact Hk.
Qed.

Lemma splash_lasts_421_frames_witness :
  exists st,
    run_frames (Launcher_init four_games) (repeat [] 421) = Py.Ok st /\
    startup (emulator st) = false.
Proof.
  apply (splash_lasts_421_frames four_games 421). apply le_n.
Defined.

Lemma alpha_ok_values (a : Z) :
  alpha_ok a -> In a (map (fun i => (5 * Z.of_nat i)%Z) (seq 0 52)).
Proof.
  intros [Hr Hm]. apply in_map_iff.
  apply Z.mod_divide in Hm; [| lia]. destruct Hm as [c ->].
  exists (Z.to_nat c). split; [lia |]. apply in_seq. lia.
Qed.

(** X6. A key-down other than Escape during the splash cuts it short: the
    splash is drawn for 61 more frames and the menu follows, whatever the
    timers and the alpha of the logo were. *)
Theorem key_skips_splash (e : PygameEmulator) (a : Z) (k : key) (j : nat) :
  startup e = true -> alpha_ok a -> k <> K_ESCAPE -> (j <= 61)%nat ->
  exists e1,
    on_keydown e k = Py.Ok e1 /\
    wheel e1 = wheel e /\ selected_index e1 = selected_index e /\
    startup (fst (draw_starts j e1 a)) = (j <? 61)%nat.
Proof.
  intros Hs Ha Hk Hj.
  exists (set_timers e 60 0). split; [| split; [reflexivity | split; [reflexivity |]]].
  - unfold on_keydown. rewrite Hs. cbn [negb Py.bind].
    destruct k; try reflexivity. congruence.
  - apply (splash_lasts_spec 61 61 _ a true 0 60);
      [unfold splash_state; cbn; rewrite Hs; reflexivity | | exact Hj].
    apply alpha_ok_values in Ha.
    assert (C : forallb (fun b => splash_lasts 61 61 (splash_emulator true 0 60) b)
                  (map (fun i => (5 * Z.of_nat i)%Z) (seq 0 52)) = true)
      by (vm_compute; reflexivity).
    rewrite forallb_forall in C. apply C. exact Ha.
Qed.

Lemma key_skips_splash_witness :
  exists e1,
    on_keydown (emulator (Launcher_init four_games)) K_RETURN = Py.Ok e1 /\
    wheel e1 = wheel (emulator (Launcher_init four_games)) /\
    selected_index e1 = selected_index (emulator (Launcher_init four_games)) /\
    startup (fst (draw_starts 61 e1 0)) = false.
Proof.
  apply (key_skips_splash (emulator (Launcher_init four_games)) 0 K_RETURN 61).
  - reflexivity.
  - unfold alpha_ok. split; [lia | reflexivity].
  - discriminate.
  - apply le_n.
Defined.

End Splash.

(** ** Left and right *)

Section LeftRight.

(** X7. In the menu, a run of left and right presses with as many steps
    one way as the other, or a whole number of turns apart, brings the
    target index back where it was, with the target angle that belongs to
    it: left then right, right then left, or once round the wheel. *)
Theorem left_right_round_trip (e : PygameEmulator) (ks : list key) :
  let n := num_items (wheel e) in
  startup e = false -> (0 < n)%Z ->
  (0 <= target_index (wheel e) < n)%Z ->
  ks <> [] -> Forall (fun k => k = K_LEFT \/ k = K_RIGHT) ks ->
  (net_steps ks mod n = 0)%Z ->
  exists e',
    on_keydowns e ks = Py.Ok e' /\
    target_index (wheel e') = target_index (wheel e) /\
    target_angle (wheel e') ==
      angle_increment (wheel e) * inject_Z (target_index (wheel e)).
Proof.
  cbv zeta. intros Hs Hn Hti Hne Hks Hnet.
  destruct (on_keydowns_left_right ks e Hs Hn Hks)
    as (e' & Hrun & _ & _ & _ & Hidx & Hang).
  destruct (Hang Hne) as [Hrange Hangle].
  assert (E : target_index (wheel e') = target_index (wheel e)).
  { rewrite <- (Z.mod_small _ _ Hrange), Hidx.
    rewrite Z.add_mod by lia. rewrite Hnet, Z.add_0_r, Z.mod_mod by lia.
    apply Z.mod_small. exact Hti. }
  exists e'. split; [exact Hrun |]. split; [exact E |].
  rewrite <- E. exact Hangle.
Qed.

Lemma left_right_round_trip_witness :
  exists e',
    on_keydowns four_games_menu [K_LEFT; K_RIGHT; K_RIGHT; K_LEFT] = Py.Ok e' /\
    target_index (wheel e') = 0%Z /\
    target_angle (wheel e') == 360 / 4 * 0.
Proof.
  apply (left_right_round_trip four_games_menu
           [K_LEFT; K_RIGHT; K_RIGHT; K_LEFT]).
  - reflexivity.
  - reflexivity.
  - cbn. lia.
  - discriminate.
  - repeat constructor; (left; reflexivity) || (right; reflexivity).
  - reflexivity.
Defined.

Lemma reflection_index_step (n t d : Z) :
  (0 < n)%Z ->
  reflection_index n ((t + d) mod n) = ((reflection_index n t - d) mod n)%Z.
Proof.
  intros Hn. unfold reflection_index.
  replace (n - 1 - (t + d) mod n + 1)%Z with (n - (t + d) mod n)%Z by lia.
  replace (n - 1 - t + 1)%Z with (n - t)%Z by lia.
  rewrite (Zminus_mod n ((t + d) mod n)), Z.mod_mod by lia.
  rewrite <- Zminus_mod.
  rewrite (Zminus_mod ((n - t) mod n) d), Z.mod_mod by lia.
  rewrite <- Zminus_mod. f_equal. lia.
Qed.

(** X8. The selection moves against the key: in the menu, the frame after
    a right press selects the catalog entry before the one selected for
    the old target (modulo the number of games), the frame after a left
    press the entry after it. *)
Theorem right_selects_previous (e : PygameEmulator) (k : key)
  (group : list WheelItem) :
  let n := Z.of_nat (List.length (games e)) in
  let t := target_index (wheel e) in
  has_games e -> startup e = false ->
  k = K_LEFT \/ k = K_RIGHT ->
  exists e1 e2 group2,
    on_keydown e k = Py.Ok e1 /\
    draw_menu e1 group = Py.Ok (e2, group2) /\
    selected_index e2 = ((reflection_index n t - net_steps [k]) mod n)%Z.
Proof.
  cbv zeta. intros (Hlen & Hnum & Hsel) Hs Hk.
  rewrite (on_keydown_left_right e k Hs) by (assumption || lia).
  cbv zeta.
  set (i := ((target_index (wheel e) + net_steps [k]) mod num_items (wheel e))%Z).
  do 3 eexists. split; [reflexivity |].
  rewrite draw_menu_ok by exact Hlen. cbv zeta.
  split; [reflexivity |].
  cbn [selected_index set_selected_index set_wheel wheel games target_index
       set_target_angle set_target_index].
  assert (Hi : (0 <= i < Z.of_nat (List.length (games e)))%Z).
  { subst i. rewrite Hnum. apply Z.mod_pos_bound. exact Hlen. }
  rewrite selected_index_reflection by exact Hi.
  subst i. rewrite Hnum. apply reflection_index_step. exact Hlen.
Qed.

Lemma right_selects_previous_witness :
  exists e1 e2 group2,
    on_keydown four_games_menu K_RIGHT = Py.Ok e1 /\
    draw_menu e1 (snd (PygameEmulator_init four_games)) = Py.Ok (e2, group2) /\
    selected_index e2 = ((reflection_index 4 0 - 1) mod 4)%Z.
Proof.
  apply (right_selects_previous four_games_menu K_RIGHT).
  - unfold has_games. cbn. lia.
  - reflexivity.
  - right. reflexivity.
Defined.

End LeftRight.

(** ** The GPIO bridge *)

Section Bridge.

Lemma dict_get_set_same {V} (d : list (Z * V)) (k : Z) (v : V) :
  dict_get (dict_set d k v) k = Some v.
Proof.
  induction d as [| [k' v'] d IH]; cbn [dict_set dict_get].
  - rewrite Z.eqb_refl. reflexivity.
  - destruct (Z.eqb_spec k' k) as [E | E]; cbn [dict_get].
    + rewrite Z.eqb_refl. reflexivity.
    + apply Z.eqb_neq in E. rewrite E. exact IH.
Qed.

Lemma dict_get_set_other {V} (d : list (Z * V)) (k k0 : Z) (v : V) :
  k0 <> k -> dict_get (dict_set d k v) k0 = dict_get d k0.
Proof.
  intros Hne. induction d as [| [k' v'] d IH]; cbn [dict_set dict_get].
  - destruct (Z.eqb_spec k k0); [congruence | reflexivity].
  - destruct (Z.eqb_spec k' k) as [E | E]; cbn [dict_get].
    + subst k'. destruct (Z.eqb_spec k k0); [congruence | reflexivity].
    + destruct (Z.eqb_spec k' k0); [reflexivity | exact IH].
Qed.

Lemma dict_set_keys {V} (d : list (Z * V)) (k : Z) (v : V) :
  dict_get d k <> None -> map fst (dict_set d k v) = map fst d.
Proof.
  induction d as [| [k' v'] d IH]; cbn [dict_set dict_get]; [congruence |].
  destruct (Z.eqb_spec k' k) as [E | E]; intros H; cbn [map fst].
  - subst. reflexivity.
  - rewrite IH by exact H. reflexivity.
Qed.

Lemma dict_get_keys {V} (d : list (Z * V)) (k : Z) :
  dict_get d k <> None <-> In k (map fst d).
Proof.
  induction d as [| [k' v'] d IH]; cbn [dict_get map fst In]; [tauto |].
  destruct (Z.eqb_spec k' k) as [E | E].
  - split; [auto | congruence].
  - rewrite IH. tauto.
Qed.

Lemma edge_events_ext (input : Z -> bool) (s1 s2 : list (Z * bool))
  (pins : list (Z * key)) :
  (forall p, In p (map fst pins) -> dict_get s1 p = dict_get s2 p) ->
  edge_events input s1 pins = edge_events input s2 pins.
Proof.
  induction pins as [| [pin key] pins IH]; intros H; [reflexivity |].
  unfold edge_events in *. cbn [flat_map fst snd].
  rewrite (H pin) by (left; reflexivity).
  rewrite IH; [reflexivity |]. intros p Hp. apply H. right. exact Hp.
Qed.

Lemma poll_pins_spec (input : Z -> bool) (pins : list (Z * key)) :
  forall (states : list (Z * bool)) (queue : list event),
  NoDup (map fst pins) ->
  (forall p, In p (map fst pins) -> In p (map fst states)) ->
  exists states',
    poll_pins input pins states queue
      = Some (states', (queue ++ edge_events input states pins)%list) /\
    (forall p, In p (map fst pins) -> dict_get states' p = Some (input p)) /\
    (forall p, ~ In p (map fst pins) -> dict_get states' p = dict_get states p) /\
    map fst states' = map fst states.
Proof.
  induction pins as [| [pin key] pins IH]; intros states queue Hnd Hcov.
  - exists states. cbn. rewrite app_nil_r. repeat split; tauto.
  - cbn [map fst] in Hnd. inversion Hnd as [| ? ? Hnotin Hnd']; subst.
    cbn [poll_pins].
    assert (Hin : dict_get states pin <> None)
      by (apply dict_get_keys; apply Hcov; left; reflexivity).
    destruct (dict_get states pin) as [old |] eqn:Eold; [| congruence].
    unfold edge_events. cbn [flat_map fst snd]. rewrite Eold.
    fold (edge_events input states pins).
    destruct (Bool.eqb (input pin) old) eqn:Eq; cbn [negb].
    + apply Bool.eqb_prop in Eq.
      destruct (IH states queue Hnd') as (states' & Hrun & Hnew & Hold & Hkeys).
      { intros p Hp. apply Hcov. right. exact Hp. }
      exists states'. split; [exact Hrun |]. repeat split.
      * intros p Hp. cbn [map fst In] in Hp.
        destruct Hp as [<- | Hp]; [| apply Hnew; exact Hp].
        rewrite Hold by exact Hnotin. rewrite Eold, Eq. reflexivity.
      * intros p Hp. apply Hold. intros Hc. apply Hp. cbn [map fst In].
        right. exact Hc.
      * exact Hkeys.
    + set (states1 := dict_set states pin (input pin)).
      assert (Hk1 : map fst states1 = map fst states)
        by (apply dict_set_keys; rewrite Eold; congruence).
      destruct (IH states1 (queue ++ [if Bool.eqb (input pin) false
                                      then KEYDOWN key else KEYUP key])%list Hnd')
        as (states' & Hrun & Hnew & Hold & Hkeys).
      { intros p Hp. rewrite Hk1. apply Hcov. right. exact Hp. }
      exists states'. split.
      * rewrite Hrun. rewrite <- app_assoc. cbn [app].
        rewrite (edge_events_ext input states1 states pins).
        -- destruct (input pin); reflexivity.
        -- intros p Hp. apply dict_get_set_other. intros ->. contradiction.
      * repeat split.
        -- intros p Hp. cbn [map fst In] in Hp.
           destruct Hp as [<- | Hp]; [| apply Hnew; exact Hp].
           rewrite Hold by exact Hnotin. apply dict_get_set_same.
        -- intros p Hp. cbn [map fst In] in Hp.
           rewrite Hold by (intros Hc; apply Hp; right; exact Hc).
           apply dict_get_set_other. intros ->. apply Hp. left. reflexivity.
        -- rewrite Hkeys. exact Hk1.
Qed.

Lemma GPIOInputBridge_init_ok (pins : list (Z * key)) :
  NoDup (map fst pins) -> bridge_ok (GPIOInputBridge_init pins).
Proof.
  intros H. split; [exact H |]. cbn. rewrite map_map. reflexivity.
Qed.

Lemma poll_reports_edges_aux (input : Z -> bool) (b : GPIOInputBridge)
  (queue : list event) :
  bridge_ok b ->
  exists b',
    poll_once (Some input) b queue
      = Some (b', (queue ++ edge_events input (pin_states b) (gpio_key_map b))%list) /\
    bridge_ok b' /\ gpio_key_map b' = gpio_key_map b /\
    forall p, In p (map fst (gpio_key_map b)) ->
              dict_get (pin_states b') p = Some (input p).
Proof.
  intros [Hnd Hkeys].
  destruct (poll_pins_spec input (gpio_key_map b) (pin_states b) queue Hnd)
    as (states' & Hrun & Hnew & _ & Hk).
  { intros p Hp. rewrite Hkeys. exact Hp. }
  unfold poll_once. rewrite Hrun.
  eexists. split; [reflexivity |].
  unfold bridge_ok. cbn [gpio_key_map pin_states].
  split; [split; [exact Hnd | rewrite Hk; exact Hkeys] |].
  split; [reflexivity | exact Hnew].
Qed.

(** X9. One polling pass of the bridge never fails on a pin, queues an
    event for exactly the pins whose level changed since the level it
    stored (key-down for low, key-up for high, in the order of the key
    map, after what the queue held), and then stores the level it read
    for every pin of the key map. *)
Theorem poll_reports_edges (input : Z -> bool) (b : GPIOInputBridge)
  (queue : list event) :
  bridge_ok b ->
  exists b',
    poll_once (Some input) b queue
      = Some (b', (queue ++ edge_events input (pin_states b) (gpio_key_map b))%list) /\
    bridge_ok b' /\ gpio_key_map b' = gpio_key_map b /\
    forall p, In p (map fst (gpio_key_map b)) ->
              dict_get (pin_states b') p = Some (input p).
Proof. apply poll_reports_edges_aux. Qed.

Lemma poll_reports_edges_witness :
  exists b',
    poll_once (Some (fun p => negb (p =? 27)%Z))
              (GPIOInputBridge_init launcher_key_map) []
      = Some (b', ([] ++ edge_events (fun p => negb (p =? 27)%Z)
                           (pin_states (GPIOInputBridge_init launcher_key_map))
                           launcher_key_map)%list) /\
    bridge_ok b' /\ gpio_key_map b' = launcher_key_map /\
    forall p, In p (map fst launcher_key_map) ->
              dict_get (pin_states b') p = Some (negb (p =? 27)%Z).
Proof.
  apply (poll_reports_edges (fun p => negb (p =? 27)%Z)
           (GPIOInputBridge_init launcher_key_map) []).
  apply GPIOInputBridge_init_ok.
  cbn. repeat constructor; cbn; intuition discriminate.
Defined.

Lemma edge_events_none (input : Z -> bool) (states : list (Z * bool))
  (pins : list (Z * key)) :
  (forall p, In p (map fst pins) -> dict_get states p = Some (input p)) ->
  edge_events input states pins = [].
Proof.
  induction pins as [| [pin key] pins IH]; intros H; [reflexivity |].
  unfold edge_events in *. cbn [flat_map fst snd].
  rewrite (H pin) by (left; reflexivity). rewrite Bool.eqb_reflx.
  cbn [app]. apply IH. intros p Hp. apply H. right. exact Hp.
Qed.

(** X10. The bridge reports changes, not levels: a second pass that reads
    the same levels as the pass before it queues nothing and leaves the
    stored levels as they are. *)
Theorem poll_is_edge_triggered (input input' : Z -> bool)
  (b : GPIOInputBridge) (queue : list event) :
  bridge_ok b ->
  (forall p, In p (map fst (gpio_key_map b)) -> input' p = input p) ->
  exists b1 queue1 b2,
    poll_once (Some input) b queue = Some (b1, queue1) /\
    poll_once (Some input') b1 queue1 = Some (b2, queue1) /\
    forall p, dict_get (pin_states b2) p = dict_get (pin_states b1) p.
Proof.
  intros Hb Hsame.
  destruct (poll_reports_edges_aux input b queue Hb) as (b1 & H1 & Hb1 & Hm1 & Hs1).
  destruct Hb1 as [Hnd1 Hk1].
  destruct (poll_pins_spec input' (gpio_key_map b1) (pin_states b1)
              (queue ++ edge_events input (pin_states b) (gpio_key_map b))%list Hnd1)
    as (states2 & Hrun & Hnew & Hold & Hk).
  { intros p Hp. rewrite Hk1. exact Hp. }
  assert (Hnone : edge_events input' (pin_states b1) (gpio_key_map b1) = []).
  { apply edge_events_none. intros p Hp. rewrite Hm1 in Hp.
    rewrite Hs1 by exact Hp. rewrite Hsame by exact Hp. reflexivity. }
  rewrite Hnone, app_nil_r in Hrun.
  do 3 eexists. split; [exact H1 |]. split.
  - unfold poll_once. rewrite Hrun. reflexivity.
  - cbn [pin_states]. intros p.
    destruct (in_dec Z.eq_dec p (map fst (gpio_key_map b1))) as [Hin | Hout].
    + rewrite Hnew by exact Hin. rewrite Hm1 in Hin.
      rewrite Hs1 by exact Hin. rewrite Hsame by exact Hin. reflexivity.
    + apply Hold. exact Hout.
Qed.

Lemma poll_is_edge_triggered_witness :
  exists b1 queue1 b2,
    poll_once (Some (fun p => negb (p =? 27)%Z))
              (GPIOInputBridge_init launcher_key_map) [] = Some (b1, queue1) /\
    poll_once (Some (fun p => negb (p =? 27)%Z)) b1 queue1 = Some (b2, queue1) /\
    forall p, dict_get (pin_states b2) p = dict_get (pin_states b1) p.
Proof.
  apply (poll_is_edge_triggered (fun p => negb (p =? 27)%Z)
           (fun p => negb (p =? 27)%Z)
           (GPIOInputBridge_init launcher_key_map) []).
  - apply GPIOInputBridge_init_ok.
    cbn. repeat constructor; cbn; intuition discriminate.
  - reflexivity.
Defined.

Lemma edge_events_one (input : Z -> bool) (states : list (Z * bool))
  (pins : list (Z * key)) (p : Z) (k : key) :
  NoDup (map fst pins) -> In (p, k) pins ->
  dict_get states p = Some (negb (input p)) ->
  (forall q, In q (map fst pins) -> q <> p -> dict_get states q = Some (input q)) ->
  edge_events input states pins = [if input p then KEYUP k else KEYDOWN k].
Proof.
  induction pins as [| [pin key] pins IH]; intros Hnd Hin Hp Hq; [destruct Hin |].
  cbn [map fst] in Hnd. inversion Hnd as [| ? ? Hnotin Hnd']; subst.
  unfold edge_events in *. cbn [flat_map fst snd].
  destruct Hin as [E | Hin].
  - inversion E; subst pin key. rewrite Hp.
    assert (B : Bool.eqb (input p) (negb (input p)) = false)
      by (destruct (input p); reflexivity).
    rewrite B. cbn [app]. f_equal.
    apply edge_events_none. intros q Hq'. apply Hq; [right; exact Hq' |].
    intros ->. contradiction.
  - assert (Hne : pin <> p).
    { intros ->. apply Hnotin. apply (in_map fst) in Hin. exact Hin. }
    rewrite (Hq pin) by (left; reflexivity) || exact Hne.
    rewrite Bool.eqb_reflx. cbn [app].
    apply IH; try assumption.
    intros q Hq' Hqp. apply Hq; [right; exact Hq' | exact Hqp].
Qed.

(** X11. A button pressed and released between passes arrives as the
    key-down and then the key-up of the key its pin is mapped to, and
    nothing else: from a bridge with every pin high, a pass that reads the
    pin low queues the key-down, the next pass that reads every pin high
    queues the key-up, and every pin is stored high again. *)
Theorem press_then_release (b : GPIOInputBridge) (queue : list event)
  (p : Z) (k : key) :
  bridge_ok b -> In (p, k) (gpio_key_map b) ->
  (forall q, In q (map fst (gpio_key_map b)) ->
             dict_get (pin_states b) q = Some true) ->
  exists b1 b2,
    poll_once (Some (fun q => negb (q =? p)%Z)) b queue
      = Some (b1, (queue ++ [KEYDOWN k])%list) /\
    poll_once (Some (fun _ => true)) b1 (queue ++ [KEYDOWN k])%list
      = Some (b2, (queue ++ [KEYDOWN k; KEYUP k])%list) /\
    forall q, In q (map fst (gpio_key_map b)) ->
              dict_get (pin_states b2) q = Some true.
Proof.
  intros Hb Hin Hhigh.
  assert (Hpin : In p (map fst (gpio_key_map b)))
    by (apply (in_map fst) in Hin; exact Hin).
  destruct (poll_reports_edges_aux (fun q => negb (q =? p)%Z) b queue Hb)
    as (b1 & H1 & Hb1 & Hm1 & Hs1).
  destruct (poll_reports_edges_aux (fun _ => true) b1 (queue ++ [KEYDOWN k])%list Hb1)
    as (b2 & H2 & Hb2 & Hm2 & Hs2).
  exists b1, b2.
  rewrite (edge_events_one (fun q => negb (q =? p)%Z) (pin_states b)
             (gpio_key_map b) p k) in H1.
  - rewrite Z.eqb_refl in H1. cbn [negb] in H1.
    rewrite (edge_events_one (fun _ => true) (pin_states b1)
               (gpio_key_map b1) p k) in H2.
    + rewrite <- app_assoc in H2. cbn [app] in H2.
      split; [exact H1 |]. split; [exact H2 |].
      intros q Hq. apply Hs2. rewrite Hm1. exact Hq.
    + destruct Hb1 as [Hnd1 _]. exact Hnd1.
    + rewrite Hm1. exact Hin.
    + rewrite Hs1 by exact Hpin. rewrite Z.eqb_refl. reflexivity.
    + intros q Hq Hne. rewrite Hm1 in Hq. rewrite Hs1 by exact Hq.
      apply Z.eqb_neq in Hne. rewrite Hne. reflexivity.
  - destruct Hb as [Hnd _]. exact Hnd.
  - exact Hin.
  - rewrite Z.eqb_refl. cbn [negb]. apply Hhigh. exact Hpin.
  - intros q Hq Hne. apply Z.eqb_neq in Hne. rewrite Hne. cbn [negb].
    apply Hhigh. exact Hq.
Qed.

Lemma press_then_release_witness :
  exists b1 b2,
    poll_once (Some (fun q => negb (q =? 23)%Z))
              (GPIOInputBridge_init launcher_key_map) []
      = Some (b1, [KEYDOWN K_RETURN]) /\
    poll_once (Some (fun _ => true)) b1 [KEYDOWN K_RETURN]
      = Some (b2, [KEYDOWN K_RETURN; KEYUP K_RETURN]) /\
    forall q, In q (map fst launcher_key_map) ->
              dict_get (pin_states b2) q = Some true.
Proof.
  apply (press_then_release (GPIOInputBridge_init launcher_key_map) [] 23 K_RETURN).
  - apply GPIOInputBridge_init_ok.
    cbn. repeat constructor; cbn; intuition discriminate.
  - cbn. tauto.
  - intros q Hq. cbn in Hq.
    repeat (destruct Hq as [<- | Hq]; [reflexivity |]). destruct Hq.
Defined.

End Bridge.

(** ** The zoom animation *)

Section ZoomAnimation.

Lemma round_near (x : Q) :
  x - (1 # 2) <= inject_Z (Py.round x) /\ inject_Z (Py.round x) <= x + (1 # 2).
Proof.
  unfold Py.round.
  pose proof (Qfloor_le x) as H1. pose proof (Qlt_floor x) as H2.
  rewrite inject_Z_plus in H2. change (inject_Z 1) with 1 in H2.
  set (f := Qfloor x) in *.
  destruct (Py.lt (x - inject_Z f) (1 # 2)) eqn:L.
  - apply lt_true in L. lra.
  - apply lt_false in L.
    destruct (Py.gt (x - inject_Z f) (1 # 2)) eqn:G.
    + rewrite inject_Z_plus. change (inject_Z 1) with 1. lra.
    + apply gt_false in G. destruct (Z.even f).
      * lra.
      * rewrite inject_Z_plus. change (inject_Z 1) with 1. lra.
Qed.

Lemma zoom_in_growing (ow oh k : Z) (it : WheelItem) :
  (0 < ow)%Z -> growing ow oh k it -> growing ow oh (k + 1) (zoom_in it 2).
Proof.
  intros Hw [Ho [[Hdone Hg] | (r & Him & Hr & Hrange & Hk)]].
  - unfold zoom_in. rewrite Hdone, Ho. cbn [fst].
    replace (ow * 2 - ow * 2)%Z with 0%Z by lia. cbn.
    split; [exact Ho | left; split; [exact Hdone | exact Hg]].
  - unfold zoom_in. rewrite Him, Ho. cbn [fst].
    replace (Z.abs (ow + r - ow * 2)) with (ow - r)%Z by lia.
    destruct (Z.eqb_spec (ow - r) 0) as [? | _]; [lia |].
    destruct (Z.gtb_spec (ow - r) 1) as [Hgt | Hle].
    + split; [exact Ho |]. right. cbn [image grow set_image_grow].
      set (g' := grow it + inject_Z (ow - r) * (2 # 10)).
      exists (Py.round g'). split; [reflexivity |]. split; [reflexivity |].
      destruct (round_near (grow it)) as [Ra Rb]. rewrite <- Hr in Ra, Rb.
      destruct (round_near g') as [Ra' Rb'].
      assert (Hd : 2 <= inject_Z (ow - r))
        by (change 2 with (inject_Z 2); rewrite <- Zle_Qle; lia).
      assert (Hr0 : 0 <= inject_Z r)
        by (change 0 with (inject_Z 0); rewrite <- Zle_Qle; lia).
      assert (Hd' : inject_Z (ow - r) == inject_Z ow - inject_Z r)
        by (unfold Zminus; rewrite inject_Z_plus, inject_Z_opp; ring).
      subst g'. set (d := inject_Z (ow - r)) in *. set (g := grow it) in *.
      split; [split |].
      * assert (- (1) < inject_Z (Py.round (g + d * (2 # 10)))) by lra.
        change (- (1)) with (inject_Z (-1)) in H. rewrite <- Zlt_Qlt in H. lia.
      * assert (inject_Z (Py.round (g + d * (2 # 10))) < inject_Z ow) by lra.
        rewrite <- Zlt_Qlt in H. lia.
      * rewrite inject_Z_plus. change (inject_Z 1) with 1. lra.
    + split; [exact Ho |]. left. cbn [image grow set_image_grow].
      split; [reflexivity | lia].
Qed.

Lemma zoom_ins_growing (n : nat) :
  forall (ow oh k : Z) (it : WheelItem),
  (0 < ow)%Z -> growing ow oh k it ->
  growing ow oh (k + Z.of_nat n) (zoom_ins n it).
Proof.
  induction n as [| n IH]; intros ow oh k it Hw Hg.
  - cbn [zoom_ins Z.of_nat]. rewrite Z.add_0_r. exact Hg.
  - cbn [zoom_ins]. replace (k + Z.of_nat (S n))%Z with (k + 1 + Z.of_nat n)%Z by lia.
    apply IH; [exact Hw |]. apply zoom_in_growing; assumption.
Qed.

Lemma WheelItem_init_growing (idx ow oh : Z) (a : Q) :
  (0 < ow)%Z -> growing ow oh 0 (WheelItem_init idx (ow, oh) a).
Proof.
  intros Hw. split; [reflexivity |]. right. exists 0%Z.
  cbn [image grow WheelItem_init]. rewrite !Z.add_0_r.
  repeat split; try reflexivity; try lia.
  change (inject_Z 0) with 0. lra.
Qed.

(** X12. The grow animation ends at exactly double size.  For a fresh
    item with an image of positive width [ow], under repeated
    [zoom_in(2)] the width never leaves [ow .. 2 * ow], and after at most
    [3 * ow] calls the image is the original one doubled in both
    directions, and stays so. *)
Theorem zoom_in_reaches_double (idx ow oh : Z) (a : Q) (n : nat) :
  (0 < ow)%Z ->
  let it := zoom_ins n (WheelItem_init idx (ow, oh) a) in
  (ow <= fst (image it) <= 2 * ow)%Z /\
  ((3 * ow <= Z.of_nat n)%Z -> image it = ((ow * 2)%Z, (oh * 2)%Z)).
Proof.
  intros Hw. cbv zeta.
  pose proof (zoom_ins_growing n ow oh 0 _ Hw (WheelItem_init_growing idx ow oh a Hw))
    as [Ho [[Hdone _] | (r & Him & Hr & Hrange & Hk)]].
  - rewrite Hdone. cbn [fst]. split; [lia | reflexivity].
  - rewrite Him. cbn [fst]. split; [lia |]. intros Hn. exfalso.
    destruct (round_near (grow (zoom_ins n (WheelItem_init idx (ow, oh) a))))
      as [Ra _].
    rewrite <- Hr in Ra. rewrite Z.add_0_l in Hk.
    assert (Hr1 : inject_Z r + 1 <= inject_Z ow).
    { change 1 with (inject_Z 1). rewrite <- inject_Z_plus.
      rewrite <- Zle_Qle. lia. }
    assert (Hn' : 3 * inject_Z ow <= inject_Z (Z.of_nat n)).
    { change 3 with (inject_Z 3). rewrite <- inject_Z_mult, <- Zle_Qle. exact Hn. }
    assert (Hw' : 1 <= inject_Z ow)
      by (change 1 with (inject_Z 1); rewrite <- Zle_Qle; lia).
    lra.
Qed.

Lemma zoom_in_reaches_double_witness :
  let it := zoom_ins 300 (WheelItem_init 0 (100, 80)%Z (Py.radians 90)) in
  (100 <= fst (image it) <= 2 * 100)%Z /\ image it = (200, 160)%Z.
Proof.
  cbv zeta.
  destruct (zoom_in_reaches_double 0 100 80 (Py.radians 90) 300) as [A B];
    [lia |].
  split; [exact A | apply B; lia].
Defined.

Lemma zoom_out_shrinking (ow oh k : Z) (it : WheelItem) :
  shrinking ow oh k it -> shrinking ow oh (k + 1) (zoom_out it).
Proof.
  intros [Ho [Hdone | (r & Him & Hr & Hrange & Hk)]].
  - unfold zoom_out. rewrite Hdone, Ho. cbn [fst].
    rewrite Z.sub_diag. cbn. split; [exact Ho | left; exact Hdone].
  - unfold zoom_out. rewrite Him, Ho. cbn [fst].
    replace (Z.abs (ow + r - ow)) with r by lia.
    destruct (Z.eqb_spec r 0) as [? | _]; [lia |].
    destruct (Z.gtb_spec r 1) as [Hgt | Hle].
    + split; [exact Ho |]. right. cbn [image grow set_image_grow].
      set (g' := grow it - inject_Z r * (2 # 10)).
      exists (Py.round g'). split; [reflexivity |]. split; [reflexivity |].
      destruct (round_near (grow it)) as [Ra Rb]. rewrite <- Hr in Ra, Rb.
      destruct (round_near g') as [Ra' Rb'].
      assert (Hd : 2 <= inject_Z r)
        by (change 2 with (inject_Z 2); rewrite <- Zle_Qle; lia).
      assert (Hro : inject_Z r + 1 <= inject_Z ow).
      { change 1 with (inject_Z 1). rewrite <- inject_Z_plus, <- Zle_Qle. lia. }
      subst g'. set (d := inject_Z r) in *. set (g := grow it) in *.
      split; [split |].
      * assert (0 < inject_Z (Py.round (g - d * (2 # 10)))) by lra.
        change 0 with (inject_Z 0) in H. rewrite <- Zlt_Qlt in H. lia.
      * assert (inject_Z (Py.round (g - d * (2 # 10))) < inject_Z ow) by lra.
        rewrite <- Zlt_Qlt in H. lia.
      * rewrite inject_Z_plus. change (inject_Z 1) with 1. lra.
    + split; [exact Ho |]. left. reflexivity.
Qed.

Lemma zoom_outs_shrinking (n : nat) :
  forall (ow oh k : Z) (it : WheelItem),
  shrinking ow oh k it -> shrinking ow oh (k + Z.of_nat n) (zoom_outs n it).
Proof.
  induction n as [| n IH]; intros ow oh k it Hs.
  - cbn [zoom_outs Z.of_nat]. rewrite Z.add_0_r. exact Hs.
  - cbn [zoom_outs].
    replace (k + Z.of_nat (S n))%Z with (k + 1 + Z.of_nat n)%Z by lia.
    apply IH. apply zoom_out_shrinking. exact Hs.
Qed.

(** the first [zoom_out] of an item at double size *)
Lemma zoom_out_from_double (ow oh : Z) (it : WheelItem) :
  (0 < ow)%Z -> original_image it = (ow, oh) ->
  image it = ((ow * 2)%Z, (oh * 2)%Z) -> Py.round (grow it) = (ow - 1)%Z ->
  shrinking ow oh 0 (zoom_out it).
Proof.
  intros Hw Ho Him Hr. unfold zoom_out. rewrite Him, Ho. cbn [fst].
  replace (Z.abs (ow * 2 - ow)) with ow by lia.
  destruct (Z.eqb_spec ow 0) as [? | _]; [lia |].
  destruct (Z.gtb_spec ow 1) as [Hgt | Hle].
  - split; [exact Ho |]. cbn [image grow set_image_grow].
    set (g' := grow it - inject_Z ow * (2 # 10)).
    destruct (round_near (grow it)) as [Ra Rb]. rewrite Hr in Ra, Rb.
    destruct (round_near g') as [Ra' Rb'].
    assert (Hd : 2 <= inject_Z ow)
      by (change 2 with (inject_Z 2); rewrite <- Zle_Qle; lia).
    assert (Hm : inject_Z (ow - 1) == inject_Z ow - 1).
    { unfold Zminus. rewrite inject_Z_plus. change (inject_Z (- (1))) with (- (1)).
      ring. }
    rewrite Hm in Ra, Rb.
    assert (H0 : (0 <= Py.round g')%Z).
    { assert (- (1) < inject_Z (Py.round g')) by (subst g'; lra).
      change (- (1)) with (inject_Z (-1)) in H. rewrite <- Zlt_Qlt in H. lia. }
    assert (H1 : (Py.round g' <= ow - 1)%Z).
    { assert (inject_Z (Py.round g') < inject_Z ow) by (subst g'; lra).
      rewrite <- Zlt_Qlt in H. lia. }
    destruct (Z.eq_dec (Py.round g') 0) as [E | E].
    + left. rewrite E, !Z.add_0_r. reflexivity.
    + right. exists (Py.round g').
      split; [reflexivity |]. split; [reflexivity |]. split; [lia |].
      change (inject_Z 0) with 0. subst g'. lra.
  - split; [exact Ho |]. left. reflexivity.
Qed.

(** X13. The shrink animation undoes the grow animation.  Once a fresh
    item of positive width [ow] has been enlarged to double size, under
    repeated [zoom_out()] its width stays within [ow .. 2 * ow], and after
    at most [3 * ow + 1] calls its image is the original one again, and
    stays so. *)
Theorem zoom_out_returns_to_original (idx ow oh : Z) (a : Q) (n m : nat) :
  (0 < ow)%Z -> (3 * ow <= Z.of_nat n)%Z ->
  let it := zoom_outs m (zoom_ins n (WheelItem_init idx (ow, oh) a)) in
  (ow <= fst (image it) <= 2 * ow)%Z /\
  ((3 * ow + 1 <= Z.of_nat m)%Z -> image it = (ow, oh)).
Proof.
  intros Hw Hn. cbv zeta.
  set (big := zoom_ins n (WheelItem_init idx (ow, oh) a)).
  assert (Hbig : original_image big = (ow, oh) /\
                 image big = ((ow * 2)%Z, (oh * 2)%Z) /\
                 Py.round (grow big) = (ow - 1)%Z).
  { pose proof (zoom_ins_growing n ow oh 0 _ Hw
                  (WheelItem_init_growing idx ow oh a Hw))
      as [Ho [[Hdone Hg] | (r & Him & Hr & Hrange & Hk)]];
      [fold big in Ho, Hdone, Hg; auto |].
    exfalso. fold big in Hr, Hk.
    destruct (round_near (grow big)) as [Ra _]. rewrite <- Hr in Ra.
    rewrite Z.add_0_l in Hk.
    assert (Hr1 : inject_Z r + 1 <= inject_Z ow).
    { change 1 with (inject_Z 1). rewrite <- inject_Z_plus, <- Zle_Qle. lia. }
    assert (Hn' : 3 * inject_Z ow <= inject_Z (Z.of_nat n)).
    { change 3 with (inject_Z 3). rewrite <- inject_Z_mult, <- Zle_Qle. exact Hn. }
    assert (Hw' : 1 <= inject_Z ow)
      by (change 1 with (inject_Z 1); rewrite <- Zle_Qle; lia).
    lra. }
  destruct Hbig as (Ho & Him & Hg).
  destruct m as [| m].
  - cbn [zoom_outs]. rewrite Him. cbn [fst]. split; [lia |].
    cbn [Z.of_nat]. lia.
  - cbn [zoom_outs].
    pose proof (zoom_outs_shrinking m ow oh 0 _
                  (zoom_out_from_double ow oh big Hw Ho Him Hg))
      as [Ho' [Hdone | (r & Him' & Hr & Hrange & Hk)]].
    + rewrite Hdone. cbn [fst]. split; [lia | reflexivity].
    + rewrite Him'. cbn [fst]. split; [lia |]. intros Hm. exfalso.
      destruct (round_near (grow (zoom_outs m (zoom_out big)))) as [_ Rb].
      rewrite <- Hr in Rb. rewrite Z.add_0_l in Hk.
      assert (Hr1 : 1 <= inject_Z r)
        by (change 1 with (inject_Z 1); rewrite <- Zle_Qle; lia).
      assert (Hm' : 3 * inject_Z ow <= inject_Z (Z.of_nat m)).
      { change 3 with (inject_Z 3). rewrite <- inject_Z_mult, <- Zle_Qle. lia. }
      assert (Hw' : 1 <= inject_Z ow)
        by (change 1 with (inject_Z 1); rewrite <- Zle_Qle; lia).
      lra.
Qed.

Lemma zoom_out_returns_to_original_witness :
  let it := zoom_outs 301 (zoom_ins 300
              (WheelItem_init 0 (100, 80)%Z (Py.radians 90))) in
  (100 <= fst (image it) <= 2 * 100)%Z /\ image it = (100, 80)%Z.
Proof.
  cbv zeta.
  destruct (zoom_out_returns_to_original 0 100 80 (Py.radians 90) 300 301)
    as [A B]; [lia | lia |].
  split; [exact A | apply B; lia].
Defined.

End ZoomAnimation.

(** ** The items of the wheel *)

Section WheelItems.






End WheelItems.

(** ** The font cache *)

Section FontCache.

Lemma sdict_get_app {V} (d : list (string * V)) (k k' : string) (v : V) :
  sdict_get (d ++ [(k', v)]) k =
  match sdict_get d k with
  | Some x => Some x
  | None => if String.eqb k' k then Some v else None
  end.
Proof.
  induction d as [| [k0 v0] d IH]; cbn [app sdict_get]; [reflexivity |].
  destruct (String.eqb k0 k); [reflexivity | exact IH].
Qed.

Lemma get_font_keeps (cache : list (string * Font)) (font : option string)
  (size : Z) (k : string) (f : Font) :
  sdict_get cache k = Some f ->
  sdict_get (snd (get_font cache font size)) k = Some f.
Proof.
  intros H. unfold get_font.
  destruct (sdict_get cache (str_font font ++ str_int size)); cbn [snd];
    [exact H |].
  rewrite sdict_get_app, H. reflexivity.
Qed.

Lemma get_fonts_keeps (requests : list (option string * Z)) :
  forall (cache : list (string * Font)) (k : string) (f : Font),
  sdict_get cache k = Some f -> sdict_get (get_fonts cache requests) k = Some f.
Proof.
  induction requests as [| [font size] requests IH]; intros cache k f H;
    [exact H |].
  cbn [get_fonts]. apply IH. apply get_font_keeps. exact H.
Qed.

Lemma get_font_cached (cache : list (string * Font)) (font : option string)
  (size : Z) :
  sdict_get (snd (get_font cache font size)) (str_font font ++ str_int size)
  = Some (fst (get_font cache font size)).
Proof.
  unfold get_font.
  destruct (sdict_get cache (str_font font ++ str_int size)) eqn:E;
    cbn [fst snd]; [exact E |].
  rewrite sdict_get_app, E, String.eqb_refl. reflexivity.
Qed.

(** X15. The font cache never replaces a font: whatever [get_font]
    returned for a font and a size, it returns again for the same font
    and size after any other calls, and that later call leaves the cache
    as it is. *)
Theorem get_font_is_stable (cache : list (string * Font))
  (font : option string) (size : Z) (requests : list (option string * Z)) :
  let first := get_font cache font size in
  let later := get_fonts (snd first) requests in
  get_font later font size = (fst first, later).
Proof.
  cbv zeta.
  pose proof (get_fonts_keeps requests _ _ _ (get_font_cached cache font size))
    as H.
  unfold get_font at 1. rewrite H. reflexivity.
Qed.

Lemma append_assoc_char (p : string) :
  ((p ++ "1") ++ "2")%string = (p ++ "12")%string.
Proof. induction p as [| c p IH]; cbn; [reflexivity | rewrite IH; reflexivity]. Qed.

(** X16. The cache key [str(font) + str(size)] does not tell every font
    and size apart: for every file name [p], once the font [p + "1"] was
    requested at size 2, a request for the font [p] at size 12 is answered
    with that other font, at size 2. *)
Theorem get_font_key_collision (p : string) :
  let cache := snd (get_font [] (Some (p ++ "1")%string) 2) in
  fst (get_font cache (Some p) 12) = mkFont (Some (p ++ "1")%string) 2.
Proof.
  cbv zeta. unfold get_font at 2. cbn [sdict_get snd].
  unfold get_font. cbn [str_font].
  change (str_int 12) with "12"%string. change (str_int 2) with "2"%string.
  cbn [app sdict_get]. rewrite append_assoc_char, String.eqb_refl. reflexivity.
Qed.

End FontCache.

(** ** The logo in the background *)

Section BackgroundLogo.

Lemma bglogo_update_fade (s s' : BGLogo.t) (d d' : BGLogo.draws) :
  BGLogo.fade s = BGLogo.fade s' ->
  BGLogo.fade (BGLogo.update s d) = BGLogo.fade (BGLogo.update s' d').
Proof.
  destruct s as [st a m t w tg fx fy vx vy].
  destruct s' as [st' a' m' t' w' tg' fx' fy' vx' vy'].
  destruct d as [[rw rh] [cx cy] sp], d' as [[rw' rh'] [cx' cy'] sp'].
  unfold BGLogo.fade. cbn. intros H.
  inversion H as [[Hst Ha Hm Ht Hw Htg]]. clear H.
  unfold BGLogo.update, BGLogo.set_fade, BGLogo.reset. cbn.
  destruct (negb (st' =? 0)%Z); cbn.
  - destruct tg'; cbn; [| reflexivity].
    destruct (negb (t' =? 0)%Z); cbn; [reflexivity |].
    destruct (a' >? 0)%Z; cbn; [reflexivity |].
    destruct (negb (w' =? 0)%Z); cbn; reflexivity.
  - destruct ((a' <? m')%Z && negb tg')%bool eqn:C; cbn.
    + destruct tg'; cbn; [| reflexivity].
      destruct (negb (t' =? 0)%Z); cbn; [reflexivity |].
      destruct (a' + 1 >? 0)%Z; cbn; [reflexivity |].
      destruct (negb (w' =? 0)%Z); cbn; reflexivity.
    + destruct (negb (t' =? 0)%Z); cbn; [reflexivity |].
      destruct (a' >? 0)%Z; cbn; [reflexivity |].
      destruct (negb (w' =? 0)%Z); cbn; reflexivity.
Qed.

Lemma bglogo_update_alpha (s : BGLogo.t) (d : BGLogo.draws) :
  BGLogo.max_alpha s = 30%Z -> (0 <= BGLogo.alpha s <= 30)%Z ->
  BGLogo.max_alpha (BGLogo.update s d) = 30%Z /\
  (0 <= BGLogo.alpha (BGLogo.update s d) <= 30)%Z.
Proof.
  destruct s as [st a m t w tg fx fy vx vy].
  destruct d as [[rw rh] [cx cy] sp].
  cbn. intros -> Ha.
  unfold BGLogo.update, BGLogo.set_fade, BGLogo.reset. cbn.
  destruct (negb (st =? 0)%Z); cbn.
  - destruct tg; cbn; [| split; [reflexivity | lia]].
    destruct (negb (t =? 0)%Z); cbn; [split; [reflexivity | lia] |].
    destruct (Z.gtb_spec a 0); cbn; [split; [reflexivity | lia] |].
    destruct (negb (w =? 0)%Z); cbn; split; (reflexivity || lia).
  - destruct (Z.ltb_spec a 30); destruct tg; cbn;
      try (split; [reflexivity | lia]).
    all: destruct (negb (t =? 0)%Z); cbn; [split; [reflexivity | lia] |].
    all: destruct (Z.gtb_spec a 0); cbn; [split; [reflexivity | lia] |].
    all: destruct (negb (w =? 0)%Z); cbn; split; (reflexivity || lia).
Qed.

(** X17. The alpha of the background logo stays between 0 and its maximum
    of 30 in every frame, whatever [random] draws at the resets. *)
Theorem bglogo_alpha_in_range (n : nat) (ds : nat -> BGLogo.draws)
  (d0 : BGLogo.draws) :
  BGLogo.max_alpha (BGLogo.run n ds d0) = 30%Z /\
  (0 <= BGLogo.alpha (BGLogo.run n ds d0) <= 30)%Z.
Proof.
  induction n as [| n [IHm IHa]].
  - destruct d0 as [[rw rh] [cx cy] sp]. cbn. split; [reflexivity | lia].
  - cbn [BGLogo.run]. apply bglogo_update_alpha; assumption.
Qed.

Lemma bglogo_run_fade (n : nat) (ds ds' : nat -> BGLogo.draws)
  (d0 d0' : BGLogo.draws) :
  BGLogo.fade (BGLogo.run n ds d0) = BGLogo.fade (BGLogo.run n ds' d0').
Proof.
  induction n as [| n IH].
  - destruct d0 as [[rw rh] [cx cy] sp], d0' as [[rw' rh'] [cx' cy'] sp'].
    reflexivity.
  - cbn [BGLogo.run]. apply bglogo_update_fade. exact IH.
Qed.

(** X18. The fade of the background logo is periodic: after the 120
    frames before the first fade-in, its timers and its alpha repeat every
    481 frames (30 frames of fade-in, one frame that ends it, 240 frames
    shown, 30 frames of fade-out, 180 frames hidden), whatever [random]
    draws. *)
Theorem bglogo_fade_period (k : nat) (ds : nat -> BGLogo.draws)
  (d0 : BGLogo.draws) :
  BGLogo.fade (BGLogo.run (k + 120 + 481) ds d0) =
  BGLogo.fade (BGLogo.run (k + 120) ds d0).
Proof.
  induction k as [| k IH].
  - rewrite (bglogo_run_fade (0 + 120 + 481) ds
               (fun _ => BGLogo.mkDraws (0, 0)%Z (0, 0)%Z (0, 0)%Z) d0
               (BGLogo.mkDraws (0, 0)%Z (0, 0)%Z (0, 0)%Z)).
    rewrite (bglogo_run_fade (0 + 120) ds
               (fun _ => BGLogo.mkDraws (0, 0)%Z (0, 0)%Z (0, 0)%Z) d0
               (BGLogo.mkDraws (0, 0)%Z (0, 0)%Z (0, 0)%Z)).
    transitivity (0, 0, 30, 240, 180, false)%Z; [| symmetry];
      vm_compute; reflexivity.
  - cbn [Nat.add BGLogo.run]. apply bglogo_update_fade. exact IH.
Qed.

End BackgroundLogo.

(** * The wheel in binary64 *)

(** ** Rounding to binary64 *)

Section Rounding.

Import Stdlib.Floats.Floats.
Import Round64.
Local Open Scope Z_scope.

Lemma digits2_pos_bounds (p : positive) :
  2 ^ (Zpos (digits2_pos p) - 1) <= Zpos p < 2 ^ Zpos (digits2_pos p).
Proof.
  induction p as [p IH | p IH |]; cbn [digits2_pos].
  - rewrite Pos2Z.inj_succ.
    replace (Z.succ (Zpos (digits2_pos p)) - 1) with (Z.succ (Zpos (digits2_pos p) - 1)) by lia.
    rewrite !Z.pow_succ_r by lia. lia.
  - rewrite Pos2Z.inj_succ.
    replace (Z.succ (Zpos (digits2_pos p)) - 1) with (Z.succ (Zpos (digits2_pos p) - 1)) by lia.
    rewrite !Z.pow_succ_r by lia. lia.
  - cbn. lia.
Qed.

Lemma digits2_pos_unique (p : positive) (k : Z) :
  2 ^ (k - 1) <= Zpos p < 2 ^ k -> Zpos (digits2_pos p) = k.
Proof.
  intros [H1 H2]. pose proof (digits2_pos_bounds p) as [H3 H4].
  assert (0 < k).
  { destruct (Z_lt_le_dec 0 k) as [? | Hk]; [assumption |].
    destruct (Z.eq_dec k 0) as [-> | ?]; [cbn in H2; lia |].
    rewrite Z.pow_neg_r in H2 by lia. lia. }
  destruct (Z_lt_le_dec (Zpos (digits2_pos p)) k) as [Hlt | Hge].
  - assert (2 ^ Zpos (digits2_pos p) <= 2 ^ (k - 1))
      by (apply Z.pow_le_mono_r; lia). lia.
  - destruct (Z_lt_le_dec k (Zpos (digits2_pos p))) as [Hlt | Hle]; [| lia].
    assert (2 ^ k <= 2 ^ (Zpos (digits2_pos p) - 1))
      by (apply Z.pow_le_mono_r; lia). lia.
Qed.

Lemma iter_xO_pow (m d : positive) :
  Zpos (Pos.iter xO m d) = Zpos m * 2 ^ Zpos d.
Proof.
  induction d as [| d IH] using Pos.peano_ind.
  - cbn. lia.
  - rewrite Pos.iter_succ, Pos2Z.inj_xO, IH, Pos2Z.inj_succ, Z.pow_succ_r by lia.
    lia.
Qed.

Lemma shl_align_value (mx : positive) (ex ez : Z) :
  ez <= ex ->
  Zpos (fst (shl_align mx ex ez)) = Zpos mx * 2 ^ (ex - ez).
Proof.
  intros H. unfold shl_align.
  destruct (ez - ex) as [| d | d] eqn:E; cbn [fst].
  - replace (ex - ez) with 0 by lia. cbn. lia.
  - lia.
  - rewrite iter_xO_pow. replace (ex - ez) with (Zpos d) by lia. reflexivity.
Qed.

Lemma div_pow2_succ (M k : Z) :
  0 <= k -> M / 2 ^ (k + 1) = M / 2 ^ k / 2.
Proof.
  intros Hk. rewrite Z.pow_add_r, Z.pow_1_r by lia.
  rewrite Z.div_div; [reflexivity | | lia].
  pose proof (Z.pow_pos_nonneg 2 k). lia.
Qed.

Lemma mod_pow2_succ (M k : Z) :
  0 <= k -> M mod 2 ^ (k + 1) = 0 ->
  M mod 2 ^ k = 0 /\ (M / 2 ^ k) mod 2 = 0.
Proof.
  intros Hk H.
  assert (Hp : 0 < 2 ^ k) by (apply Z.pow_pos_nonneg; lia).
  apply Z.mod_divide in H; [| rewrite Z.pow_add_r, Z.pow_1_r by lia; lia].
  destruct H as [q Hq]. rewrite Z.pow_add_r, Z.pow_1_r in Hq by lia.
  assert (E : M = (2 * q) * 2 ^ k) by lia.
  split.
  - rewrite E. apply Z.mod_mul. lia.
  - rewrite E, Z.div_mul by lia. rewrite Z.mul_comm. apply Z.mod_mul. lia.
Qed.

Lemma shr_1_inv (M k : Z) (mrs : shr_record) :
  0 <= M -> 0 <= k -> shr_inv M k mrs -> shr_inv M (k + 1) (shr_1 mrs).
Proof.
  intros HM Hk [Hm Hx]. unfold shr_inv.
  rewrite div_pow2_succ by exact Hk.
  assert (Hp : 0 < 2 ^ k) by (apply Z.pow_pos_nonneg; lia).
  assert (Hq : 0 <= M / 2 ^ k) by (apply Z.div_pos; lia).
  destruct mrs as [m r s]. cbn [shr_m shr_r shr_s] in *. rewrite <- Hm in *.
  split.
  - destruct m as [| [p | p |] | p]; cbn [shr_1 shr_m]; try lia.
    + reflexivity.
    + rewrite Pos2Z.inj_xI. apply Z.div_unique with 1; lia.
    + rewrite Pos2Z.inj_xO. apply Z.div_unique with 0; lia.
    + reflexivity.
  - intros H0. apply mod_pow2_succ in H0; [| exact Hk].
    destruct H0 as [H0 H1]. rewrite <- Hm in H1.
    destruct (Hx H0) as [-> ->].
    destruct m as [| [p | p |] | p]; cbn [shr_1 shr_r shr_s orb];
      try (split; reflexivity); try lia.
    + rewrite Pos2Z.inj_xI in H1.
      rewrite Z.add_comm, Z.mul_comm, Z.mod_add in H1 by lia.
      cbn in H1. discriminate.
    + cbn in H1. discriminate.
Qed.

Lemma iter_shr_1_inv (M : Z) (p : positive) :
  0 <= M ->
  forall (k : Z) (mrs : shr_record),
  0 <= k -> shr_inv M k mrs -> shr_inv M (k + Zpos p) (iter_pos shr_1 p mrs).
Proof.
  intros HM. induction p as [p IH | p IH |]; intros k mrs Hk H;
    cbn [iter_pos].
  - replace (k + Zpos p~1) with (k + 1 + Zpos p + Zpos p) by lia.
    apply IH; [lia |]. apply IH; [lia |]. apply shr_1_inv; assumption.
  - replace (k + Zpos p~0) with (k + Zpos p + Zpos p) by lia.
    apply IH; [lia |]. apply IH; assumption.
  - apply shr_1_inv; assumption.
Qed.

Lemma shr_exact (M : Z) (n : positive) :
  0 <= M ->
  shr_inv M (Zpos n) (iter_pos shr_1 n (Build_shr_record M false false)).
Proof.
  intros HM. change (Zpos n) with (0 + Zpos n).
  apply iter_shr_1_inv; [exact HM | lia |].
  split; cbn [shr_m shr_r shr_s]; [rewrite Z.pow_0_r, Z.div_1_r; reflexivity |].
  intros _. split; reflexivity.
Qed.

Lemma round_nearest_even_bounds (m : Z) (l : location) :
  m <= round_nearest_even m l <= m + 1.
Proof.
  destruct l as [| []]; cbn [round_nearest_even]; try lia.
  destruct (Z.even m); lia.
Qed.


Lemma fexp_eq (x : Z) : fexp prec emax x = Z.max (x - 53) (-1074).
Proof. reflexivity. Qed.

Lemma shr_fexp_first (mz : positive) (e F : Z) :
  F = Z.max (Zpos (digits2_pos mz) + e - 53) (-1074) ->
  e <= F ->
  exists mrs, shr_fexp prec emax (Zpos mz) e loc_Exact = (mrs, F) /\
              shr_inv (Zpos mz) (F - e) mrs.
Proof.
  intros EF HF. unfold shr_fexp. rewrite fexp_eq. cbn [Zdigits2 shr_record_of_loc].
  rewrite <- EF. unfold shr.
  destruct (F - e) as [| n | n] eqn:E.
  - eexists. split; [f_equal; lia |].
    split; cbn [shr_m shr_r shr_s]; [rewrite Z.pow_0_r, Z.div_1_r; reflexivity |].
    intros _. split; reflexivity.
  - eexists. split; [f_equal; lia |]. apply shr_exact. lia.
  - lia.
Qed.

Lemma shr_fexp_second (m2 F : Z) :
  0 <= m2 <= 2 ^ 53 -> -1074 <= F ->
  shr_fexp prec emax m2 F loc_Exact =
  if m2 =? 2 ^ 53 then (Build_shr_record (2 ^ 52) false false, F + 1)
  else (Build_shr_record m2 false false, F).
Proof.
  intros Hm HF. unfold shr_fexp. rewrite fexp_eq. cbn [shr_record_of_loc].
  destruct (Z.eqb_spec m2 (2 ^ 53)) as [-> | Hne].
  - change (Zdigits2 (2 ^ 53)) with 54.
    replace (Z.max (54 + F - 53) (-1074) - F) with 1 by lia.
    reflexivity.
  - assert (Hd : Zdigits2 m2 <= 53).
    { destruct m2 as [| p | p]; cbn [Zdigits2]; [lia | | lia].
      pose proof (digits2_pos_bounds p) as [H1 _].
      destruct (Z_lt_le_dec 53 (Zpos (digits2_pos p))) as [Hgt | ?]; [| lia].
      assert (2 ^ 53 <= 2 ^ (Zpos (digits2_pos p) - 1))
        by (apply Z.pow_le_mono_r; lia). lia. }
    unfold shr.
    destruct (Z.max (Zdigits2 m2 + F - 53) (-1074) - F) eqn:E;
      [reflexivity | lia | reflexivity].
Qed.

Lemma binary_round_aux_shape (s : bool) (mz : positive) (e F : Z) :
  F = Z.max (Zpos (digits2_pos mz) + e - 53) (-1074) ->
  e <= F ->
  exists m2 : Z,
    Zpos mz / 2 ^ (F - e) <= m2 <= Zpos mz / 2 ^ (F - e) + 1 /\
    (Zpos mz mod 2 ^ (F - e) = 0 -> m2 = Zpos mz / 2 ^ (F - e)) /\
    m2 <= 2 ^ 53 /\
    binary_round_aux prec emax s (Zpos mz) e loc_Exact = round_result s m2 F.
Proof.
  intros EF HF.
  destruct (shr_fexp_first mz e F EF HF) as (mrs & E1 & Hm & Hx).
  set (m2 := round_nearest_even (shr_m mrs) (loc_of_shr_record mrs)).
  pose proof (round_nearest_even_bounds (shr_m mrs) (loc_of_shr_record mrs))
    as Hb. fold m2 in Hb. rewrite Hm in Hb.
  assert (Hp : 0 < 2 ^ (F - e)) by (apply Z.pow_pos_nonneg; lia).
  assert (Hq : 0 <= Zpos mz / 2 ^ (F - e)) by (apply Z.div_pos; lia).
  assert (Hex : Zpos mz mod 2 ^ (F - e) = 0 -> m2 = Zpos mz / 2 ^ (F - e)).
  { intros H0. destruct (Hx H0) as [Hr Hs]. subst m2.
    destruct mrs as [m r t]. cbn [shr_m shr_r shr_s] in *. subst r t.
    cbn [loc_of_shr_record round_nearest_even]. exact Hm. }
  assert (Hlt : Zpos mz / 2 ^ (F - e) < 2 ^ 53).
  { apply Z.div_lt_upper_bound; [exact Hp |].
    pose proof (digits2_pos_bounds mz) as [_ H2].
    rewrite <- Z.pow_add_r by lia.
    eapply Z.lt_le_trans; [exact H2 |]. apply Z.pow_le_mono_r; lia. }
  exists m2. split; [exact Hb |]. split; [exact Hex |].
  split; [lia |].
  unfold binary_round_aux. rewrite E1. fold m2.
  rewrite shr_fexp_second by lia. unfold round_result.
  destruct (Z.eqb_spec m2 (2 ^ 53)) as [E | NE]; cbn [shr_m]; reflexivity.
Qed.

Lemma binary_round_shape (s : bool) (zp : positive) (ez F : Z) :
  -1074 <= ez ->
  F = Z.max (Zpos (digits2_pos zp) + ez - 53) (-1074) ->
  exists m2 : Z,
    Zpos zp * 2 ^ (ez + 1074) / 2 ^ (F + 1074) <= m2
      <= Zpos zp * 2 ^ (ez + 1074) / 2 ^ (F + 1074) + 1 /\
    ((Zpos zp * 2 ^ (ez + 1074)) mod 2 ^ (F + 1074) = 0 ->
     m2 = Zpos zp * 2 ^ (ez + 1074) / 2 ^ (F + 1074)) /\
    m2 <= 2 ^ 53 /\
    binary_round prec emax s zp ez = round_result s m2 F.
Proof.
  intros Hez EF. unfold binary_round. rewrite fexp_eq, <- EF.
  set (V := Zpos zp * 2 ^ (ez + 1074)). set (G := 2 ^ (F + 1074)).
  assert (HF : -1074 <= F) by lia.
  assert (HG : 0 < G) by (apply Z.pow_pos_nonneg; lia).
  unfold shl_align.
  destruct (F - ez) as [| n | d] eqn:E.
  - (* F = ez *)
    destruct (binary_round_aux_shape s zp ez F EF) as (m2 & H1 & H2 & H3 & H4);
      [lia |].
    rewrite E, Z.pow_0_r, Z.div_1_r in *. rewrite Z.mod_1_r in H2.
    assert (m2 = Zpos zp) by auto.
    assert (EV : V / G = Zpos zp).
    { subst V G. replace (F + 1074) with (ez + 1074) by lia.
      apply Z.div_mul. lia. }
    exists m2. rewrite EV. repeat split; try lia. exact H4.
  - (* ez < F *)
    destruct (binary_round_aux_shape s zp ez F EF) as (m2 & H1 & H2 & H3 & H4);
      [lia |].
    assert (Hp : 0 < 2 ^ (F - ez)) by (apply Z.pow_pos_nonneg; lia).
    assert (Hu : 0 < 2 ^ (ez + 1074)) by (apply Z.pow_pos_nonneg; lia).
    assert (EG : G = 2 ^ (F - ez) * 2 ^ (ez + 1074)).
    { subst G. rewrite <- Z.pow_add_r by lia. f_equal. lia. }
    assert (EV : V / G = Zpos zp / 2 ^ (F - ez)).
    { subst V. rewrite EG. apply Z.div_mul_cancel_r; lia. }
    assert (EM : V mod G = 0 -> Zpos zp mod 2 ^ (F - ez) = 0).
    { subst V. rewrite EG. rewrite Z.mul_mod_distr_r by lia. nia. }
    exists m2. rewrite EV. repeat split; try lia; auto.
  - (* F < ez *)
    set (mz := Pos.iter xO zp d).
    assert (Emz : Zpos mz = Zpos zp * 2 ^ Zpos d) by apply iter_xO_pow.
    assert (Hp : 0 < 2 ^ Zpos d) by (apply Z.pow_pos_nonneg; lia).
    assert (Dz : Zpos (digits2_pos mz) = Zpos (digits2_pos zp) + Zpos d).
    { apply digits2_pos_unique. rewrite Emz.
      pose proof (digits2_pos_bounds zp) as [H1 H2].
      replace (Zpos (digits2_pos zp) + Zpos d - 1)
        with (Zpos (digits2_pos zp) - 1 + Zpos d) by lia.
      rewrite !Z.pow_add_r by lia. nia. }
    destruct (binary_round_aux_shape s mz F F) as (m2 & H1 & H2 & H3 & H4);
      [rewrite Dz; lia | lia |].
    rewrite Z.sub_diag, Z.pow_0_r, Z.div_1_r in *. rewrite Z.mod_1_r in H2.
    assert (m2 = Zpos mz) by auto.
    assert (EV : V = Zpos mz * G).
    { subst V G. rewrite Emz. replace (ez + 1074) with (Zpos d + (F + 1074)) by lia.
      rewrite Z.pow_add_r by lia. lia. }
    assert (EQ : V / G = Zpos mz) by (rewrite EV; apply Z.div_mul; lia).
    exists m2. rewrite EQ. repeat split; try lia. exact H4.
Qed.


Ltac cmp_cases :=
  repeat match goal with
    | H : context [Pos.compare_cont Eq ?x ?y] |- _ =>
        change (Pos.compare_cont Eq x y) with (Pos.compare x y) in H
    | |- context [Pos.compare_cont Eq ?x ?y] =>
        change (Pos.compare_cont Eq x y) with (Pos.compare x y)
    end;
  repeat match goal with
    | H : context [Z.compare ?x ?y] |- _ =>
        destruct (Z.compare_spec x y); cbn [CompOpp] in *;
        try discriminate; try subst
    | |- context [Z.compare ?x ?y] =>
        destruct (Z.compare_spec x y); cbn [CompOpp] in *;
        try discriminate; try subst
    | H : context [Pos.compare ?x ?y] |- _ =>
        destruct (Pos.compare_spec x y); cbn [CompOpp] in *;
        try discriminate; try subst
    | |- context [Pos.compare ?x ?y] =>
        destruct (Pos.compare_spec x y); cbn [CompOpp] in *;
        try discriminate; try subst
    end;
  try reflexivity; try discriminate; try lia.

Lemma SFltb_trans (a b c : spec_float) :
  SFltb a b = true -> SFltb b c = true -> SFltb a c = true.
Proof.
  unfold SFltb, SFcompare.
  destruct a as [sa | sa | | sa ma ea], b as [sb | sb | | sb mb eb],
           c as [sc | sc | | sc mc ec];
    try destruct sa; try destruct sb; try destruct sc;
    try discriminate; try reflexivity; intros H1 H2; cmp_cases.
Qed.

Lemma SFltb_le_trans (a b c : spec_float) :
  SFltb a b = true -> SFltb c b = false -> c <> S754_nan -> SFltb a c = true.
Proof.
  unfold SFltb, SFcompare.
  destruct a as [sa | sa | | sa ma ea], b as [sb | sb | | sb mb eb],
           c as [sc | sc | | sc mc ec];
    try destruct sa; try destruct sb; try destruct sc;
    try discriminate; try reflexivity; try congruence; intros H1 H2 _;
    cmp_cases.
Qed.

Lemma SFle_ltb_trans (a b c : spec_float) :
  SFltb b a = false -> a <> S754_nan -> SFltb b c = true -> SFltb a c = true.
Proof.
  unfold SFltb, SFcompare.
  destruct a as [sa | sa | | sa ma ea], b as [sb | sb | | sb mb eb],
           c as [sc | sc | | sc mc ec];
    try destruct sa; try destruct sb; try destruct sc;
    try discriminate; try reflexivity; try congruence; intros H1 _ H2;
    cmp_cases.
Qed.

Lemma SFle_le_trans (a b c : spec_float) :
  SFltb a b = false -> SFltb b c = false -> b <> S754_nan -> SFltb a c = false.
Proof.
  unfold SFltb, SFcompare.
  destruct a as [sa | sa | | sa ma ea], b as [sb | sb | | sb mb eb],
           c as [sc | sc | | sc mc ec];
    try destruct sa; try destruct sb; try destruct sc;
    try discriminate; try reflexivity; try congruence; intros H1 H2 _;
    cmp_cases.
Qed.

Lemma bounded_canonical (m : positive) (e : Z) :
  bounded prec emax m e = true ->
  -1074 <= e <= 971 /\ Zpos m < 2 ^ 53 /\ (-1074 < e -> 2 ^ 52 <= Zpos m).
Proof.
  unfold bounded, canonical_mantissa. rewrite fexp_eq.
  intros H. apply andb_true_iff in H. destruct H as [H1 H2].
  apply Z.eqb_eq in H1. apply Z.leb_le in H2. change (emax - prec) with 971 in H2.
  pose proof (digits2_pos_bounds m) as [H3 H4].
  repeat split; try lia.
  - eapply Z.lt_le_trans; [exact H4 |]. apply Z.pow_le_mono_r; lia.
  - intros He. replace (Zpos (digits2_pos m)) with 53 in H3 by lia. exact H3.
Qed.

Lemma pow2_1074_split (e : Z) :
  -1074 <= e ->
  (e < -51 -> 2 * 2 ^ (e + 1074) <= 2 ^ 1023) /\
  (-51 < e -> 2 * 2 ^ 1023 <= 2 ^ (e + 1074)) /\
  0 < 2 ^ (e + 1074).
Proof.
  intros He. repeat split.
  - intros H. rewrite <- Z.pow_succ_r by lia. apply Z.pow_le_mono_r; lia.
  - intros H. rewrite <- Z.pow_succ_r by lia. apply Z.pow_le_mono_r; lia.
  - apply Z.pow_pos_nonneg; lia.
Qed.

Lemma SFltb_pi_value_aux (m : positive) (e K X : Z) :
  -1074 <= e <= 971 ->
  Zpos m < 9007199254740992 ->
  (-1074 < e -> 4503599627370496 <= Zpos m) ->
  0 < K -> 0 < X ->
  (e < -51 -> 2 * X <= K) ->
  (-51 < e -> 2 * K <= X) ->
  (e = -51 -> X = K) ->
  match
    match -51 ?= e with
    | Eq => Pos.compare_cont Eq 7074237752028440 m
    | Lt => Lt
    | Gt => Gt
    end
  with
  | Lt => true
  | _ => false
  end = (7074237752028440 * K <? Zpos m * X).
Proof.
  intros He Hm Hn HK P3 P1 P2 EX.
  change (Pos.compare_cont Eq 7074237752028440 m)
    with (Pos.compare 7074237752028440 m).
  destruct (Z.compare_spec (-51) e) as [E | E | E].
  - rewrite (EX (eq_sym E)).
    destruct (Pos.compare_spec 7074237752028440 m) as [E' | E' | E'];
      symmetry.
    + apply Z.ltb_ge. subst m. apply Z.le_refl.
    + apply Z.ltb_lt. apply Z.mul_lt_mono_pos_r; [exact HK |].
      apply Pos2Z.pos_lt_pos. exact E'.
    + apply Z.ltb_ge. apply Z.mul_le_mono_nonneg_r; [apply Z.lt_le_incl, HK |].
      apply Z.lt_le_incl, Pos2Z.pos_lt_pos. exact E'.
  - symmetry. apply Z.ltb_lt. specialize (P2 E). specialize (Hn ltac:(lia)).
    assert (4503599627370496 * X <= Zpos m * X)
      by (apply Z.mul_le_mono_nonneg_r; lia).
    lia.
  - symmetry. apply Z.ltb_ge. specialize (P1 E).
    assert (Zpos m * X <= 9007199254740992 * X)
      by (apply Z.mul_le_mono_nonneg_r; lia).
    lia.
Qed.

Lemma SFltb_pi_value (m : positive) (e : Z) :
  bounded prec emax m e = true ->
  SFltb SFpi (S754_finite false m e) =
  (Zpos pi_mantissa * 2 ^ 1023 <? Zpos m * 2 ^ (e + 1074)).
Proof.
  intros Hb. destruct (bounded_canonical m e Hb) as (He & Hm & Hn).
  destruct (pow2_1074_split e) as (P1 & P2 & P3); [lia |].
  unfold SFltb, SFpi, SFcompare, pi_mantissa.
  apply (SFltb_pi_value_aux m e (2 ^ 1023) (2 ^ (e + 1074)));
    try assumption.
  - apply Z.pow_pos_nonneg; lia.
  - intros E0. f_equal. lia.
Qed.


Lemma round_result_sign (s : bool) (m2 F : Z) :
  0 <= m2 ->
  match round_result s m2 F with
  | S754_nan => False
  | S754_zero s' | S754_infinity s' | S754_finite s' _ _ => s' = s
  end.
Proof.
  intros H. unfold round_result.
  destruct (m2 =? 2 ^ 53); [destruct (F + 1 <=? 971); reflexivity |].
  destruct m2 as [| m | m]; [reflexivity | | lia].
  destruct (F <=? 971); reflexivity.
Qed.

Lemma pos_compare_ge (m : positive) (c : positive) :
  Zpos c <= Zpos m ->
  match Pos.compare_cont Eq m c with Lt => true | _ => false end = false.
Proof.
  intros H. change (Pos.compare_cont Eq m c) with (Pos.compare m c).
  destruct (Pos.compare_spec m c) as [E | E | E]; try reflexivity.
  apply Pos2Z.pos_lt_pos in E. exfalso. apply (Z.lt_irrefl (Zpos m)).
  eapply Z.lt_le_trans; eassumption.
Qed.

Lemma round_result_ge_pi (m2 F : Z) :
  -51 <= F -> 0 < m2 -> (F = -51 -> Zpos pi_mantissa <= m2) ->
  SFltb (round_result false m2 F) SFpi = false.
Proof.
  intros HF Hm Hp. unfold round_result, SFltb, SFpi, SFcompare.
  destruct (Z.eqb_spec m2 (2 ^ 53)) as [E | NE].
  - destruct (F + 1 <=? 971); [| reflexivity].
    destruct (Z.compare_spec (F + 1) (-51)); try reflexivity; lia.
  - destruct m2 as [| m | m]; try lia.
    destruct (F <=? 971); [| reflexivity].
    destruct (Z.compare_spec F (-51)) as [E | E | E]; try reflexivity; [| lia].
    apply pos_compare_ge. apply Hp. exact E.
Qed.

Lemma round_result_le_pi (m2 F : Z) :
  F <= -51 -> 0 <= m2 -> (F = -51 -> m2 <= Zpos pi_mantissa) ->
  SFltb SFpi (round_result false m2 F) = false.
Proof.
  intros HF Hm Hp. unfold round_result, SFltb, SFpi, SFcompare.
  destruct (Z.eqb_spec m2 (2 ^ 53)) as [E | NE].
  - assert (F < -51).
    { destruct (Z.eq_dec F (-51)) as [E' | ?]; [| lia].
      specialize (Hp E'). rewrite E in Hp. exfalso. revert Hp. clear.
      unfold pi_mantissa. intros H. apply Z.leb_le in H. discriminate. }
    replace (F + 1 <=? 971) with true by (symmetry; apply Z.leb_le; lia).
    destruct (Z.compare_spec (-51) (F + 1)) as [E' | E' | E'];
      try reflexivity; lia.
  - destruct m2 as [| m | m]; [reflexivity | | lia].
    replace (F <=? 971) with true by (symmetry; apply Z.leb_le; lia).
    destruct (Z.compare_spec (-51) F) as [E | E | E]; try reflexivity; [| lia].
    apply pos_compare_ge. apply Hp. symmetry. exact E.
Qed.


Lemma pi_mantissa_bounds : 2 ^ 52 <= Zpos pi_mantissa < 2 ^ 53.
Proof. split; [apply Z.leb_le | apply Z.ltb_lt]; reflexivity. Qed.

Lemma binary_round_ge_pi (zp : positive) (ez : Z) :
  -1074 <= ez ->
  Zpos pi_mantissa * 2 ^ 1023 <= Zpos zp * 2 ^ (ez + 1074) ->
  SFltb (binary_round prec emax false zp ez) SFpi = false.
Proof.
  intros Hez HV.
  pose proof (digits2_pos_bounds zp) as [HD1 HD2].
  pose proof pi_mantissa_bounds as [HP1 HP2].
  set (D := Zpos (digits2_pos zp)) in *.
  assert (HD : 1 <= D) by (subst D; lia).
  assert (HU : 0 < 2 ^ (ez + 1074)) by (apply Z.pow_pos_nonneg; lia).
  assert (HK : 0 < 2 ^ 1023) by (apply Z.pow_pos_nonneg; lia).
  assert (H2 : 2 <= D + ez).
  { destruct (Z_lt_le_dec (D + ez) 2) as [Hlt | ?]; [exfalso | assumption].
    assert (A1 : 2 ^ D * 2 ^ (ez + 1074) <= 2 ^ 52 * 2 ^ 1023).
    { rewrite <- !Z.pow_add_r by lia. apply Z.pow_le_mono_r; lia. }
    assert (A2 : Zpos zp * 2 ^ (ez + 1074) < 2 ^ D * 2 ^ (ez + 1074))
      by (apply Z.mul_lt_mono_pos_r; assumption).
    assert (A3 : 2 ^ 52 * 2 ^ 1023 <= Zpos pi_mantissa * 2 ^ 1023)
      by (apply Z.mul_le_mono_nonneg_r; [apply Z.lt_le_incl |]; assumption).
    eapply Z.lt_irrefl, Z.lt_le_trans; [exact A2 |].
    eapply Z.le_trans; [exact A1 |]. eapply Z.le_trans; [exact A3 | exact HV]. }
  destruct (binary_round_shape false zp ez (D + ez - 53) Hez)
    as (m2 & [Hlo Hhi] & Hex & Hm2 & ->); [subst D; lia |].
  set (F := D + ez - 53) in *.
  assert (HG : 0 < 2 ^ (F + 1074)) by (apply Z.pow_pos_nonneg; subst F; lia).
  assert (Hq : 2 ^ 52 <= Zpos zp * 2 ^ (ez + 1074) / 2 ^ (F + 1074)).
  { apply Z.div_le_lower_bound; [exact HG |].
    rewrite <- Z.pow_add_r by (subst F; lia).
    replace (F + 1074 + 52) with (D - 1 + (ez + 1074)) by (subst F; lia).
    rewrite Z.pow_add_r by lia.
    apply Z.mul_le_mono_nonneg_r; [apply Z.lt_le_incl |]; assumption. }
  apply round_result_ge_pi.
  - subst F. lia.
  - eapply Z.lt_le_trans; [| exact Hlo]. eapply Z.lt_le_trans; [| exact Hq].
    apply Z.pow_pos_nonneg; lia.
  - intros EF. eapply Z.le_trans; [| exact Hlo].
    apply Z.div_le_lower_bound; [exact HG |].
    rewrite EF. change (-51 + 1074) with 1023. rewrite Z.mul_comm. exact HV.
Qed.

Lemma binary_round_le_pi (zp : positive) (ez : Z) :
  -1074 <= ez ->
  Zpos zp * 2 ^ (ez + 1074) <= Zpos pi_mantissa * 2 ^ 1023 ->
  SFltb SFpi (binary_round prec emax false zp ez) = false.
Proof.
  intros Hez HV.
  pose proof (digits2_pos_bounds zp) as [HD1 HD2].
  pose proof pi_mantissa_bounds as [HP1 HP2].
  set (D := Zpos (digits2_pos zp)) in *.
  assert (HD : 1 <= D) by (subst D; lia).
  assert (HU : 0 < 2 ^ (ez + 1074)) by (apply Z.pow_pos_nonneg; lia).
  assert (HK : 0 < 2 ^ 1023) by (apply Z.pow_pos_nonneg; lia).
  assert (H2 : D + ez <= 2).
  { destruct (Z_lt_le_dec 2 (D + ez)) as [Hlt | ?]; [exfalso | assumption].
    assert (A1 : 2 ^ 53 * 2 ^ 1023 <= 2 ^ (D - 1) * 2 ^ (ez + 1074)).
    { rewrite <- !Z.pow_add_r by lia. apply Z.pow_le_mono_r; lia. }
    assert (A2 : 2 ^ (D - 1) * 2 ^ (ez + 1074) <= Zpos zp * 2 ^ (ez + 1074))
      by (apply Z.mul_le_mono_nonneg_r; [apply Z.lt_le_incl |]; assumption).
    assert (A3 : Zpos pi_mantissa * 2 ^ 1023 < 2 ^ 53 * 2 ^ 1023)
      by (apply Z.mul_lt_mono_pos_r; assumption).
    eapply Z.lt_irrefl, Z.lt_le_trans; [exact A3 |].
    eapply Z.le_trans; [exact A1 |]. eapply Z.le_trans; [exact A2 | exact HV]. }
  set (F := Z.max (D + ez - 53) (-1074)).
  destruct (binary_round_shape false zp ez F Hez)
    as (m2 & [Hlo Hhi] & Hex & Hm2 & ->); [reflexivity |].
  assert (HF : -1074 <= F <= -51) by (subst F; lia).
  assert (HG : 0 < 2 ^ (F + 1074)) by (apply Z.pow_pos_nonneg; lia).
  assert (Hq : 0 <= Zpos zp * 2 ^ (ez + 1074) / 2 ^ (F + 1074)).
  { apply Z.div_pos; [| exact HG]. apply Z.mul_nonneg_nonneg; lia. }
  apply round_result_le_pi; [lia | lia |].
  intros EF. rewrite EF in *. change (-51 + 1074) with 1023 in *.
  clearbody F D. clear HD1 HD2 HD H2 HF Hez HU.
  revert HV Hlo Hhi Hex Hq HG HK.
  generalize (Zpos zp * 2 ^ (ez + 1074)). generalize (2 ^ 1023).
  generalize (Zpos pi_mantissa). clear. intros P G V HV Hlo Hhi Hex Hq HG _.
  pose proof (Z.div_mod V G ltac:(lia)) as Hdm.
  pose proof (Z.mod_pos_bound V G HG) as Hr.
  destruct (Z.eq_dec (V mod G) 0) as [E0 | N0].
  - rewrite (Hex E0). apply Z.div_le_upper_bound; [exact HG |].
    rewrite Z.mul_comm. exact HV.
  - assert (V / G < P); [| lia].
    apply Z.div_lt_upper_bound; [exact HG |].
    destruct (Z_lt_le_dec V (G * P)) as [? | Hge]; [assumption |].
    assert (V = G * P) by lia. subst V. exfalso. apply N0.
    rewrite Z.mul_comm. apply Z.mod_mul. lia.
Qed.

Lemma binary_round_sign (s : bool) (zp : positive) (ez : Z) :
  -1074 <= ez ->
  match binary_round prec emax s zp ez with
  | S754_nan => False
  | S754_zero s' | S754_infinity s' | S754_finite s' _ _ => s' = s
  end.
Proof.
  intros Hez.
  destruct (binary_round_shape s zp ez _ Hez eq_refl)
    as (m2 & [Hlo Hhi] & Hex & Hm2 & ->).
  apply round_result_sign. eapply Z.le_trans; [| exact Hlo].
  apply Z.div_pos.
  - apply Z.mul_nonneg_nonneg; [lia |]. apply Z.pow_nonneg. lia.
  - apply Z.pow_pos_nonneg; lia.
Qed.


Lemma SFsub_two_pi_finite (s : bool) (m : positive) (e : Z) :
  SF64sub SFtwo_pi (S754_finite s m e) =
  binary_normalize prec emax
    (Zpos pi_mantissa * 2 ^ (-50 - Z.min (-50) e)
     - cond_Zopp s (Zpos m * 2 ^ (e - Z.min (-50) e)))
    (Z.min (-50) e) false.
Proof.
  unfold SF64sub, SFsub, SFtwo_pi. cbv zeta.
  rewrite !shl_align_value by lia. reflexivity.
Qed.

Lemma SFltb_shortest_path (d : spec_float) :
  valid_binary d = true ->
  SFltb SFpi d = SFltb (SF64sub SFtwo_pi d) d.
Proof.
  intros Hv. destruct d as [s | s | | s m e]; try (destruct s; reflexivity);
    [reflexivity |].
  cbn [SpecFloat.valid_binary] in Hv.
  destruct (bounded_canonical m e Hv) as (He & Hm & Hn).
  rewrite SFsub_two_pi_finite.
  set (ez := Z.min (-50) e).
  assert (Hez : -1074 <= ez) by (subst ez; lia).
  assert (HA : 0 < Zpos pi_mantissa * 2 ^ (-50 - ez)).
  { apply Z.mul_pos_pos; [lia |]. apply Z.pow_pos_nonneg; subst ez; lia. }
  assert (HB : 0 < Zpos m * 2 ^ (e - ez)).
  { apply Z.mul_pos_pos; [lia |]. apply Z.pow_pos_nonneg; subst ez; lia. }
  assert (EA : Zpos pi_mantissa * 2 ^ (-50 - ez) * 2 ^ (ez + 1074)
               = 2 * (Zpos pi_mantissa * 2 ^ 1023)).
  { rewrite <- Z.mul_assoc, <- Z.pow_add_r by (subst ez; lia).
    replace (-50 - ez + (ez + 1074)) with (Z.succ 1023) by lia.
    rewrite Z.pow_succ_r by lia. ring. }
  assert (EB : Zpos m * 2 ^ (e - ez) * 2 ^ (ez + 1074)
               = Zpos m * 2 ^ (e + 1074)).
  { rewrite <- Z.mul_assoc, <- Z.pow_add_r by (subst ez; lia).
    f_equal. f_equal. lia. }
  assert (HU : 0 < 2 ^ (ez + 1074)) by (apply Z.pow_pos_nonneg; lia).
  destruct s; cbn [cond_Zopp].
  - (* a negative angle: the difference is positive *)
    destruct (Zpos pi_mantissa * 2 ^ (-50 - ez) - - (Zpos m * 2 ^ (e - ez)))
      as [| zp | zp] eqn:Ez; try lia.
    cbn [binary_normalize].
    pose proof (binary_round_sign false zp ez Hez) as Hs.
    destruct (binary_round prec emax false zp ez) as [s' | s' | | s' m' e'];
      try contradiction; subst; reflexivity.
  - rewrite (SFltb_pi_value m e Hv).
    destruct (Zpos pi_mantissa * 2 ^ (-50 - ez) - Zpos m * 2 ^ (e - ez))
      as [| zp | zp] eqn:Ez; cbn [binary_normalize].
    + (* the angle is 2 pi *)
      assert (E2 : Zpos m * 2 ^ (e + 1074) = 2 * (Zpos pi_mantissa * 2 ^ 1023)).
      { rewrite <- EA, <- EB. f_equal. lia. }
      rewrite E2.
      assert (HK : 0 < Zpos pi_mantissa * 2 ^ 1023).
      { apply Z.mul_pos_pos; [lia |]. apply Z.pow_pos_nonneg; lia. }
      transitivity true; [apply Z.ltb_lt; lia | reflexivity].
    + (* below 2 pi *)
      assert (EV : Zpos zp * 2 ^ (ez + 1074)
                   = 2 * (Zpos pi_mantissa * 2 ^ 1023) - Zpos m * 2 ^ (e + 1074)).
      { rewrite <- EA, <- EB, <- Ez. ring. }
      pose proof (binary_round_sign false zp ez Hez) as Hs.
      destruct (Z.ltb_spec (Zpos pi_mantissa * 2 ^ 1023) (Zpos m * 2 ^ (e + 1074)))
        as [Hlt | Hge].
      * symmetry. apply SFle_ltb_trans with (b := SFpi).
        -- apply binary_round_le_pi; [exact Hez |]. rewrite EV. lia.
        -- intros E. rewrite E in Hs. exact Hs.
        -- rewrite (SFltb_pi_value m e Hv). apply Z.ltb_lt. exact Hlt.
      * symmetry. apply SFle_le_trans with (b := SFpi).
        -- apply binary_round_ge_pi; [exact Hez |]. rewrite EV. lia.
        -- rewrite (SFltb_pi_value m e Hv). apply Z.ltb_ge. exact Hge.
        -- discriminate.
    + (* above 2 pi: the difference is negative *)
      assert (EV : Zpos m * 2 ^ (e + 1074)
                   = 2 * (Zpos pi_mantissa * 2 ^ 1023) + Zpos zp * 2 ^ (ez + 1074)).
      { rewrite <- EA, <- EB.
        replace (Zpos m * 2 ^ (e - ez))
          with (Zpos pi_mantissa * 2 ^ (-50 - ez) + Zpos zp) by lia. ring. }
      assert (HK : 0 < Zpos pi_mantissa * 2 ^ 1023).
      { apply Z.mul_pos_pos; [lia |]. apply Z.pow_pos_nonneg; lia. }
      assert (HZ : 0 < Zpos zp * 2 ^ (ez + 1074)) by (apply Z.mul_pos_pos; lia).
      transitivity true; [apply Z.ltb_lt; lia |].
      pose proof (binary_round_sign true zp ez Hez) as Hs.
      destruct (binary_round prec emax true zp ez) as [s' | s' | | s' m' e'];
        try contradiction; subst; reflexivity.
Qed.

End Rounding.

(** ** The bottom item in binary64 *)

Section BottomItem64.

Import Stdlib.Floats.Floats.
Import Round64.
Local Open Scope Z_scope.
Local Open Scope float_scope.

Lemma Prim2SF_pi : Prim2SF F64.pi = SFpi.
Proof. vm_compute. reflexivity. Qed.

Lemma Prim2SF_two_pi : Prim2SF (2 * F64.pi)%float = SFtwo_pi.
Proof. vm_compute. reflexivity. Qed.

Lemma Prim2SF_half_pi :
  Prim2SF (F64.pi / 2)%float = S754_finite false pi_mantissa (-52).
Proof. vm_compute. reflexivity. Qed.

Lemma radians_90_half_pi : F64.radians 90 = (F64.pi / 2)%float.
Proof. vm_compute. reflexivity. Qed.

Lemma ltb_trans (a b c : float) :
  (a <? b) = true -> (b <? c) = true -> (a <? c) = true.
Proof. rewrite !ltb_spec. apply SFltb_trans. Qed.

Lemma ltb_infinity_not_nan (c : float) :
  (c <? infinity) = true -> Prim2SF c <> S754_nan.
Proof. rewrite ltb_spec. intros H E. rewrite E in H. discriminate. Qed.

Lemma ltb_le_trans (a b c : float) :
  (a <? b) = true -> (c <? b) = false -> (c <? infinity) = true ->
  (a <? c) = true.
Proof.
  intros H1 H2 H3. apply ltb_infinity_not_nan in H3. revert H1 H2.
  rewrite !ltb_spec. intros. eapply SFltb_le_trans; eauto.
Qed.

Lemma SFltb_below_infinity (a b : spec_float) :
  SFltb a b = true -> SFltb a (S754_infinity false) = true.
Proof.
  unfold SFltb, SFcompare.
  destruct a as [sa | sa | | sa ma ea], b as [sb | sb | | sb mb eb];
    try destruct sa; try destruct sb; try discriminate; reflexivity.
Qed.

Lemma is_nan_false (x : float) : is_nan x = false -> Prim2SF x <> S754_nan.
Proof.
  unfold is_nan. rewrite eqb_spec. intros H E. rewrite E in H. discriminate.
Qed.

Lemma SFsub_finite_not_nan (x : spec_float) (s : bool) (m : positive) (e : Z) :
  valid_binary x = true -> bounded prec emax m e = true -> x <> S754_nan ->
  SF64sub x (S754_finite s m e) <> S754_nan.
Proof.
  intros Hx Hb Hn. destruct (bounded_canonical m e Hb) as (He & _).
  destruct x as [sx | sx | | sx mx ex]; try discriminate; try congruence.
  cbn [SpecFloat.valid_binary] in Hx.
  destruct (bounded_canonical mx ex Hx) as (Hex & _).
  unfold SF64sub, SFsub. cbv zeta.
  match goal with
  | |- binary_normalize _ _ ?z ?ez _ <> _ =>
      assert (Hez : (-1074 <= ez)%Z) by lia; destruct z as [| zp | zp]
  end; cbn [binary_normalize]; [discriminate | |].
  - match goal with
    | |- binary_round _ _ _ _ ?ez <> _ =>
        pose proof (binary_round_sign false zp ez Hez) as Hs
    end.
    intros E. rewrite E in Hs. exact Hs.
  - match goal with
    | |- binary_round _ _ _ _ ?ez <> _ =>
        pose proof (binary_round_sign true zp ez Hez) as Hs
    end.
    intros E. rewrite E in Hs. exact Hs.
Qed.

(** the wrap-around test of [get_bottom_item] takes the shorter path *)
Lemma shortest_path_ltb (d : float) :
  (F64.pi <? d) = (2 * F64.pi - d <? d).
Proof.
  rewrite !ltb_spec, sub_spec, Prim2SF_pi, Prim2SF_two_pi.
  apply SFltb_shortest_path, Prim2SF_valid.
Qed.

Lemma bottom_diff_angular_distance (w : F64.WheelUI) (item : F64.WheelItem) :
  F64.bottom_angle w = F64.radians 90 ->
  F64.bottom_diff w item = F64.angular_distance (F64.effective_angle w item).
Proof.
  intros Hb. unfold F64.bottom_diff, F64.angular_distance, F64.float_min.
  cbv zeta. rewrite Hb, radians_90_half_pi.
  fold (F64.effective_angle w item).
  rewrite <- shortest_path_ltb. reflexivity.
Qed.

Lemma angular_distance_below_infinity (a : float) :
  is_nan a = false -> (F64.angular_distance a <? infinity) = true.
Proof.
  intros Ha. apply is_nan_false in Ha.
  unfold F64.angular_distance, F64.float_min. cbv zeta.
  set (d := abs (a - F64.pi / 2)).
  rewrite <- shortest_path_ltb.
  assert (Hd : Prim2SF d <> S754_nan).
  { subst d. rewrite abs_spec, sub_spec, Prim2SF_half_pi.
    pose proof (SFsub_finite_not_nan (Prim2SF a) false pi_mantissa (-52)
                  (Prim2SF_valid a) eq_refl Ha) as H.
    destruct (SF64sub (Prim2SF a) (S754_finite false pi_mantissa (-52)));
      try discriminate; congruence. }
  destruct (F64.pi <? d) eqn:L.
  - rewrite shortest_path_ltb in L. revert L. rewrite !ltb_spec.
    apply SFltb_below_infinity.
  - revert L. rewrite !ltb_spec, Prim2SF_pi. intros L.
    apply SFle_ltb_trans with (b := SFpi); [exact L | exact Hd | reflexivity].
Qed.


Lemma no_nan_angle_distance (w : F64.WheelUI) (group : list F64.WheelItem) :
  F64.no_nan_angle w group = true ->
  forall y, In y group -> (F64.distance w y <? infinity) = true.
Proof.
  unfold F64.no_nan_angle. rewrite forallb_forall. intros H y Hy.
  apply angular_distance_below_infinity.
  specialize (H y Hy). apply negb_true_iff in H. exact H.
Qed.

Lemma bottom_step_distance (w : F64.WheelUI) (acc : option F64.WheelItem * float)
  (y : F64.WheelItem) :
  F64.bottom_angle w = F64.radians 90 ->
  F64.bottom_step w acc y =
  if F64.distance w y <? snd acc then (Some y, F64.distance w y) else acc.
Proof.
  intros Hb. unfold F64.bottom_step. cbv zeta.
  rewrite (bottom_diff_angular_distance w y Hb). reflexivity.
Qed.

Lemma bottom_fold_binary64 (w : F64.WheelUI) (rest : list F64.WheelItem) :
  F64.bottom_angle w = F64.radians 90 ->
  forall (pre : list F64.WheelItem) (x : F64.WheelItem)
         (post : list F64.WheelItem),
  (forall y, In y (pre ++ x :: post ++ rest) ->
             (F64.distance w y <? infinity) = true) ->
  (forall y, In y pre -> (F64.distance w x <? F64.distance w y) = true) ->
  (forall y, In y post -> (F64.distance w y <? F64.distance w x) = false) ->
  exists pre' x' post',
    pre ++ x :: post ++ rest = pre' ++ x' :: post' /\
    fold_left (F64.bottom_step w) rest (Some x, F64.distance w x)
      = (Some x', F64.distance w x') /\
    (forall y, In y pre' -> (F64.distance w x' <? F64.distance w y) = true) /\
    (forall y, In y post' -> (F64.distance w y <? F64.distance w x') = false).
Proof.
  intros Hb. induction rest as [| y rest IH]; intros pre x post Hfin Hpre Hpost.
  - exists pre, x, post. rewrite app_nil_r. repeat split; assumption.
  - cbn [fold_left]. rewrite (bottom_step_distance w _ y Hb). cbn [snd].
    assert (E : pre ++ x :: post ++ y :: rest
                = (pre ++ x :: post) ++ y :: [] ++ rest)
      by (rewrite <- app_assoc; reflexivity).
    assert (E' : pre ++ x :: post ++ y :: rest
                 = pre ++ x :: (post ++ [y]) ++ rest)
      by (rewrite <- app_assoc; reflexivity).
    destruct (F64.distance w y <? F64.distance w x) eqn:L.
    + destruct (IH (pre ++ x :: post) y [])
        as (pre' & x' & post' & E1 & F1 & P1 & P2).
      * rewrite <- E. exact Hfin.
      * intros p Hp. apply in_app_or in Hp. destruct Hp as [Hp | [<- | Hp]].
        -- eapply ltb_trans; [exact L | apply Hpre; exact Hp].
        -- exact L.
        -- apply ltb_le_trans with (b := F64.distance w x);
             [exact L | apply Hpost; exact Hp |].
           apply Hfin. apply in_or_app. right. right.
           apply in_or_app. left. exact Hp.
      * intros p [].
      * exists pre', x', post'. rewrite E, E1. auto.
    + destruct (IH pre x (post ++ [y]))
        as (pre' & x' & post' & E1 & F1 & P1 & P2).
      * rewrite <- E'. exact Hfin.
      * exact Hpre.
      * intros p Hp. apply in_app_or in Hp. destruct Hp as [Hp | [<- | []]];
          [apply Hpost; exact Hp | exact L].
      * exists pre', x', post'. rewrite E', E1. auto.
Qed.

(** C10. [get_bottom_item] returns [None] on an empty group without
    raising; on a non-empty group whose effective angles are numbers it
    returns a member of the group, the first one of least angular distance
    [min(|a - pi/2|, 2 pi - |a - pi/2|)] from the bottom, [a] the effective
    angle, all in binary64: every earlier item is strictly farther, no
    later item is nearer. *)
Theorem get_bottom_item_first_nearest (w : F64.WheelUI)
  (group : list F64.WheelItem) :
  F64.bottom_angle w = F64.radians 90 ->
  F64.no_nan_angle w group = true ->
  group <> [] ->
  F64.get_bottom_item w [] = None /\
  exists pre x post,
    group = pre ++ x :: post /\
    F64.get_bottom_item w group = Some x /\
    In x group /\
    (forall y, In y pre -> (F64.distance w x <? F64.distance w y) = true) /\
    (forall y, In y post -> (F64.distance w y <? F64.distance w x) = false).
Proof.
  intros Hb Hn Hne. split; [reflexivity |].
  destruct group as [| item group]; [congruence |].
  pose proof (no_nan_angle_distance w _ Hn) as Hfin.
  unfold F64.get_bottom_item. cbn [fold_left].
  rewrite (bottom_step_distance w _ item Hb). cbn [snd].
  rewrite (Hfin item (or_introl eq_refl)).
  destruct (bottom_fold_binary64 w group Hb [] item [])
    as (pre & x & post & E & F & P1 & P2).
  - exact Hfin.
  - intros y [].
  - intros y [].
  - cbn [app] in E. exists pre, x, post. rewrite F. cbn [fst].
    repeat split; try assumption.
    rewrite E. apply in_or_app. right. left. reflexivity.
Qed.

Lemma get_bottom_item_first_nearest_witness :
  F64.get_bottom_item F64.four_games_135 [] = None /\
  exists pre x post,
    F64.four_items = pre ++ x :: post /\
    F64.get_bottom_item F64.four_games_135 F64.four_items = Some x /\
    In x F64.four_items /\
    (forall y, In y pre ->
       (F64.distance F64.four_games_135 x <? F64.distance F64.four_games_135 y)
       = true) /\
    (forall y, In y post ->
       (F64.distance F64.four_games_135 y <? F64.distance F64.four_games_135 x)
       = false).
Proof.
  apply (get_bottom_item_first_nearest F64.four_games_135 F64.four_items).
  - reflexivity.
  - vm_compute. reflexivity.
  - discriminate.
Defined.

(** With four games and the wheel at 135 degrees, items 2 and 3 are both
    45 degrees from the bottom; in binary64 item 3 is the nearer one by
    [2 ** -50], and it is the one returned. *)
Lemma bottom_item_four_games_135 :
  option_map F64.index
    (F64.get_bottom_item F64.four_games_135 F64.four_items) = Some 3%Z /\
  map (F64.distance F64.four_games_135) F64.four_items =
    [0x1.2d97c7f3321d2p+1; 0x1.2d97c7f3321d2p+1;
     0x1.921fb54442d18p-1; 0x1.921fb54442d10p-1].
Proof. split; vm_compute; reflexivity. Qed.

End BottomItem64.

(** ** The range of the current angle in binary64 *)

Section Range64.

Import Stdlib.Floats.Floats.
Local Open Scope float_scope.

(** The run [turn_back_frames] of the launcher with 65 games ends in
    [wheel_65_turned_back]. *)
Lemma turn_back_frames_reach :
  F64.menu_frames F64.wheel_65 F64.turn_back_frames
  = Py.Ok F64.wheel_65_turned_back.
Proof. vm_compute. reflexivity. Qed.

(** C1. [WheelUI.update] does not always bring the current angle back
    into [0, 360): on the wheel of 65 games at rest on index 3 with target
    index 48, delta is about -110.77, the step is taken, the sum is
    [-2 ** -47], and Python's [%] makes exactly 360.0 of it. *)
Theorem update_leaves_360 :
  let w := F64.wheel_65_turned_back in
  let delta := F64.rem (F64.target_angle w - F64.master_angle w) 360 - 360 in
  F64.master_angle w = 0x1.09d89d89d89d8p+4 /\
  F64.target_angle w = 0x1.09d89d89d89d8p+8 /\
  delta = -0x1.bb13b13b13b16p+6 /\
  (1 <? abs delta) = true /\
  F64.master_angle w + delta * 0x1.3333333333333p-3 = -0x1p-47 /\
  F64.master_angle (F64.update w) = F64.rem (-0x1p-47) 360 /\
  F64.master_angle (F64.update w) = 360 /\
  (F64.master_angle (F64.update w) <? 360) = false.
Proof. cbv zeta. repeat split; vm_compute; reflexivity. Qed.

(** C6. The current angle does not stay in [0, 360) on every run: with 65
    games, three right presses, twenty frames of rest, twenty left
    presses within one frame and the update of the next frame leave
    [master_angle] at exactly 360.0. *)
Theorem master_angle_reaches_360 :
  exists w,
    F64.menu_frames (fst (F64.WheelUI_init F64.games_65))
                    (F64.turn_back_frames ++ [[]]) = Py.Ok w /\
    F64.master_angle w = 360 /\
    (F64.master_angle w <? 360) = false.
Proof.
  eexists. split; [vm_compute; reflexivity |].
  split; vm_compute; reflexivity.
Qed.

(** The increments need not add up to the full circle: with 39 games
    [angle_increment * 39] is the double below 360. *)
Lemma increments_of_39_games :
  F64.angle_increment (fst (F64.WheelUI_init (repeat "game"%string 39))) * 39
  = 0x1.67fffffffffffp+8.
Proof. vm_compute. reflexivity. Qed.

End Range64.
